(** * Ceagle web client: upload pipeline and derived facets

    A shallow embedding of the parts of [web/src] that flatten a drop
    payload, check for duplicate names, upload a batch with three workers,
    cluster colour swatches and compute the format facet.

    Conventions.
    - A JavaScript string is a [string]; each [ascii] stands for one UTF-16
      code unit below 256, which is closed under [trim] and [toLowerCase].
      The one place that uses positions of a lower-cased copy on the text
      itself, [highlightMatch], is modelled on lists of code units with
      [toLowerCase] as a parameter, since lower-casing can lengthen a
      string.
    - Integer-valued numbers are [Z].  Two places divide: the centroid
      update, where the correctly rounded quotient of an integer below 2^53
      by a count below 2^45 lies on the same side of every half-integer as
      the exact quotient, so [Math.round] is computed on exact integers; and
      the aggregate percentage, which multiplies a rounded quotient by 100
      and is therefore evaluated in binary64 with [PrimFloat].
    - [Math.sqrt(d2) <= 28] on an integer [d2] is [d2 <= 784]: the square
      root is correctly rounded, monotone, and exact at 784.
    - Code that awaits is cut at its suspension points: every handler runs
      to its next [await] in one step. *)

From Stdlib Require Import ZArith NArith List String Ascii Bool Lia.
From Stdlib Require Import Sorting.Sorted Sorting.Permutation Structures.OrdersEx.
From Stdlib Require Import Classes.RelationClasses.
From Stdlib Require Import Floats.PrimFloat Floats.FloatOps Floats.SpecFloat.
From Stdlib Require Import Numbers.Cyclic.Int63.Uint63.
Import ListNotations.
Open Scope string_scope.
Open Scope list_scope.
Open Scope Z_scope.

(** ** The JavaScript built-ins the code relies on *)
Module JS.

(** WhiteSpace and LineTerminator code units below 256. *)
Definition isWhiteSpace (c : ascii) : bool :=
  let n := N_of_ascii c in
  ((9 <=? n) && (n <=? 13))%N || (n =? 32)%N || (n =? 160)%N.

Fixpoint trimStart (s : string) : string :=
  match s with
  | String c s' => if isWhiteSpace c then trimStart s' else s
  | EmptyString => EmptyString
  end.

Fixpoint trimEnd (s : string) : string :=
  match s with
  | String c s' =>
      match trimEnd s' with
      | EmptyString => if isWhiteSpace c then EmptyString else String c EmptyString
      | t => String c t
      end
  | EmptyString => EmptyString
  end.

(** [String.prototype.trim]. *)
Definition trim (s : string) : string := trimEnd (trimStart s).

Definition lowerChar (c : ascii) : ascii :=
  let n := N_of_ascii c in
  if ((65 <=? n) && (n <=? 90))%N
     || ((192 <=? n) && (n <=? 222) && negb (n =? 215))%N
  then ascii_of_N (n + 32) else c.

(** [String.prototype.toLowerCase]. *)
Fixpoint toLowerCase (s : string) : string :=
  match s with
  | String c s' => String (lowerChar c) (toLowerCase s')
  | EmptyString => EmptyString
  end.

(** [String.prototype.includes]. *)
Fixpoint includes (s sub : string) : bool :=
  prefix sub s ||
  match s with
  | String _ s' => includes s' sub
  | EmptyString => false
  end.

(** [s.replace(c, "")] for a one-character pattern: the first occurrence goes. *)
Fixpoint removeFirst (c : ascii) (s : string) : string :=
  match s with
  | String d s' => if Ascii.eqb c d then s' else String d (removeFirst c s')
  | EmptyString => EmptyString
  end.

(** [s.slice(i, j)] for [0 <= i <= j]. *)
Definition slice (i j : nat) (s : string) : string := substring i (j - i) s.

Definition hexDigit (c : ascii) : option Z :=
  let n := Z.of_N (N_of_ascii c) in
  if (48 <=? n) && (n <=? 57) then Some (n - 48)
  else if (97 <=? n) && (n <=? 102) then Some (n - 87)
  else if (65 <=? n) && (n <=? 70) then Some (n - 55)
  else None.

(** The longest prefix of radix-16 digits, most significant first. *)
Fixpoint hexPrefix (s : string) : list Z :=
  match s with
  | String c s' =>
      match hexDigit c with
      | Some d => d :: hexPrefix s'
      | None => []
      end
  | EmptyString => []
  end.

(** [parseInt(s, 16)]; [None] is NaN.  Leading white space is skipped, a
    sign and a [0x] prefix are accepted, and parsing stops at the first
    character that is not a digit. *)
Definition parseInt16 (s : string) : option Z :=
  let s1 := trimStart s in
  let '(sign, s2) :=
    match s1 with
    | String "-" t => (-1, t)
    | String "+" t => (1, t)
    | _ => (1, s1)
    end in
  let s3 :=
    match s2 with
    | String "0" (String "x" t) => t
    | String "0" (String "X" t) => t
    | _ => s2
    end in
  match hexPrefix s3 with
  | [] => None
  | ds => Some (sign * fold_left (fun acc d => 16 * acc + d) ds 0)
  end.

Definition hexChar (d : Z) : ascii :=
  ascii_of_N (Z.to_N (if d <? 10 then 48 + d else 87 + d)).

Fixpoint hexDigits (fuel : nat) (n : Z) (acc : string) : string :=
  match fuel with
  | O => acc
  | S k =>
      let acc' := String (hexChar (n mod 16)) acc in
      if n / 16 =? 0 then acc' else hexDigits k (n / 16) acc'
  end.

(** [n.toString(16)] on an integer. *)
Definition toString16 (n : Z) : string :=
  if n <? 0
  then String "-" (hexDigits (S (Z.to_nat (Z.log2 (- n)))) (- n) EmptyString)
  else hexDigits (S (Z.to_nat (Z.log2 n))) n EmptyString.

Fixpoint repeatChar (c : ascii) (n : nat) : string :=
  match n with
  | O => EmptyString
  | S k => String c (repeatChar c k)
  end.

(** [s.padStart(width, c)] for a one-character filler. *)
Definition padStart (width : nat) (c : ascii) (s : string) : string :=
  (repeatChar c (width - String.length s) ++ s)%string.

(** [Array.prototype.join]. *)
Fixpoint join (sep : string) (l : list string) : string :=
  match l with
  | [] => EmptyString
  | [x] => x
  | x :: rest => (x ++ sep ++ join sep rest)%string
  end.

(** [Math.round((x) / n)] for integers [x] and [n > 0], ties towards
    positive infinity. *)
Definition roundDiv (x n : Z) : Z := (2 * x + n) / (2 * n).

(** A safe integer as a binary64 number. *)
Definition toNumber (z : Z) : float :=
  if z <? 0 then PrimFloat.opp (PrimFloat.of_uint63 (Uint63.of_Z (- z)))
  else PrimFloat.of_uint63 (Uint63.of_Z z).

(** [Math.round] on a finite binary64 number: [floor (x + 1/2)], computed
    exactly from mantissa and exponent. *)
Definition Math_round (x : float) : Z :=
  match Prim2SF x with
  | S754_finite s m e =>
      let n := if s then Z.neg m else Z.pos m in
      if 0 <=? e then n * 2 ^ e else (2 * n + 2 ^ (- e)) / 2 ^ (- e + 1)
  | _ => 0
  end.

Section Sort.
Context {A : Type} (compareFn : A -> A -> Z).

Fixpoint insertSorted (x : A) (l : list A) : list A :=
  match l with
  | [] => [x]
  | y :: l' => if compareFn y x <=? 0 then y :: insertSorted x l' else x :: y :: l'
  end.

(** [Array.prototype.sort(compareFn)]: a stable sort; an element goes after
    the elements that do not compare greater than it. *)
Definition sort (l : list A) : list A :=
  fold_left (fun acc x => insertSorted x acc) l [].

End Sort.

(** [Array.prototype.findIndex]; [find] returns the element there. *)
Fixpoint findIndex {A : Type} (p : A -> bool) (l : list A) : option nat :=
  match l with
  | [] => None
  | x :: l' => if p x then Some O else option_map S (findIndex p l')
  end.

(** In-place update of the element at index [i]. *)
Fixpoint updateAt {A : Type} (i : nat) (f : A -> A) (l : list A) : list A :=
  match l, i with
  | [], _ => []
  | x :: l', O => f x :: l'
  | x :: l', S k => x :: updateAt k f l'
  end.

(** [Array.from(new Set(l))]: first occurrences, in order. *)
Fixpoint unique (l : list string) : list string :=
  match l with
  | [] => []
  | x :: l' => x :: filter (fun y => negb (String.eqb x y)) (unique l')
  end.

End JS.

(** ** Data model *)

(** A browser [File] as the upload code reads it.  [relativePath] is the
    property the collector adds; it is [None] while undefined. *)
Module File.
Record t := mk {
  name : string;
  size : N;
  webkitRelativePath : string;
  relativePath : option string
}.

Definition setRelativePath (p : string) (f : t) : t :=
  {| name := name f; size := size f;
     webkitRelativePath := webkitRelativePath f; relativePath := Some p |}.
End File.

(** An asset record as the backend returns it; a field the code guards
    with [||] or [typeof] is an [option]. *)
Module Asset.
Record t := mk {
  id : Z;
  filename : option string;
  colors : option (list string);
  format : option string
}.
End Asset.

(** The state of an awaited promise once the event loop has drained:
    fulfilled, rejected, or never settled. *)
Inductive Promise (A : Type) : Type :=
| Fulfilled (value : A)
| Rejected (reason : string)
| Pending.
Arguments Fulfilled {A} value.
Arguments Rejected {A} reason.
Arguments Pending {A}.

(** Sequencing of awaits: a rejection propagates, a promise that never
    settles blocks what follows. *)
Definition andThen {A B : Type} (p : Promise A) (k : A -> Promise B) : Promise B :=
  match p with
  | Fulfilled a => k a
  | Rejected e => Rejected e
  | Pending => Pending
  end.

(** ** DirectoryCollector *)
Module Collector.

(** What [entry.file(resolve, reject)] does. *)
Inductive Materialized : Type :=
| Readable (file : File.t)
| Unreadable (reason : string).

(** A [FileSystemEntry].  A directory carries the replies its reader will
    give to successive [readEntries] calls: [Some batch] calls the success
    callback with [batch]; [None] is a failed read, which calls only the
    error callback.  A reader whose replies are used up answers with the
    empty batch. *)
#[warnings="-register-all"]
Inductive Entry : Type :=
| FileEntry (name : string) (content : Materialized)
| DirectoryEntry (name : string) (reader : list (option (list Entry)))
| OtherEntry (name : string).

Definition Reader : Type := list (option (list Entry)).

(** One [reader.readEntries(resolve)]: the reply and the reader afterwards. *)
Definition readEntries (reader : Reader) : option (list Entry) * Reader :=
  match reader with
  | [] => (Some [], [])
  | reply :: rest => (reply, rest)
  end.

(** [readAllEntries], started with the entries gathered so far; the result
    pairs them with the reader as the loop leaves it.  Only a success
    callback is passed, so a failed read leaves the awaited promise
    unsettled. *)
Fixpoint readAllEntriesFrom (reader : Reader) (entries : list Entry)
  : Promise (list Entry * Reader) :=
  match reader with
  | [] => Fulfilled (entries, [])
  | None :: _ => Pending
  | Some [] :: rest => Fulfilled (entries, rest)
  | Some batch :: rest => readAllEntriesFrom rest (entries ++ batch)
  end.

Definition readAllEntries (reader : Reader) : Promise (list Entry * Reader) :=
  readAllEntriesFrom reader [].

Section Loops.
Context {A B : Type} (body : A -> B -> Promise B).

(** [for (const x of l) await body(x)], threading the shared array. *)
Fixpoint forEach (l : list A) (acc : B) : Promise B :=
  match l with
  | [] => Fulfilled acc
  | x :: l' => andThen (body x acc) (forEach l')
  end.

(** The same loop over the entries a reader yields before its first empty
    batch, walking the replies themselves. *)
Fixpoint forEachRead (reader : list (option (list A))) (acc : B) : Promise B :=
  match reader with
  | Some batch :: rest =>
      match batch with
      | [] => Fulfilled acc
      | _ :: _ => andThen (forEach batch acc) (forEachRead rest)
      end
  | _ => Fulfilled acc
  end.
End Loops.

(** [traverseEntry(entry, files, prefix)]: the result is the shared [files]
    array after the call.  The children loop runs over the replies of the
    reader so that the recursion is structural; [traverseEntry_directory]
    below restates it over the array [readAllEntries] returns. *)
Fixpoint traverseEntry (entry : Entry) (files : list File.t) (prefix : string)
  : Promise (list File.t) :=
  match entry with
  | FileEntry _ content =>
      match content with
      | Readable file =>
          Fulfilled
            (files ++ [if String.eqb prefix "" then file
                       else File.setRelativePath (prefix ++ File.name file) file])
      | Unreadable reason => Rejected reason
      end
  | DirectoryEntry name reader =>
      andThen (readAllEntries reader) (fun _ =>
        forEachRead
          (fun child files => traverseEntry child files (prefix ++ name ++ "/"))
          reader files)
  | OtherEntry _ => Fulfilled files
  end.

(** A [DataTransferItem]: its [kind], what [webkitGetAsEntry] returns (when
    the method exists and gives an entry) and what [getAsFile] returns. *)
Record Item := mkItem {
  kindIsFile : bool;
  webkitGetAsEntry : option Entry;
  getAsFile : option File.t
}.

Record DataTransfer := mkDataTransfer {
  files : list File.t;
  items : list Item
}.

Definition adoptWebkitPath (file : File.t) : File.t :=
  if String.eqb (File.webkitRelativePath file) "" then file
  else File.setRelativePath (File.webkitRelativePath file) file.

Definition collectItem (item : Item) (files : list File.t) : Promise (list File.t) :=
  if negb (kindIsFile item) then Fulfilled files
  else match webkitGetAsEntry item with
       | Some entry => traverseEntry entry files ""
       | None =>
           match getAsFile item with
           | Some file => Fulfilled (files ++ [file])
           | None => Fulfilled files
           end
       end.

(** [getFilesFromDataTransfer]. *)
Definition getFilesFromDataTransfer (dataTransfer : DataTransfer)
  : Promise (list File.t) :=
  match files dataTransfer with
  | _ :: _ => Fulfilled (map adoptWebkitPath (files dataTransfer))
  | [] =>
      match items dataTransfer with
      | _ :: _ => forEach collectItem (items dataTransfer) []
      | [] => Fulfilled ([] ++ files dataTransfer)
      end
  end.

(** *** What the traversal is meant to produce *)

(** The accumulated ["parentDir/"] segments of a path of directory names. *)
Fixpoint segments (path : list string) : string :=
  match path with
  | [] => EmptyString
  | dir :: path' => (dir ++ "/" ++ segments path')%string
  end.

Section Reached.
Context {A B : Type} (each : A -> list B) (ok : A -> bool).

(** The children a reader yields before its first empty batch, mapped
    through [each] and concatenated in order. *)
Fixpoint flatRead (reader : list (option (list A))) : list B :=
  match reader with
  | Some batch :: rest =>
      match batch with
      | [] => []
      | _ :: _ => flat_map each batch ++ flatRead rest
      end
  | _ => []
  end.

(** No read fails before the first empty batch, and every child read on
    the way satisfies [ok]. *)
Fixpoint allRead (reader : list (option (list A))) : bool :=
  match reader with
  | [] => true
  | None :: _ => false
  | Some batch :: rest =>
      match batch with
      | [] => true
      | _ :: _ => forallb ok batch && allRead rest
      end
  end.
End Reached.

(** The descriptor of a leaf below the directories of [path]. *)
Definition descriptor (path : list string) (file : File.t) : File.t :=
  match path with
  | [] => file
  | _ :: _ => File.setRelativePath (segments path ++ File.name file) file
  end.

(** Depth-first flattening: the leaves of [entry] in the order the
    platform lists them, each with the path that leads to it. *)
Fixpoint flatten (path : list string) (entry : Entry) : list File.t :=
  match entry with
  | FileEntry _ (Readable file) => [descriptor path file]
  | FileEntry _ (Unreadable _) => []
  | DirectoryEntry name reader => flatRead (flatten (path ++ [name])) reader
  | OtherEntry _ => []
  end.

(** Every file reached can be materialised and every read reached succeeds. *)
Fixpoint readable (entry : Entry) : bool :=
  match entry with
  | FileEntry _ (Readable _) => true
  | FileEntry _ (Unreadable _) => false
  | DirectoryEntry _ reader => allRead readable reader
  | OtherEntry _ => true
  end.

End Collector.

(** ** DuplicateResolver *)
Module Duplicates.

(** [files.some((file) => file.relativePath && file.relativePath.includes("/"))]. *)
Definition hasNestedPath (files : list File.t) : bool :=
  existsb
    (fun file =>
       match File.relativePath file with
       | Some p => negb (String.eqb p "") && JS.includes p "/"
       | None => false
       end)
    files.

(** The [Map] from lower-case name to the assets bearing it, in insertion
    order. *)
Definition NameIndex : Type := list (string * list Asset.t).

Definition has (name : string) (m : NameIndex) : bool :=
  existsb (fun kv => String.eqb (fst kv) name) m.

Definition get (name : string) (m : NameIndex) : list Asset.t :=
  match find (fun kv => String.eqb (fst kv) name) m with
  | Some kv => snd kv
  | None => []
  end.

(** [if (!m.has(name)) m.set(name, []); m.get(name).push(asset)]. *)
Fixpoint push (name : string) (asset : Asset.t) (m : NameIndex) : NameIndex :=
  match m with
  | [] => [(name, [asset])]
  | (k, v) :: m' =>
      if String.eqb k name then (k, v ++ [asset]) :: m'
      else (k, v) :: push name asset m'
  end.

(** [String(asset.filename || "").toLowerCase()]. *)
Definition assetName (asset : Asset.t) : string :=
  JS.toLowerCase (match Asset.filename asset with Some s => s | None => "" end).

Definition indexExisting (existing : list Asset.t) : NameIndex :=
  fold_left
    (fun m asset =>
       let name := assetName asset in
       if String.eqb name "" then m else push name asset m)
    existing [].

(** [String(file.name || "").toLowerCase()]. *)
Definition candidateName (file : File.t) : string := JS.toLowerCase (File.name file).

Definition dupNames (files : list File.t) (existingByName : NameIndex) : list string :=
  JS.unique
    (filter (fun name => negb (String.eqb name "") && has name existingByName)
       (map candidateName files)).

Fixpoint uniqueIds (l : list Z) : list Z :=
  match l with
  | [] => []
  | x :: l' => x :: filter (fun y => negb (x =? y)) (uniqueIds l')
  end.

(** The ids the replace branch deletes, in the order the [Set] holds them. *)
Definition deleteIds (names : list string) (existingByName : NameIndex) : list Z :=
  uniqueIds (flat_map (fun name => map Asset.id (get name existingByName)) names).

(** What the duplicate step of [handleUploadFiles] does before the upload
    starts. *)
Inductive Check : Type :=
| Bypassed
| CheckFailed (message : string)
| CheckStalled
| NoDuplicates
| Prompted (count : nat) (sample : string) (replaceDeletes : list Z).

(** The duplicate step, reached with a non-empty batch and a folder
    selected.  [fetched] is what [fetchAssets({ folder_id })] settles to;
    it is only awaited when no candidate has a nested path. *)
Definition checkDuplicates (files : list File.t) (fetched : Promise (list Asset.t))
  : Check :=
  if hasNestedPath files then Bypassed
  else
    match fetched with
    | Fulfilled existing =>
        let existingByName := indexExisting existing in
        let names := dupNames files existingByName in
        match names with
        | [] => NoDuplicates
        | _ :: _ =>
            Prompted (List.length names) (JS.join ", " (firstn 5 names))
              (deleteIds names existingByName)
        end
    | Rejected message => CheckFailed message
    | Pending => CheckStalled
    end.

End Duplicates.

(** ** UploadScheduler *)
Module Upload.

Definition concurrency : nat := 3.

(** One of the async worker functions: suspended on the upload of the file
    it claimed, or returned. *)
Inductive Worker : Type :=
| Uploading (currentIndex : nat) (lastLoaded : Z)
| Returned.

Record UploadProgress := mkProgress {
  active : bool;
  percent : Z;
  current : string;
  index : nat;
  total : nat
}.

(** The variables the workers share, then three history fields kept for
    the statements only: the indices passed to [uploadOne] in call order,
    the last [loaded] value each file reported, and the transfers that have
    settled, each with [true] when it resolved and [false] when it was
    rejected. *)
Record State := mkState {
  cursor : nat;
  uploadedBytes : Z;
  uploadProgress : UploadProgress;
  uploadErrors : list string;
  workers : list Worker;
  attempts : list nat;
  reported : list Z;
  outcomes : list (nat * bool)
}.

(** [files.reduce((sum, file) => sum + (file.size || 0), 0) || 1]. *)
Definition totalBytes (files : list File.t) : Z :=
  let sum := fold_left (fun sum file => sum + Z.of_N (File.size file)) files 0 in
  if sum =? 0 then 1 else sum.

(** [Math.min(100, Math.round((uploadedBytes / totalBytes) * 100))]. *)
Definition percentOf (uploadedBytes totalBytes : Z) : Z :=
  Z.min 100
    (JS.Math_round
       (PrimFloat.mul
          (PrimFloat.div (JS.toNumber uploadedBytes) (JS.toNumber totalBytes))
          (JS.toNumber 100))).

(** What an [XMLHttpRequest] of a transfer in flight can deliver:
    [upload.onprogress], [onload] with the status and the message of the
    exception [JSON.parse] throws on the body (if it throws), [onerror]. *)
Inductive XhrEvent : Type :=
| Progress (lengthComputable : bool) (loaded : Z)
| Load (status : Z) (parseError : option string)
| NetworkError.

Definition uploadFailed : string := "上传失败".

(** How the promise of [uploadAssetWithProgress] settles on an event:
    [Some None] resolves, [Some (Some (message, viaOnError))] rejects,
    after calling [onError] when [viaOnError]. *)
Definition settles (ev : XhrEvent) : option (option (string * bool)) :=
  match ev with
  | Progress _ _ => None
  | Load status parseError =>
      if (200 <=? status) && (status <? 300)
      then match parseError with
           | None => Some None
           | Some message => Some (Some (message, false))
           end
      else Some (Some (uploadFailed, true))
  | NetworkError => Some (Some (uploadFailed, true))
  end.

Definition setWorker (w : nat) (x : Worker) (l : list Worker) : list Worker :=
  JS.updateAt w (fun _ => x) l.

(** Worker [w] from the head of its [while] loop to its next suspension:
    it claims [files[cursor]] and enters [uploadOne], or returns. *)
Definition workerLoop (files : list File.t) (w : nat) (s : State) : State :=
  match nth_error files (cursor s) with
  | Some file =>
      {| cursor := S (cursor s);
         uploadedBytes := uploadedBytes s;
         uploadProgress :=
           {| active := active (uploadProgress s);
              percent := percent (uploadProgress s);
              current := File.name file;
              index := S (cursor s);
              total := total (uploadProgress s) |};
         uploadErrors := uploadErrors s;
         workers := setWorker w (Uploading (cursor s) 0) (workers s);
         attempts := attempts s ++ [cursor s];
         reported := reported s;
         outcomes := outcomes s |}
  | None =>
      {| cursor := cursor s;
         uploadedBytes := uploadedBytes s;
         uploadProgress := uploadProgress s;
         uploadErrors := uploadErrors s;
         workers := setWorker w Returned (workers s);
         attempts := attempts s;
         reported := reported s;
         outcomes := outcomes s |}
  end.

(** The state when [Promise.all(workers)] is first awaited: [map] has run
    each worker up to its first suspension, in slot order.  The code gets
    here with a non-empty batch only; on an empty one every worker returns
    at once. *)
Definition start (files : list File.t) : State :=
  fold_left (fun s w => workerLoop files w s) (seq 0 concurrency)
    {| cursor := 0;
       uploadedBytes := 0;
       uploadProgress :=
         {| active := true; percent := 0;
            current := match files with file :: _ => File.name file | [] => "" end;
            index := 0; total := List.length files |};
       uploadErrors := [];
       workers := repeat Returned concurrency;
       attempts := [];
       reported := repeat 0 (List.length files);
       outcomes := [] |}.

(** The progress callback of [uploadOne]. *)
Definition onProgress (files : list File.t) (w idx : nat) (lastLoaded : Z)
  (lengthComputable : bool) (loaded : Z) (s : State) : State :=
  if negb lengthComputable then s
  else
    let delta := loaded - lastLoaded in
    let uploadedBytes' := uploadedBytes s + delta in
    {| cursor := cursor s;
       uploadedBytes := uploadedBytes';
       uploadProgress :=
         {| active := active (uploadProgress s);
            percent := percentOf uploadedBytes' (totalBytes files);
            current := current (uploadProgress s);
            index := index (uploadProgress s);
            total := total (uploadProgress s) |};
       uploadErrors := uploadErrors s;
       workers := setWorker w (Uploading idx loaded) (workers s);
       attempts := attempts s;
       reported := JS.updateAt idx (fun _ => loaded) (reported s);
       outcomes := outcomes s |}.

(** The error lines an outcome adds: [onError] and the [catch] block of
    [uploadOne] each append one. *)
Definition errorLines (file : File.t) (outcome : option (string * bool)) : list string :=
  match outcome with
  | None => []
  | Some (message, viaOnError) =>
      let line := (File.name file ++ ": " ++ message)%string in
      if viaOnError then [line; line] else [line]
  end.

(** The transfer of worker [w] settles; [uploadOne] returns and the worker
    goes round its loop. *)
Definition onSettled (files : list File.t) (w idx : nat) (file : File.t)
  (outcome : option (string * bool)) (s : State) : State :=
  workerLoop files w
    {| cursor := cursor s;
       uploadedBytes := uploadedBytes s;
       uploadProgress := uploadProgress s;
       uploadErrors := uploadErrors s ++ errorLines file outcome;
       workers := workers s;
       attempts := attempts s;
       reported := reported s;
       outcomes := outcomes s ++ [(idx, match outcome with
                                        | None => true
                                        | Some _ => false
                                        end)] |}.

(** One event of the transfer worker [w] is suspended on; [None] when [w]
    has no transfer in flight. *)
Definition step (files : list File.t) (s : State) (e : nat * XhrEvent) : option State :=
  let '(w, ev) := e in
  match nth_error (workers s) w with
  | Some (Uploading idx lastLoaded) =>
      match nth_error files idx with
      | Some file =>
          match ev, settles ev with
          | Progress lengthComputable loaded, _ =>
              Some (onProgress files w idx lastLoaded lengthComputable loaded s)
          | _, Some outcome => Some (onSettled files w idx file outcome s)
          | _, None => None
          end
      | None => None
      end
  | _ => None
  end.

Fixpoint run (files : list File.t) (s : State) (events : list (nat * XhrEvent))
  : option State :=
  match events with
  | [] => Some s
  | e :: rest =>
      match step files s e with
      | Some s' => run files s' rest
      | None => None
      end
  end.

(** Transfers in flight. *)
Definition inFlight (s : State) : nat :=
  List.length (filter (fun x => match x with Uploading _ _ => true | Returned => false end)
                 (workers s)).

(** [Promise.all(workers)] has resolved. *)
Definition settled (s : State) : Prop :=
  Forall (fun x => x = Returned) (workers s).

(** The files whose upload was rejected. *)
Definition failed (s : State) : list nat :=
  map fst (filter (fun o => negb (snd o)) (outcomes s)).

Definition sumZ (l : list Z) : Z := fold_right Z.add 0 l.

(** A progress event that reports no more than the declared size of the
    file it belongs to. *)
Definition withinSize (files : list File.t) (s : State) (e : nat * XhrEvent) : Prop :=
  match e with
  | (w, Progress true loaded) =>
      match nth_error (workers s) w with
      | Some (Uploading idx _) =>
          match nth_error files idx with
          | Some file => loaded <= Z.of_N (File.size file)
          | None => True
          end
      | _ => True
      end
  | _ => True
  end.

Fixpoint withinSizes (files : list File.t) (s : State) (events : list (nat * XhrEvent))
  : Prop :=
  match events with
  | [] => True
  | e :: rest =>
      withinSize files s e
      /\ match step files s e with
         | Some s' => withinSizes files s' rest
         | None => True
         end
  end.

End Upload.

(** ** ColorClusterer *)
Module Colors.

(** What [parseHexColor] returns for an accepted value. *)
Record Swatch := mkSwatch {
  sampleR : Z;
  sampleG : Z;
  sampleB : Z;
  sampleHex : string
}.

(** An element of [groups]: the running centroid, its text and the number
    of swatches merged so far. *)
Record Group := mkGroup {
  r : Z;
  g : Z;
  b : Z;
  count : Z;
  hex : string
}.

Definition parseHexColor (value : string) : option Swatch :=
  let normalized := JS.removeFirst "#" (JS.trim value) in
  if negb (String.length normalized =? 6)%nat then None
  else
    match JS.parseInt16 (JS.slice 0 2 normalized),
          JS.parseInt16 (JS.slice 2 4 normalized),
          JS.parseInt16 (JS.slice 4 6 normalized) with
    | Some r, Some g, Some b =>
        Some {| sampleR := r; sampleG := g; sampleB := b;
                sampleHex := String "#" (JS.toLowerCase normalized) |}
    | _, _, _ => None
    end.

(** The radicand of [colorDistance]. *)
Definition distanceSquared (group : Group) (rgb : Swatch) : Z :=
  (r group - sampleR rgb) ^ 2 + (g group - sampleG rgb) ^ 2 + (b group - sampleB rgb) ^ 2.

Definition threshold : Z := 28.

(** [colorDistance(group, rgb) <= threshold]. *)
Definition withinThreshold (rgb : Swatch) (group : Group) : bool :=
  distanceSquared group rgb <=? threshold * threshold.

(** [n.toString(16).padStart(2, "0")]. *)
Definition toHex (n : Z) : string := JS.padStart 2 "0" (JS.toString16 n).

(** The in-place update of [found]. *)
Definition merge (rgb : Swatch) (found : Group) : Group :=
  let count' := count found + 1 in
  let r' := JS.roundDiv (r found * (count' - 1) + sampleR rgb) count' in
  let g' := JS.roundDiv (g found * (count' - 1) + sampleG rgb) count' in
  let b' := JS.roundDiv (b found * (count' - 1) + sampleB rgb) count' in
  {| r := r'; g := g'; b := b'; count := count';
     hex := String "#" (toHex r' ++ toHex g' ++ toHex b') |}.

Definition singleton (rgb : Swatch) : Group :=
  {| r := sampleR rgb; g := sampleG rgb; b := sampleB rgb; count := 1;
     hex := sampleHex rgb |}.

(** The body of the inner [forEach] for an accepted swatch. *)
Definition addSwatch (groups : list Group) (rgb : Swatch) : list Group :=
  match JS.findIndex (withinThreshold rgb) groups with
  | None => groups ++ [singleton rgb]
  | Some i => JS.updateAt i (merge rgb) groups
  end.

Definition addColor (groups : list Group) (color : string) : list Group :=
  match parseHexColor color with
  | None => groups
  | Some rgb => addSwatch groups rgb
  end.

Definition colorsOf (asset : Asset.t) : list string :=
  match Asset.colors asset with
  | Some l => l
  | None => []
  end.

(** [groups] when both [forEach] loops are done. *)
Definition cluster (data : list Asset.t) : list Group :=
  fold_left (fun groups asset => fold_left addColor (colorsOf asset) groups) data [].

Definition buildColorGroups (data : list Asset.t) : list Group :=
  JS.sort (fun a b => count b - count a) (cluster data).

End Colors.

(** ** FacetFilterEngine: the format dimension *)
Module Formats.

(** The [filters] object: its own properties in insertion order. *)
Definition Filters : Type := list (string * string).

Definition lookup (key : string) (filters : Filters) : option string :=
  option_map snd (find (fun kv => String.eqb (fst kv) key) filters).

(** [delete filters[key]] on a copy. *)
Definition delete (key : string) (filters : Filters) : Filters :=
  filter (fun kv => negb (String.eqb (fst kv) key)) filters.

(** [!!filters[key]]. *)
Definition isActive (key : string) (filters : Filters) : bool :=
  match lookup key filters with
  | Some v => negb (String.eqb v "")
  | None => false
  end.

Section Facet.
(** The collation of the host and the backend's answer to a query. *)
Variable localeCompare : string -> string -> Z.
Variable fetchAssets : Filters -> Promise (list Asset.t).

(** The keys of [map] after the [forEach]. *)
Definition formatKeys (data : list Asset.t) : list string :=
  fold_left
    (fun map asset =>
       let value := match Asset.format asset with
                    | Some s => JS.trim s
                    | None => ""
                    end in
       if String.eqb value "" then map
       else
         let key := JS.toLowerCase value in
         if existsb (String.eqb key) map then map else map ++ [key])
    data [].

Definition buildFormats (data : list Asset.t) : list string :=
  JS.sort localeCompare (formatKeys data).

(** [loadFormats]: the value handed to [setFormatOptions], or [None] when
    it is not called.  [active] is the flag as read after the awaited
    fetch. *)
Definition loadFormats (filters : Filters) (assets : list Asset.t) (active : bool)
  : option (list string) :=
  if negb (isActive "format" filters) then Some (buildFormats assets)
  else
    match fetchAssets (delete "format" filters) with
    | Fulfilled data => if active then Some (buildFormats data) else None
    | Rejected _ => if active then Some [] else None
    | Pending => None
    end.

End Facet.
End Formats.

(** ** Recently used values *)
Module Recent.

(** [[value, ...prev.filter((item) => item !== value)].slice(0, limit)]. *)
Definition touch (limit : nat) (value : string) (prev : list string) : list string :=
  firstn limit (value :: filter (fun item => negb (String.eqb item value)) prev).

(** The updater of [touchRecentTags]. *)
Definition touchRecentTags (tagName : string) (prev : list string) : list string :=
  touch 12 tagName prev.

(** [touchRecentAnnotation]: the list is left alone when the trimmed text
    is empty. *)
Definition touchRecentAnnotation (text : string) (prev : list string) : list string :=
  let value := JS.trim text in
  if String.eqb value "" then prev else touch 12 value prev.

(** [touchRecentColor]. *)
Definition touchRecentColor (color : string) (prev : list string) : list string :=
  let value := JS.toLowerCase color in
  if String.eqb value "" then prev else touch 5 value prev.

End Recent.

(** ** Filter selections *)
Module Selection.

(** [prev.includes(value) ? prev.filter((x) => x !== value) : [...prev, value]]. *)
Definition toggle (value : string) (prev : list string) : list string :=
  if existsb (String.eqb value) prev
  then filter (fun item => negb (String.eqb item value)) prev
  else prev ++ [value].

(** [{ ...current, [key]: value }]: an own property keeps its place, a new
    one goes last. *)
Definition assign (key value : string) (current : Formats.Filters) : Formats.Filters :=
  if existsb (fun kv => String.eqb (fst kv) key) current
  then map (fun kv => if String.eqb (fst kv) key then (fst kv, value) else kv) current
  else current ++ [(key, value)].

(** [toggleFormat] on the pair of [selectedFormats] and [filters]. *)
Definition toggleFormat (format : string) (state : list string * Formats.Filters)
  : list string * Formats.Filters :=
  let next := toggle format (fst state) in
  (next, assign "format" (JS.join "," next) (snd state)).

(** [toggleNote] on the pair of [selectedNotes] and [filters]. *)
Definition toggleNote (note : string) (state : list string * Formats.Filters)
  : list string * Formats.Filters :=
  let next := toggle note (fst state) in
  (next, assign "annotations" (JS.join "," next) (snd state)).

(** [toggleColor] on [selectedColors], [filters] and [recentColors]. *)
Definition toggleColor (color : string)
  (state : list string * Formats.Filters * list string)
  : list string * Formats.Filters * list string :=
  let '(selectedColors, filters, recentColors) := state in
  let normalized := JS.toLowerCase color in
  if String.eqb normalized "" then state
  else
    let next := toggle normalized selectedColors in
    (next, assign "color" (JS.join "," next) filters,
     Recent.touchRecentColor normalized recentColors).

End Selection.

(** ** The query of [fetchAssets] *)
Module Query.

(** [URLSearchParams.prototype.set]: the first pair of that name takes the
    value and the later ones go; without one the pair is appended. *)
Fixpoint set (key value : string) (qs : list (string * string)) : list (string * string) :=
  match qs with
  | [] => [(key, value)]
  | (k, v) :: rest =>
      if String.eqb k key
      then (k, value) :: filter (fun kv => negb (String.eqb (fst kv) key)) rest
      else (k, v) :: set key value rest
  end.

(** The pairs [qs] holds when [fetchAssets] serialises it: the entries of
    [params] in order, those with an empty value left out. *)
Definition queryEntries (params : Formats.Filters) : list (string * string) :=
  fold_left
    (fun qs kv => if String.eqb (snd kv) "" then qs else set (fst kv) (snd kv) qs)
    params [].

End Query.

(** ** Smart folders *)
Module SmartFolder.

(** [s.split(sep)] for a one-character separator. *)
Fixpoint split (sep : ascii) (s : string) : list string :=
  match s with
  | EmptyString => [EmptyString]
  | String c s' =>
      if Ascii.eqb c sep then EmptyString :: split sep s'
      else match split sep s' with
           | piece :: rest => String c piece :: rest
           | [] => [String c EmptyString]
           end
  end.

(** [query.tags ? query.tags.split(",").map((t) => t.trim()).filter(Boolean) : []]. *)
Definition smartTags (query : Formats.Filters) : list string :=
  match Formats.lookup "tags" query with
  | Some tags =>
      if String.eqb tags "" then []
      else filter (fun t => negb (String.eqb t "")) (map JS.trim (split "," tags))
  | None => []
  end.

Definition emptyForm : Formats.Filters :=
  [("q", ""); ("tags", ""); ("format", ""); ("media_type", ""); ("min_w", "");
   ("max_w", ""); ("min_h", ""); ("max_h", ""); ("color", "")].

(** What [handleSmartClick] installs. *)
Record Clicked := mkClicked {
  activeFolder : option Z;
  selectedTags : list string;
  form : Formats.Filters;
  filters : Formats.Filters
}.

(** [handleSmartClick] on the query of the item ([{}] when it has none). *)
Definition handleSmartClick (query : Formats.Filters) : Clicked :=
  {| activeFolder := None;
     selectedTags := smartTags query;
     form := fold_left (fun f kv => Selection.assign (fst kv) (snd kv) f) query emptyForm;
     filters := query |}.

(** The query [handleSaveSmart] stores, when it stores one: it needs a
    selected tag and a name. *)
Definition handleSaveSmart (selectedTags : list string) (name : string)
  : option Formats.Filters :=
  match selectedTags with
  | [] => None
  | _ :: _ => if String.eqb name "" then None else Some [("tags", JS.join "," selectedTags)]
  end.

End SmartFolder.

(** ** URLs *)
Module Urls.

(** [s.endsWith("/")]. *)
Fixpoint endsWithSlash (s : string) : bool :=
  match s with
  | EmptyString => false
  | String c EmptyString => Ascii.eqb c "/"
  | String _ s' => endsWithSlash s'
  end.

(** [s.slice(0, -1)]. *)
Fixpoint dropLast (s : string) : string :=
  match s with
  | EmptyString => EmptyString
  | String _ EmptyString => EmptyString
  | String c s' => String c (dropLast s')
  end.

Definition trimBase (base : string) : string :=
  if endsWithSlash base then dropLast base else base.

(** [mediaUrl], with [MEDIA_BASE] as a parameter. *)
Definition mediaUrl (MEDIA_BASE path : string) : string :=
  if String.eqb path "" then ""
  else if prefix "http" path then path
  else (trimBase MEDIA_BASE ++ path)%string.

Definition decimalChar (d : Z) : ascii := ascii_of_N (Z.to_N (48 + d)).

Fixpoint decimalDigits (fuel : nat) (n : Z) (acc : string) : string :=
  match fuel with
  | O => acc
  | S k =>
      let acc' := String (decimalChar (n mod 10)) acc in
      if n / 10 =? 0 then acc' else decimalDigits k (n / 10) acc'
  end.

(** [String(n)] on an integer. *)
Definition toStringZ (n : Z) : string :=
  if n <? 0
  then String "-" (decimalDigits (S (Z.to_nat (Z.log2 (- n)))) (- n) EmptyString)
  else decimalDigits (S (Z.to_nat (Z.log2 n))) n EmptyString.

(** [downloadUrl], with [API_BASE] as a parameter. *)
Definition downloadUrl (API_BASE : string) (assetId : Z) : string :=
  (trimBase API_BASE ++ "/assets/" ++ toStringZ assetId ++ "/download")%string.

End Urls.

(** ** The colour facet *)
Module ColorFacet.

(** [loadColors]: the value handed to [setColorGroups], or [None] when it
    is not called; [active] is the flag as read after the awaited fetch. *)
Definition loadColors (fetchAssets : Formats.Filters -> Promise (list Asset.t))
  (filters : Formats.Filters) (assets : list Asset.t) (active : bool)
  : option (list Colors.Group) :=
  if negb (Formats.isActive "color" filters) then Some (Colors.buildColorGroups assets)
  else
    match fetchAssets (Formats.delete "color" filters) with
    | Fulfilled data => if active then Some (Colors.buildColorGroups data) else None
    | Rejected _ => if active then Some [] else None
    | Pending => None
    end.

Definition filteredAllColors (colorGroups : list Colors.Group) (colorQuery : string)
  : list Colors.Group :=
  if String.eqb colorQuery "" then colorGroups
  else
    let needle := JS.toLowerCase colorQuery in
    filter (fun group => JS.includes (Colors.hex group) needle) colorGroups.

(** [filteredAllColors.slice(0, 15)]. *)
Definition topColors (filtered : list Colors.Group) : list Colors.Group :=
  firstn 15 filtered.

(** [Math.max(0, filteredAllColors.length - 15)]. *)
Definition extraColors (filtered : list Colors.Group) : Z :=
  Z.max 0 (Z.of_nat (List.length filtered) - 15).

End ColorFacet.

(** ** The upload request *)
Module Request.

(** What [meta] carries: [folder_id] (undefined without a folder), [tags]
    and [note]. *)
Record Meta := mkMeta {
  folder_id : option Z;
  tags : string;
  note : option string
}.

(** A field of the [FormData]: the file itself or a text. *)
Inductive Field : Type :=
| Blob (name : string) (file : File.t)
| Text (name : string) (value : string).

Definition optional (present : bool) (field : Field) : list Field :=
  if present then [field] else [].

(** The fields [uploadAssetWithProgress] appends, in order.  A number is
    truthy unless it is zero, a string unless it is empty. *)
Definition formFields (file : File.t) (meta : Meta) : list Field :=
  [Blob "file" file]
  ++ match File.relativePath file with
     | Some p =>
         optional (negb (String.eqb p "") && JS.includes p "/") (Text "relative_path" p)
     | None => []
     end
  ++ match folder_id meta with
     | Some id => optional (negb (id =? 0)) (Text "folder_id" (Urls.toStringZ id))
     | None => []
     end
  ++ optional (negb (String.eqb (tags meta) "")) (Text "tags" (tags meta))
  ++ match note meta with
     | Some n => optional (negb (String.eqb n "")) (Text "note" n)
     | None => []
     end.

End Request.

(** ** Highlighting a match *)
Module Highlight.

(** [highlightMatch] cuts [text] at a position found in its lower-cased
    copy, and lower-casing can change the number of code units (U+0130
    becomes two).  So here a string is the list of its UTF-16 code units,
    and [toLowerCase] is the host's function, taken as a parameter. *)
Definition Text : Type := list N.

Fixpoint startsWith (sub s : Text) : bool :=
  match sub, s with
  | [], _ => true
  | _ :: _, [] => false
  | c :: sub', d :: s' => (c =? d)%N && startsWith sub' s'
  end.

(** [s.indexOf(sub)]; [None] is -1. *)
Fixpoint indexOf (s sub : Text) : option nat :=
  if startsWith sub s then Some O
  else match s with
       | [] => None
       | _ :: s' => option_map S (indexOf s' sub)
       end.

(** [s.slice(i, j)] for [0 <= i <= j]; a position past the end counts as
    the end. *)
Definition slice (i j : nat) (s : Text) : Text := firstn (j - i) (skipn i s).

(** [s.slice(i)]. *)
Definition sliceFrom (i : nat) (s : Text) : Text := skipn i s.

(** What [highlightMatch] renders: the text as it is, or the text cut
    around the match. *)
Inductive Rendered : Type :=
| Plain (text : Text)
| Marked (before hit after : Text).

Definition highlightMatch (toLowerCase : Text -> Text) (text query : Text) : Rendered :=
  match query with
  | [] => Plain text
  | _ :: _ =>
      match indexOf (toLowerCase text) (toLowerCase query) with
      | None => Plain text
      | Some m =>
          Marked (slice 0 m text)
            (slice m (m + List.length query) text)
            (sliceFrom (m + List.length query) text)
      end
  end.

End Highlight.

(** ** Batch delete *)
Module BatchDelete.

(** [ids.indexOf(id)]; [None] is -1. *)
Fixpoint indexOf (id : Z) (ids : list Z) : option nat :=
  match ids with
  | [] => None
  | x :: rest => if x =? id then Some O else option_map S (indexOf id rest)
  end.

(** [Math.round((currentIndex / total) * 100)]. *)
Definition percentAt (currentIndex total : Z) : Z :=
  JS.Math_round
    (PrimFloat.mul (PrimFloat.div (JS.toNumber currentIndex) (JS.toNumber total))
       (JS.toNumber 100)).

Record DeleteProgress := mkProgress {
  active : bool;
  percent : Z;
  current : string;
  index : Z;
  total : nat
}.

(** The state the handler works on, and the ids [deleteAsset] has been
    called with so far.  [selected] is the asset open in the detail panel,
    by its id. *)
Record State := mkState {
  selectedIds : list Z;
  selectionMode : bool;
  selected : option Z;
  deleteProgress : DeleteProgress;
  requested : list Z
}.

(** The head of a round of the [for] loop: the progress update, and the
    call of [deleteAsset(id)]. *)
Definition announce (ids : list Z) (id : Z) (s : State) : State :=
  let currentIndex :=
    match indexOf id ids with
    | Some i => Z.of_nat i + 1
    | None => 0
    end in
  {| selectedIds := selectedIds s;
     selectionMode := selectionMode s;
     selected := selected s;
     deleteProgress :=
       {| active := active (deleteProgress s);
          percent := percentAt currentIndex (Z.of_nat (List.length ids));
          current := Urls.toStringZ id;
          index := currentIndex;
          total := total (deleteProgress s) |};
     requested := requested s ++ [id] |}.

(** The [for] loop: each deletion is awaited before the next begins, and a
    rejection leaves the loop. *)
Fixpoint deleteLoop (deleteAsset : Z -> Promise unit) (ids rest : list Z) (s : State)
  : State * Promise unit :=
  match rest with
  | [] => (s, Fulfilled tt)
  | id :: rest' =>
      match deleteAsset id with
      | Fulfilled _ => deleteLoop deleteAsset ids rest' (announce ids id s)
      | Rejected reason => (announce ids id s, Rejected reason)
      | Pending => (announce ids id s, Pending)
      end
  end.

(** [loadAssets] as the handler holds it, on the selection: [data] is
    what [fetchAssets(filters)] gave, [closure] the [selected] of the
    render the handler was created in.  With an asset open there it calls
    [setSelected(data.find((item) => item.id === selected.id) || null)],
    whatever has been selected since. *)
Definition reselect (closure : option Z) (data : list Asset.t) (current : option Z)
  : option Z :=
  match closure with
  | Some id => if existsb (fun item => Asset.id item =? id) data then Some id else None
  | None => current
  end.

(** [handleBatchDelete].  [confirmed] is the answer to the modal,
    [fetched] is what the [fetchAssets] of [loadAssets] settles to and
    [loadMeta] what the reload of the metadata settles to.  The result
    pairs the state the handler leaves behind with the way its promise
    settles: nothing catches a rejection, so the statements after the
    failing [await] do not run.  [loadAssets] runs after
    [setSelected(null)] and still sees the asset that was open. *)
Definition handleBatchDelete (deleteAsset : Z -> Promise unit)
  (fetched : Promise (list Asset.t)) (loadMeta : Promise unit) (confirmed : bool)
  (s : State) : State * Promise unit :=
  match selectedIds s with
  | [] => (s, Fulfilled tt)
  | _ :: _ =>
      if negb confirmed then (s, Fulfilled tt)
      else
        let ids := selectedIds s in
        let begun :=
          {| selectedIds := selectedIds s;
             selectionMode := selectionMode s;
             selected := selected s;
             deleteProgress :=
               {| active := true; percent := 0; current := ""; index := 0;
                  total := List.length ids |};
             requested := requested s |} in
        match deleteLoop deleteAsset ids ids begun with
        | (s', Fulfilled _) =>
            let cleared :=
              {| selectedIds := [];
                 selectionMode := false;
                 selected := None;
                 deleteProgress := deleteProgress s';
                 requested := requested s' |} in
            match fetched with
            | Fulfilled data =>
                let reloaded :=
                  {| selectedIds := [];
                     selectionMode := false;
                     selected := reselect (selected s) data None;
                     deleteProgress := deleteProgress s';
                     requested := requested s' |} in
                match loadMeta with
                | Fulfilled _ =>
                    ({| selectedIds := [];
                        selectionMode := false;
                        selected := reselect (selected s) data None;
                        deleteProgress :=
                          {| active := false; percent := 0; current := ""; index := 0;
                             total := 0 |};
                        requested := requested s' |}, Fulfilled tt)
                | Rejected reason => (reloaded, Rejected reason)
                | Pending => (reloaded, Pending)
                end
            | Rejected reason => (cleared, Rejected reason)
            | Pending => (cleared, Pending)
            end
        | (s', Rejected reason) => (s', Rejected reason)
        | (s', Pending) => (s', Pending)
        end
  end.

End BatchDelete.

(** ** [handleUploadFiles] from the selection to the start of the upload *)
Module Handler.

(** What the handler meets: the folder selected, what the fetch of its
    assets settles to, the answer to the duplicate modal ([Some true] is
    replace, [None] is no answer), the backend's reply to each deletion and
    to the reload of the metadata. *)
Record Host := mkHost {
  activeFolder : option Z;
  fetched : Promise (list Asset.t);
  answer : option bool;
  deleteAsset : Z -> Promise unit;
  loadMeta : Promise unit
}.

(** How far the handler gets: it returns at once, it alerts that no folder
    is selected, it rejects because the payload could not be read, it stays
    suspended on a promise that never settles, or it starts the upload,
    after deleting [deleted] and maybe showing an alert. *)
Inductive Outcome : Type :=
| NothingToUpload
| FolderMissing
| DropFailed (reason : string)
| Waiting (deleted : list Z)
| Uploads (deleted : list Z) (alert : option string) (s : Upload.State).

(** [for (const id of deleteIds) await deleteAsset(id)]. *)
Fixpoint deleteAll (deleteAsset : Z -> Promise unit) (ids deleted : list Z)
  : list Z * Promise unit :=
  match ids with
  | [] => (deleted, Fulfilled tt)
  | id :: rest =>
      match deleteAsset id with
      | Fulfilled _ => deleteAll deleteAsset rest (deleted ++ [id])
      | Rejected reason => (deleted, Rejected reason)
      | Pending => (deleted, Pending)
      end
  end.

(** [error.message || "检查重复文件失败"]. *)
Definition alertText (message : string) : string :=
  if String.eqb message "" then "检查重复文件失败" else message.

Definition handleUploadFiles (host : Host) (files : list File.t) : Outcome :=
  match files, activeFolder host with
  | [], _ => NothingToUpload
  | _ :: _, None => FolderMissing
  | _ :: _, Some _ =>
      match Duplicates.checkDuplicates files (fetched host) with
      | Duplicates.Bypassed => Uploads [] None (Upload.start files)
      | Duplicates.NoDuplicates => Uploads [] None (Upload.start files)
      | Duplicates.CheckFailed message =>
          Uploads [] (Some (alertText message)) (Upload.start files)
      | Duplicates.CheckStalled => Waiting []
      | Duplicates.Prompted _ _ ids =>
          match answer host with
          | None => Waiting []
          | Some false => Uploads [] None (Upload.start files)
          | Some true =>
              let '(deleted, done) := deleteAll (deleteAsset host) ids [] in
              match andThen done (fun _ => loadMeta host) with
              | Fulfilled _ => Uploads deleted None (Upload.start files)
              | Rejected message =>
                  Uploads deleted (Some (alertText message)) (Upload.start files)
              | Pending => Waiting deleted
              end
          end
      end
  end.

(** [handleFileInput]. *)
Definition handleFileInput (host : Host) (files : list File.t) : Outcome :=
  handleUploadFiles host (map Collector.adoptWebkitPath files).

(** [handleDropUpload]. *)
Definition handleDropUpload (host : Host) (dataTransfer : Collector.DataTransfer)
  : Outcome :=
  match activeFolder host with
  | None => FolderMissing
  | Some _ =>
      match Collector.getFilesFromDataTransfer dataTransfer with
      | Fulfilled files => handleUploadFiles host files
      | Rejected reason => DropFailed reason
      | Pending => Waiting []
      end
  end.

End Handler.

(** ** Sample inputs used to exercise the statements *)
Module Sample.
Import Collector.

Definition fileA : File.t := File.mk "a.jpg" 100 "" None.
Definition fileB : File.t := File.mk "b.png" 200 "" None.
Definition fileC : File.t := File.mk "c.gif" 300 "" None.

Definition entryA : Entry := FileEntry "a.jpg" (Readable fileA).
Definition entryB : Entry := FileEntry "b.png" (Readable fileB).
Definition entryC : Entry := FileEntry "c.gif" (Readable fileC).

(** photos/{a.jpg, raw/{b.png}, c.gif}, listed in two batches. *)
Definition photos : Entry :=
  DirectoryEntry "photos"
    [Some [entryA; DirectoryEntry "raw" [Some [entryB]; Some []]];
     Some [entryC];
     Some []].

(** A directory whose first child cannot be read. *)
Definition damaged : Entry :=
  DirectoryEntry "d" [Some [FileEntry "a.jpg" (Unreadable "NotReadableError"); entryB]].

(** A directory whose second read fails. *)
Definition broken : Entry :=
  DirectoryEntry "d" [Some [entryA]; None].

Definition drop (entry : Entry) : DataTransfer :=
  {| files := []; items := [mkItem true (Some entry) None] |}.

End Sample.

(** ** Sample batches *)
Module SampleBatch.
Import Upload.

Definition fileD : File.t := File.mk "d.mp4" 400 "" None.

(** Three files of 100, 200 and 300 bytes, and a fourth that has to wait
    for a free worker. *)
Definition batch : list File.t := [Sample.fileA; Sample.fileB; Sample.fileC; fileD].

(** Progress on the first two files, then each transfer ends: one succeeds,
    one fails on the network, one is refused by the server, and the last
    one answers with a body that is not JSON. *)
Definition events : list (nat * XhrEvent) :=
  [(0%nat, Progress true 50); (1%nat, Progress true 200); (1%nat, Load 201 None);
   (0%nat, NetworkError); (2%nat, Load 500 None); (1%nat, Load 200 (Some "Unexpected token"))].

Definition small : list File.t := [File.mk "s.txt" 3 "" None].

End SampleBatch.

(** ** Sample assets *)
Module SampleAssets.

Definition existingA : Asset.t := Asset.mk 7 (Some "A.JPG") (Some ["#000000"; "#020202"]) (Some " JPG ").
Definition existingC : Asset.t := Asset.mk 9 (Some "c.gif") (Some ["#FFFFFF"]) (Some "gif").
Definition unnamed : Asset.t := Asset.mk 11 None None None.

Definition folder : list Asset.t := [existingA; existingC; unnamed].



End SampleAssets.

(** ** A sample collation: code-unit order *)
Module SampleCollation.

Definition compare (a b : string) : Z :=
  match String_as_OT.compare a b with
  | Lt => -1
  | Eq => 0
  | Gt => 1
  end.

(** A backend that knows three assets and ignores the query. *)
Definition backend (_ : Formats.Filters) : Promise (list Asset.t) :=
  Fulfilled SampleAssets.folder.

Definition filters : Formats.Filters := [("q", "cat"); ("format", "jpg"); ("color", "")].

End SampleCollation.

(** ** Sample swatches *)
Module SampleColors.
Import Colors.

Definition asset (swatches : list string) : Asset.t := Asset.mk 1 None (Some swatches) None.

Definition black : Swatch := mkSwatch 0 0 0 "#000000".
Definition nearBlack : Swatch := mkSwatch 2 2 2 "#020202".
Definition white : Swatch := mkSwatch 255 255 255 "#ffffff".

(** Two groups 29 apart, and a swatch 28 from the first and 1 from the
    second. *)
Definition origin : Group := mkGroup 0 0 0 1 "#000000".
Definition neighbour : Group := mkGroup 29 0 0 1 "#1d0000".
Definition between : Swatch := mkSwatch 28 0 0 "#1c0000".

End SampleColors.

(** ** Vocabulary of the statements *)

(** *** DirectoryCollector *)
Section CollectorVocabulary.
Import Collector.

(** On a readable entry the traversal appends the depth-first leaves. *)
Definition traversesTo (path : list string) (entry : Entry) : Prop :=
  forall files,
    readable entry = true ->
    traverseEntry entry files (segments path) = Fulfilled (files ++ flatten path entry).

(** An entry that is not readable never lets the traversal complete. *)
Definition neverCompletes (entry : Entry) : Prop :=
  readable entry = false ->
  forall files prefix out, traverseEntry entry files prefix <> Fulfilled out.

(** The file objects below [entry] as the platform hands them over, in
    depth-first order, each with the names of the directories that lead
    to it. *)
Fixpoint leaves (path : list string) (entry : Entry) : list (list string * File.t) :=
  match entry with
  | FileEntry _ (Readable file) => [(path, file)]
  | FileEntry _ (Unreadable _) => []
  | DirectoryEntry name reader => flatRead (leaves (path ++ [name])) reader
  | OtherEntry _ => []
  end.

(** [leaf] is the file object of [origin] after the collector has handled
    it: below a directory its [relativePath] is the directories' segments
    followed by its name, at the top level it is left alone; the other
    properties are those of the file. *)
Definition placed (leaf : File.t) (origin : list string * File.t) : Prop :=
  File.relativePath leaf
  = match fst origin with
    | [] => File.relativePath (snd origin)
    | _ :: _ => Some (segments (fst origin) ++ File.name (snd origin))%string
    end
  /\ File.name leaf = File.name (snd origin)
  /\ File.size leaf = File.size (snd origin)
  /\ File.webkitRelativePath leaf = File.webkitRelativePath (snd origin).

Section FirstFailure.
Context {A B : Type} (each : A -> option B).

(** The first result [each] gives on the elements of [l]. *)
Fixpoint firstOf (l : list A) : option B :=
  match l with
  | [] => None
  | x :: l' =>
      match each x with
      | Some b => Some b
      | None => firstOf l'
      end
  end.

(** The same over the children a reader yields before its first empty
    batch. *)
Fixpoint firstRead (reader : list (option (list A))) : option B :=
  match reader with
  | Some batch :: rest =>
      match batch with
      | [] => None
      | _ :: _ =>
          match firstOf batch with
          | Some b => Some b
          | None => firstRead rest
          end
      end
  | _ => None
  end.
End FirstFailure.

(** Every directory read reached below [entry] succeeds. *)
Fixpoint readsSucceed (entry : Entry) : bool :=
  match entry with
  | DirectoryEntry _ reader => allRead readsSucceed reader
  | _ => true
  end.

(** The error of the first file entry, in depth-first order, that cannot
    be materialised. *)
Fixpoint firstUnreadable (entry : Entry) : option string :=
  match entry with
  | FileEntry _ (Readable _) => None
  | FileEntry _ (Unreadable reason) => Some reason
  | DirectoryEntry _ reader => firstRead firstUnreadable reader
  | OtherEntry _ => None
  end.
End CollectorVocabulary.

(** *** UploadScheduler *)
(** Reduce the projections of an explicit state. *)
Ltac fields :=
  cbn [Upload.cursor Upload.uploadedBytes Upload.uploadProgress Upload.uploadErrors
       Upload.workers Upload.attempts Upload.reported Upload.outcomes Upload.inFlight] in *.

(** Case analysis on a slot of the three-element worker array. *)
Ltac slot w := destruct w as [|[|[|[|w]]]]; cbn in *; try discriminate.

Section UploadVocabulary.
Import Upload.

Definition isUploading (x : Worker) : bool :=
  match x with
  | Uploading _ _ => true
  | Returned => false
  end.

(** What holds of every state a run reaches. *)
Record Invariant (files : list File.t) (s : State) : Prop := {
  inv_workers : List.length (workers s) = concurrency;
  inv_cursor : (cursor s <= List.length files)%nat;
  inv_attempts : attempts s = seq 0 (cursor s);
  inv_reported : List.length (reported s) = List.length files;
  inv_claimed : forall w idx last,
      nth_error (workers s) w = Some (Uploading idx last) ->
      (idx < cursor s)%nat /\ nth_error (reported s) idx = Some last;
  inv_distinct : forall w1 w2 idx last1 last2,
      nth_error (workers s) w1 = Some (Uploading idx last1) ->
      nth_error (workers s) w2 = Some (Uploading idx last2) ->
      w1 = w2;
  inv_unclaimed : forall i,
      (cursor s <= i)%nat -> (i < List.length files)%nat ->
      nth_error (reported s) i = Some 0;
  inv_bytes : uploadedBytes s = sumZ (reported s);
  inv_returned : forall w,
      nth_error (workers s) w = Some Returned -> cursor s = List.length files;
  inv_settled : (List.length (outcomes s) + inFlight s = cursor s)%nat
}.

(** The declared sizes of a batch. *)
Definition sizes (files : list File.t) : list Z :=
  map (fun file => Z.of_N (File.size file)) files.

(** Every file has reported at most its declared size. *)
Definition Bounded (files : list File.t) (s : State) : Prop :=
  Forall2 (fun v file => v <= Z.of_N (File.size file)) (reported s) files.

(** The events on which a transfer fails, with the message of the error
    and the number of handlers that receive it: a network error and a
    reply outside 200..299 go to [onError] and to the [catch] of
    [uploadOne], a 2xx reply whose body is not JSON to the [catch] only. *)
Inductive failsWith : XhrEvent -> string -> nat -> Prop :=
| network_error : failsWith NetworkError "上传失败" 2%nat
| server_rejection (status : Z) (parseError : option string) :
    status < 200 \/ 300 <= status ->
    failsWith (Load status parseError) "上传失败" 2%nat
| unparsable_reply (status : Z) (message : string) :
    200 <= status < 300 ->
    failsWith (Load status (Some message)) message 1%nat.
End UploadVocabulary.

(** *** FacetFilterEngine *)
Section FormatVocabulary.
Import Formats.


End FormatVocabulary.

(** *** ColorClusterer *)
Section ColorVocabulary.
Import Colors.

(** The two-digit lower-case hexadecimal encoding of a channel. *)
Definition twoDigits (n : Z) : string :=
  String (JS.hexChar (n / 16)) (String (JS.hexChar (n mod 16)) EmptyString).

Definition isHexDigit (c : ascii) : bool :=
  match JS.hexDigit c with
  | Some _ => true
  | None => false
  end.

Fixpoint allHexDigits (s : string) : bool :=
  match s with
  | EmptyString => true
  | String c s' => isHexDigit c && allHexDigits s'
  end.

(** A swatch as the backend writes it: six hexadecimal digits, possibly
    after a [#] and inside white space. *)
Definition sixHexDigits (value : string) : bool :=
  let normalized := JS.removeFirst "#" (JS.trim value) in
  (String.length normalized =? 6)%nat && allHexDigits normalized.

(** The channels are bytes and [hex] is their encoding. *)
Definition encoded (group : Group) : Prop :=
  0 <= r group <= 255 /\ 0 <= g group <= 255 /\ 0 <= b group <= 255
  /\ 1 <= count group
  /\ hex group = String "#" (twoDigits (r group) ++ twoDigits (g group) ++ twoDigits (b group)).

Definition allAscii : list ascii := map ascii_of_nat (seq 0 256).

(** The check behind [parseInt16_pair], run on all pairs of code units. *)
Definition checkPair (c1 c2 : ascii) : bool :=
  if isHexDigit c1 && isHexDigit c2
  then match JS.parseInt16 (String c1 (String c2 EmptyString)) with
       | Some v =>
           (0 <=? v) && (v <=? 255)
           && String.eqb (twoDigits v)
                (String (JS.lowerChar c1) (String (JS.lowerChar c2) EmptyString))
       | None => false
       end
  else true.
End ColorVocabulary.

(** *** The handlers *)
(** Hosts to run the handler on. *)
Module SampleHost.

(** The folder holds [SampleAssets.folder], the user answers replace, and
    every request succeeds. *)
Definition replacing : Handler.Host :=
  {| Handler.activeFolder := Some 1;
     Handler.fetched := Fulfilled SampleAssets.folder;
     Handler.answer := Some true;
     Handler.deleteAsset := fun _ => Fulfilled tt;
     Handler.loadMeta := Fulfilled tt |}.
End SampleHost.


(** *** The query, the colour totals and the batch delete *)
Section QueryVocabulary.
(** A pair whose value is truthy. *)
Definition nonEmptyValue (kv : string * string) : bool := negb (String.eqb (snd kv) "").
End QueryVocabulary.

Section ColorTotalsVocabulary.
Import Colors.

(** The swatches [parseHexColor] accepts, in the order they are met. *)
Definition acceptedOf (colors : list string) : list Swatch :=
  flat_map (fun color => match parseHexColor color with
                         | Some rgb => [rgb]
                         | None => []
                         end) colors.

Definition accepted (data : list Asset.t) : list Swatch :=
  flat_map (fun asset => acceptedOf (colorsOf asset)) data.

(** The sum of the counts of the groups. *)
Definition totalCount (groups : list Group) : Z :=
  fold_right (fun group sum => count group + sum) 0 groups.
End ColorTotalsVocabulary.

Section BatchDeleteVocabulary.
Import BatchDelete.

(** The rounds of the loop over [done], every deletion of which succeeds. *)
Definition announced (ids done : list Z) (s : State) : State :=
  fold_left (fun s id => announce ids id s) done s.
End BatchDeleteVocabulary.

(** *** Texts to highlight *)
Module SampleText.

(** Lower-casing of one code unit, for the units it maps to one unit: the
    basic Latin capitals. *)
Definition lowerUnit (c : N) : N :=
  if ((65 <=? c) && (c <=? 90))%N then (c + 32)%N else c.

(** A lowering that knows the basic Latin capitals and U+0130, which
    becomes U+0069 U+0307. *)
Definition lower (s : Highlight.Text) : Highlight.Text :=
  flat_map (fun c => if (c =? 304)%N then [105%N; 775%N] else [lowerUnit c]) s.

Definition units (s : string) : Highlight.Text :=
  map N_of_ascii (list_ascii_of_string s).

Definition catPhotos : Highlight.Text := units "Cat Photos".
Definition pho : Highlight.Text := units "PHO".

(** U+0130 followed by [s]. *)
Definition dotted : Highlight.Text := [304%N; 115%N].

End SampleText.
(** * Properties *)

(** ** DirectoryCollector *)
Section CollectorFacts.
Import Collector.

(** Induction on entries that reaches the children inside the replies. *)
Section EntryInduction.
Variable P : Entry -> Prop.
Hypothesis file_case : forall name content, P (FileEntry name content).
Hypothesis other_case : forall name, P (OtherEntry name).
Hypothesis directory_case :
  forall name reader,
    Forall (fun reply => match reply with
                         | Some batch => Forall P batch
                         | None => True
                         end) reader ->
    P (DirectoryEntry name reader).

Fixpoint Entry_nested_ind (entry : Entry) : P entry :=
  match entry with
  | FileEntry name content => file_case name content
  | OtherEntry name => other_case name
  | DirectoryEntry name reader =>
      directory_case name reader
        ((fix replies (rs : list (option (list Entry))) :=
            match rs return Forall (fun reply => match reply with
                                                 | Some batch => Forall P batch
                                                 | None => True
                                                 end) rs with
            | [] => Forall_nil _
            | reply :: rs' =>
                Forall_cons reply
                  (match reply return match reply with
                                      | Some batch => Forall P batch
                                      | None => True
                                      end with
                   | Some batch =>
                       (fix children (cs : list Entry) : Forall P cs :=
                          match cs with
                          | [] => Forall_nil _
                          | c :: cs' => Forall_cons c (Entry_nested_ind c) (children cs')
                          end) batch
                   | None => I
                   end)
                  (replies rs')
            end) reader)
  end.
End EntryInduction.

Lemma andThen_assoc {A B C : Type} (p : Promise A) (k : A -> Promise B) (h : B -> Promise C) :
  andThen (andThen p k) h = andThen p (fun a => andThen (k a) h).
Proof. destruct p; reflexivity. Qed.

Lemma forEach_app {A B : Type} (body : A -> B -> Promise B) (l1 l2 : list A) (acc : B) :
  forEach body (l1 ++ l2) acc = andThen (forEach body l1 acc) (forEach body l2).
Proof.
  revert acc; induction l1 as [|x l1 IH]; intros acc; simpl.
  - reflexivity.
  - rewrite andThen_assoc. destruct (body x acc); simpl; auto.
Qed.

(** The loop of [readAllEntries], one [readEntries] call at a time. *)
Lemma readAllEntriesFrom_unfold (reader : Reader) (entries : list Entry) :
  readAllEntriesFrom reader entries =
  match readEntries reader with
  | (None, _) => Pending
  | (Some [], rest) => Fulfilled (entries, rest)
  | (Some batch, rest) => readAllEntriesFrom rest (entries ++ batch)
  end.
Proof. destruct reader as [|[[|c batch]|] rest]; reflexivity. Qed.

Lemma readAllEntriesFrom_batches (batches : list (list Entry)) (rest : Reader)
  (entries : list Entry) :
  Forall (fun batch => batch <> []) batches ->
  readAllEntriesFrom (map Some batches ++ Some [] :: rest) entries
  = Fulfilled (entries ++ List.concat batches, rest).
Proof.
  intros H; revert entries; induction H as [|batch batches Hb _ IH]; intros entries; simpl.
  - now rewrite app_nil_r.
  - destruct batch as [|c batch]; [congruence|].
    rewrite IH, app_assoc. reflexivity.
Qed.

Lemma readAllEntriesFrom_exhausted (batches : list (list Entry)) (entries : list Entry) :
  Forall (fun batch => batch <> []) batches ->
  readAllEntriesFrom (map Some batches) entries = Fulfilled (entries ++ List.concat batches, []).
Proof.
  intros H; revert entries; induction H as [|batch batches Hb _ IH]; intros entries; simpl.
  - now rewrite app_nil_r.
  - destruct batch as [|c batch]; [congruence|].
    rewrite IH, app_assoc. reflexivity.
Qed.

(** The children loop over the replies is the loop over the array that
    [readAllEntries] returns. *)
Lemma forEachRead_readAll {B : Type} (body : Entry -> B -> Promise B) (reader : Reader) :
  forall entries0 entries rest acc,
    readAllEntriesFrom reader entries0 = Fulfilled (entries, rest) ->
    exists tail, entries = entries0 ++ tail
                 /\ forEachRead body reader acc = forEach body tail acc.
Proof.
  induction reader as [|reply reader IH]; intros entries0 entries rest acc H; simpl in *.
  - inversion H; subst. exists []. now rewrite app_nil_r.
  - destruct reply as [[|c batch]|]; try discriminate.
    + inversion H; subst. exists []. now rewrite app_nil_r.
    + assert (Hall : forall acc', exists tail,
                 entries = (entries0 ++ c :: batch) ++ tail
                 /\ forEachRead body reader acc' = forEach body tail acc').
      { intros acc'. eapply IH; eauto. }
      destruct (Hall acc) as (tail & Heq & _).
      exists ((c :: batch) ++ tail). split.
      * now rewrite Heq, app_assoc.
      * rewrite forEach_app.
        destruct (forEach body (c :: batch) acc) as [acc'| |] eqn:E; simpl; auto.
        destruct (Hall acc') as (tail' & Heq' & Hrun).
        rewrite Heq in Heq'. apply app_inv_head in Heq'. subst tail'. exact Hrun.
Qed.

(** [traverseEntry] on a directory, as the source has it: read all the
    entries, then traverse each child with the extended prefix. *)
Lemma traverseEntry_directory (name : string) (reader : Reader) (files : list File.t)
  (prefix : string) :
  traverseEntry (DirectoryEntry name reader) files prefix =
  andThen (readAllEntries reader) (fun read =>
    forEach (fun child files => traverseEntry child files (prefix ++ name ++ "/"))
      (fst read) files).
Proof.
  simpl. unfold readAllEntries.
  destruct (readAllEntriesFrom reader []) as [[entries rest]| |] eqn:E; simpl; auto.
  destruct (forEachRead_readAll
              (fun child files => traverseEntry child files (prefix ++ name ++ "/"))
              reader [] entries rest files E) as (tail & Heq & Hrun).
  simpl in Heq. subst tail. exact Hrun.
Qed.

Lemma append_assoc (s1 s2 s3 : string) :
  ((s1 ++ s2) ++ s3 = s1 ++ (s2 ++ s3))%string.
Proof. induction s1 as [|c s1 IH]; simpl; [reflexivity | now rewrite IH]. Qed.

Lemma append_empty_r (s : string) : (s ++ "")%string = s.
Proof. induction s as [|c s IH]; simpl; [reflexivity | now rewrite IH]. Qed.

Lemma segments_app (path : list string) (name : string) :
  segments (path ++ [name]) = (segments path ++ name ++ "/")%string.
Proof.
  induction path as [|dir path IH]; simpl.
  - reflexivity.
  - now rewrite IH, !append_assoc.
Qed.

Lemma segments_nonempty (dir : string) (path : list string) :
  String.eqb (segments (dir :: path)) "" = false.
Proof. simpl. destruct dir; reflexivity. Qed.

(** The leaf case of [traverseEntry] builds [descriptor]. *)
Lemma leaf_descriptor (path : list string) (file : File.t) :
  (if String.eqb (segments path) "" then file
   else File.setRelativePath (segments path ++ File.name file) file)
  = descriptor path file.
Proof.
  destruct path as [|dir path]; [reflexivity|].
  rewrite segments_nonempty. reflexivity.
Qed.

Lemma allRead_readAllEntriesFrom {ok : Entry -> bool} (reader : Reader) :
  allRead ok reader = true ->
  forall entries, exists read, readAllEntriesFrom reader entries = Fulfilled read.
Proof.
  induction reader as [|reply reader IH]; intros H entries; simpl in *.
  - eauto.
  - destruct reply as [[|c batch]|]; try discriminate; eauto.
    apply andb_true_iff in H. destruct H as [_ H]. apply IH; assumption.
Qed.

Lemma forEach_traversesTo (path : list string) (batch : list Entry) :
  Forall (fun entry => forall path, traversesTo path entry) batch ->
  forallb readable batch = true ->
  forall files,
    forEach (fun child files => traverseEntry child files (segments path)) batch files
    = Fulfilled (files ++ flat_map (flatten path) batch).
Proof.
  induction 1 as [|c batch Hc _ IH]; intros Hok files; simpl in *.
  - now rewrite app_nil_r.
  - apply andb_true_iff in Hok. destruct Hok as [Hc' Hok].
    rewrite (Hc path files Hc'). simpl. rewrite (IH Hok). now rewrite <- app_assoc.
Qed.

Lemma forEachRead_traversesTo (path : list string) (reader : Reader) :
  Forall (fun reply => match reply with
                       | Some batch => Forall (fun entry => forall path, traversesTo path entry) batch
                       | None => True
                       end) reader ->
  allRead readable reader = true ->
  forall files,
    forEachRead (fun child files => traverseEntry child files (segments path)) reader files
    = Fulfilled (files ++ flatRead (flatten path) reader).
Proof.
  induction 1 as [|reply reader Hr _ IH]; intros Hok files.
  - simpl. now rewrite app_nil_r.
  - destruct reply as [[|c batch]|]; try discriminate.
    + simpl. now rewrite app_nil_r.
    + change (forallb readable (c :: batch) && allRead readable reader = true) in Hok.
      change (andThen
                (forEach (fun child files => traverseEntry child files (segments path))
                   (c :: batch) files)
                (forEachRead (fun child files => traverseEntry child files (segments path))
                   reader)
              = Fulfilled (files ++ flat_map (flatten path) (c :: batch)
                             ++ flatRead (flatten path) reader)).
      apply andb_true_iff in Hok. destruct Hok as [Hb Hok].
      rewrite (forEach_traversesTo path (c :: batch) Hr Hb files). simpl andThen.
      rewrite (IH Hok). now rewrite <- app_assoc.
Qed.

Lemma traverseEntry_readable (entry : Entry) : forall path, traversesTo path entry.
Proof.
  induction entry as [name content|name|name reader IH] using Entry_nested_ind;
    intros path files Hok.
  - destruct content as [file|reason]; [|discriminate].
    simpl. now rewrite leaf_descriptor.
  - simpl. now rewrite app_nil_r.
  - simpl in Hok. simpl traverseEntry. unfold readAllEntries.
    destruct (allRead_readAllEntriesFrom reader Hok []) as [read Hread].
    rewrite Hread. simpl andThen.
    rewrite <- segments_app.
    now apply forEachRead_traversesTo.
Qed.

Lemma forEach_neverCompletes (prefix : string) (batch : list Entry) :
  Forall neverCompletes batch ->
  forallb readable batch = false ->
  forall files out,
    forEach (fun child files => traverseEntry child files prefix) batch files
    <> Fulfilled out.
Proof.
  induction 1 as [|c batch Hc _ IH]; intros Hbad files out; simpl in *.
  - discriminate.
  - destruct (readable c) eqn:Ec; simpl in Hbad.
    + destruct (traverseEntry c files prefix) as [files'| |]; simpl; try discriminate.
      now apply IH.
    + specialize (Hc Ec files prefix).
      destruct (traverseEntry c files prefix) as [files'| |]; simpl; try discriminate.
      exfalso. now apply (Hc files').
Qed.

Lemma forEachRead_neverCompletes (prefix : string) (reader : Reader) :
  Forall (fun reply => match reply with
                       | Some batch => Forall neverCompletes batch
                       | None => True
                       end) reader ->
  allRead readable reader = false ->
  forall entries files out,
    andThen (readAllEntriesFrom reader entries) (fun _ =>
      forEachRead (fun child files => traverseEntry child files prefix) reader files)
    <> Fulfilled out.
Proof.
  set (body := fun child files => traverseEntry child files prefix).
  induction 1 as [|reply reader Hr _ IH]; intros Hbad entries files out.
  - discriminate.
  - destruct reply as [[|c batch]|]; [discriminate| |simpl; discriminate].
    change (forallb readable (c :: batch) && allRead readable reader = false) in Hbad.
    change (andThen (readAllEntriesFrom reader (entries ++ c :: batch)) (fun _ =>
              andThen (forEach body (c :: batch) files) (forEachRead body reader))
            <> Fulfilled out).
    remember (forEach body (c :: batch) files) as res eqn:Ef.
    destruct (readAllEntriesFrom reader (entries ++ c :: batch)) as [read| |] eqn:Eread;
      [|simpl; discriminate..].
    destruct res as [files'| |]; [|simpl; discriminate..].
    simpl andThen.
    destruct (forallb readable (c :: batch)) eqn:Eb.
    + simpl in Hbad.
      specialize (IH Hbad (entries ++ c :: batch) files' out).
      rewrite Eread in IH. exact IH.
    + exfalso. symmetry in Ef.
      exact (forEach_neverCompletes prefix (c :: batch) Hr Eb files files' Ef).
Qed.

Lemma traverseEntry_unreadable (entry : Entry) : neverCompletes entry.
Proof.
  induction entry as [name content|name|name reader IH] using Entry_nested_ind;
    intros Hbad files prefix out.
  - destruct content as [file|reason]; [discriminate|]. simpl. discriminate.
  - discriminate.
  - simpl in Hbad. simpl traverseEntry. unfold readAllEntries.
    now apply forEachRead_neverCompletes.
Qed.
(** *** Where the leaves end up *)

Lemma flatRead_Forall2 {A B C : Type} (R : B -> C -> Prop)
  (f : A -> list B) (g : A -> list C) (reader : list (option (list A))) :
  Forall (fun reply => match reply with
                       | Some batch => Forall (fun x => Forall2 R (f x) (g x)) batch
                       | None => True
                       end) reader ->
  Forall2 R (flatRead f reader) (flatRead g reader).
Proof.
  induction 1 as [|reply reader Hr _ IH]; [constructor|].
  destruct reply as [[|x batch]|]; try constructor.
  change (Forall2 R (flat_map f (x :: batch) ++ flatRead f reader)
            (flat_map g (x :: batch) ++ flatRead g reader)).
  apply Forall2_app; [|exact IH].
  clear IH. induction Hr as [|y l Hy _ IHl]; [constructor|].
  cbn [flat_map]. now apply Forall2_app.
Qed.

(** The descriptors the traversal is meant to produce are the file
    objects of the tree, each with its path. *)
Lemma flatten_placed (entry : Entry) :
  forall path, Forall2 placed (flatten path entry) (leaves path entry).
Proof.
  induction entry as [name content|name|name reader IH] using Entry_nested_ind;
    intros path.
  - destruct content as [file|reason]; [|constructor].
    cbn [flatten leaves]. constructor; [|constructor].
    destruct path; repeat split.
  - constructor.
  - cbn [flatten leaves]. apply flatRead_Forall2.
    eapply Forall_impl; [|exact IH]. intros [batch|] H; [|exact I].
    eapply Forall_impl; [|exact H]. intros child Hchild. apply Hchild.
Qed.

(** *** The first file that cannot be materialised *)

Lemma forEach_outcome (path : list string) (batch : list Entry) :
  Forall (fun entry =>
            forall path files,
              readsSucceed entry = true ->
              match firstUnreadable entry with
              | Some reason => traverseEntry entry files (segments path) = Rejected reason
              | None => readable entry = true
              end) batch ->
  forallb readsSucceed batch = true ->
  forall files,
    match firstOf firstUnreadable batch with
    | Some reason =>
        forEach (fun child files => traverseEntry child files (segments path)) batch files
        = Rejected reason
    | None => forallb readable batch = true
    end.
Proof.
  induction 1 as [|c batch Hc _ IH]; intros Hreads files; [reflexivity|].
  cbn [forallb] in Hreads. apply andb_true_iff in Hreads. destruct Hreads as [Hr Hreads].
  specialize (Hc path files Hr). cbn [firstOf forEach forallb].
  destruct (firstUnreadable c) as [reason|].
  - now rewrite Hc.
  - rewrite Hc, (traverseEntry_readable c path files Hc). cbn [andThen andb].
    apply IH. exact Hreads.
Qed.

Lemma forEachRead_outcome (path : list string) (reader : Reader) :
  Forall (fun reply =>
            match reply with
            | Some batch =>
                Forall (fun entry =>
                          forall path files,
                            readsSucceed entry = true ->
                            match firstUnreadable entry with
                            | Some reason =>
                                traverseEntry entry files (segments path) = Rejected reason
                            | None => readable entry = true
                            end) batch
            | None => True
            end) reader ->
  allRead readsSucceed reader = true ->
  forall files,
    match firstRead firstUnreadable reader with
    | Some reason =>
        forEachRead (fun child files => traverseEntry child files (segments path))
          reader files
        = Rejected reason
    | None => allRead readable reader = true
    end.
Proof.
  set (body := fun child files => traverseEntry child files (segments path)).
  induction 1 as [|reply reader Hr _ IH]; intros Hreads files; [reflexivity|].
  destruct reply as [[|c batch]|]; [reflexivity| |discriminate].
  change (forallb readsSucceed (c :: batch) && allRead readsSucceed reader = true)
    in Hreads.
  apply andb_true_iff in Hreads. destruct Hreads as [Hb Hreads].
  pose proof (forEach_outcome path (c :: batch) Hr Hb files) as Hbatch.
  change (match
            match firstOf firstUnreadable (c :: batch) with
            | Some reason => Some reason
            | None => firstRead firstUnreadable reader
            end
          with
          | Some reason =>
              andThen (forEach body (c :: batch) files) (forEachRead body reader)
              = Rejected reason
          | None => forallb readable (c :: batch) && allRead readable reader = true
          end).
  destruct (firstOf firstUnreadable (c :: batch)) as [reason|].
  - fold body in Hbatch. now rewrite Hbatch.
  - rewrite Hbatch. cbn [andb].
    pose proof (forEach_traversesTo path (c :: batch)) as Hdone.
    fold body in Hdone. rewrite Hdone; [|clear; induction (c :: batch); constructor;
      [intros p; apply traverseEntry_readable | assumption] | exact Hbatch].
    cbn [andThen]. apply IH. exact Hreads.
Qed.

(** While the reads succeed, the traversal is rejected by the first
    unreadable file, and every file is readable when there is none. *)
Lemma traverseEntry_outcome (entry : Entry) :
  forall path files,
    readsSucceed entry = true ->
    match firstUnreadable entry with
    | Some reason => traverseEntry entry files (segments path) = Rejected reason
    | None => readable entry = true
    end.
Proof.
  induction entry as [name content|name|name reader IH] using Entry_nested_ind;
    intros path files Hreads.
  - destruct content as [file|reason]; reflexivity.
  - reflexivity.
  - cbn [readsSucceed] in Hreads. cbn [firstUnreadable readable].
    pose proof (forEachRead_outcome (path ++ [name]) reader IH Hreads files) as H.
    destruct (firstRead firstUnreadable reader) as [reason|]; [|exact H].
    cbn [traverseEntry]. unfold readAllEntries.
    destruct (allRead_readAllEntriesFrom reader Hreads []) as [read Hread].
    rewrite Hread. cbn [andThen]. rewrite <- segments_app. exact H.
Qed.


End CollectorFacts.

Section CollectorClaims.
Import Collector.

(** C6.  [readAllEntries] keeps calling the reader, accumulating every
    non-empty batch, and leaves the loop on the first empty batch; a
    directory is traversed by reading all its entries and then traversing
    each child in order with the prefix extended by ["name/"]; on a
    readable tree the result is the depth-first sequence of leaves: the
    file objects of the tree in the order the platform lists them, where
    each one reached below directories has as [relativePath] the
    accumulated segments followed by its own name, and keeps its name, its
    size and its [webkitRelativePath]. *)
Theorem collector_reads_until_empty_depth_first :
  (forall batches rest,
      Forall (fun batch => batch <> []) batches ->
      readAllEntries (map Some batches ++ Some [] :: rest)
      = Fulfilled (List.concat batches, rest))
  /\ (forall name reader files prefix,
         traverseEntry (DirectoryEntry name reader) files prefix
         = andThen (readAllEntries reader) (fun read =>
             forEach (fun child files => traverseEntry child files (prefix ++ name ++ "/"))
               (fst read) files))
  /\ (forall entry path files,
         readable entry = true ->
         traverseEntry entry files (segments path) = Fulfilled (files ++ flatten path entry))
  /\ (forall entry path files,
         readable entry = true ->
         exists added,
           traverseEntry entry files (segments path) = Fulfilled (files ++ added)
           /\ Forall2 placed added (leaves path entry))
  /\ (forall name file dir path files,
         exists leaf,
           traverseEntry (FileEntry name (Readable file)) files (segments (dir :: path))
           = Fulfilled (files ++ [leaf])
           /\ File.relativePath leaf
              = Some (segments (dir :: path) ++ File.name file)%string
           /\ File.name leaf = File.name file
           /\ File.size leaf = File.size file
           /\ File.webkitRelativePath leaf = File.webkitRelativePath file).
Proof.
  split; [|split; [|split; [|split]]].
  - intros batches rest H. unfold readAllEntries.
    now rewrite readAllEntriesFrom_batches.
  - apply traverseEntry_directory.
  - intros entry path files H. now apply traverseEntry_readable.
  - intros entry path files H. exists (flatten path entry).
    split; [now apply traverseEntry_readable | apply flatten_placed].
  - intros name file dir path files.
    pose proof (traverseEntry_readable (FileEntry name (Readable file)) (dir :: path)
                  files eq_refl) as Hrun.
    pose proof (flatten_placed (FileEntry name (Readable file)) (dir :: path)) as Hleaf.
    cbn [flatten leaves] in Hrun, Hleaf.
    exists (descriptor (dir :: path) file). split; [exact Hrun|].
    inversion Hleaf as [|leaf origin ? ? Hplaced _]; subst. exact Hplaced.
Qed.

Lemma collector_reads_until_empty_depth_first_witness :
  readAllEntries [Some [Sample.entryA]; Some [Sample.entryB]; Some []; Some [Sample.entryC]]
  = Fulfilled ([Sample.entryA; Sample.entryB], [Some [Sample.entryC]])
  /\ exists out,
       traverseEntry Sample.photos [] "" = Fulfilled out
       /\ map File.relativePath out
          = [Some "photos/a.jpg"; Some "photos/raw/b.png"; Some "photos/c.gif"]
       /\ map File.name out = ["a.jpg"; "b.png"; "c.gif"].
Proof.
  split.
  - apply (proj1 collector_reads_until_empty_depth_first
             [[Sample.entryA]; [Sample.entryB]] [Some [Sample.entryC]]).
    repeat constructor; discriminate.
  - destruct (proj1 (proj2 (proj2 (proj2 collector_reads_until_empty_depth_first)))
                Sample.photos [] [] eq_refl) as (out & Hrun & Hplaced).
    exists out. split; [exact Hrun|].
    vm_compute in Hplaced.
    inversion Hplaced as [|leafA ? outA ? (HpA & HnA & _) HrestA]; subst.
    inversion HrestA as [|leafB ? outB ? (HpB & HnB & _) HrestB]; subst.
    inversion HrestB as [|leafC ? outC ? (HpC & HnC & _) HrestC]; subst.
    inversion HrestC; subst.
    split.
    + exact (f_equal2 cons HpA (f_equal2 cons HpB (f_equal2 cons HpC eq_refl))).
    + exact (f_equal2 cons HnA (f_equal2 cons HnB (f_equal2 cons HnC eq_refl))).
Defined.

(** C8 as stated fails: an unreadable file entry rejects the whole
    collection, and a failed directory read leaves it pending; the readable
    siblings are not delivered. *)
Lemma unreadable_entry_fails_collection :
  getFilesFromDataTransfer (Sample.drop Sample.damaged) = Rejected "NotReadableError"
  /\ getFilesFromDataTransfer (Sample.drop Sample.damaged)
     <> Fulfilled [File.setRelativePath "d/b.png" Sample.fileB]
  /\ getFilesFromDataTransfer (Sample.drop Sample.broken) = Pending
  /\ getFilesFromDataTransfer (Sample.drop Sample.broken)
     <> Fulfilled [File.setRelativePath "d/a.jpg" Sample.fileA].
Proof. repeat split; try reflexivity; discriminate. Qed.

(** C8, amended.  An entry that is neither a file nor a directory is
    skipped and the traversal goes on.  While every directory read
    succeeds, the traversal of an entry completes exactly when every file
    reached can be materialised, and it then holds the descriptors of all
    leaves; a file that cannot be materialised is not skipped: the first
    one reached rejects the traversal with its error. *)
Theorem traverseEntry_completes_iff_readable (entry : Entry) (path : list string)
  (files : list File.t) :
  readsSucceed entry = true ->
  (forall name siblings,
      forEach (fun child files => traverseEntry child files (segments path))
        (OtherEntry name :: siblings) files
      = forEach (fun child files => traverseEntry child files (segments path))
          siblings files)
  /\ (firstUnreadable entry = None <->
      traverseEntry entry files (segments path) = Fulfilled (files ++ flatten path entry))
  /\ (forall out,
         traverseEntry entry files (segments path) = Fulfilled out ->
         firstUnreadable entry = None /\ out = files ++ flatten path entry)
  /\ (forall reason,
         firstUnreadable entry = Some reason <->
         traverseEntry entry files (segments path) = Rejected reason).
Proof.
  intros Hreads. pose proof (traverseEntry_outcome entry path files Hreads) as H.
  split; [reflexivity|].
  destruct (firstUnreadable entry) as [first|].
  - rewrite H. split; [split; discriminate|]. split; [discriminate|].
    intros reason. split; congruence.
  - pose proof (traverseEntry_readable entry path files H) as Hrun. rewrite Hrun.
    split; [split; reflexivity|]. split; [|split; discriminate].
    intros out Hout. split; congruence.
Qed.

Lemma traverseEntry_completes_iff_readable_witness :
  traverseEntry Sample.photos [] "" = Fulfilled (flatten [] Sample.photos)
  /\ traverseEntry Sample.damaged [] "" = Rejected "NotReadableError".
Proof.
  destruct (traverseEntry_completes_iff_readable Sample.photos [] [] eq_refl)
    as (_ & Hyes & _).
  destruct (traverseEntry_completes_iff_readable Sample.damaged [] [] eq_refl)
    as (_ & _ & _ & Hno).
  split.
  - exact (proj1 Hyes eq_refl).
  - exact (proj1 (Hno "NotReadableError") eq_refl).
Defined.

End CollectorClaims.

(** ** UploadScheduler *)

Section UploadFacts.
Import Upload.

Lemma nth_error_updateAt {A : Type} (f : A -> A) (l : list A) (i j : nat) :
  nth_error (JS.updateAt i f l) j
  = if Nat.eqb i j then option_map f (nth_error l j) else nth_error l j.
Proof.
  revert i j; induction l as [|x l IH]; intros i j; simpl.
  - destruct i, j; simpl; try reflexivity. now destruct (Nat.eqb i j).
  - destruct i, j; simpl; try reflexivity. apply IH.
Qed.

Lemma length_updateAt {A : Type} (f : A -> A) (l : list A) (i : nat) :
  List.length (JS.updateAt i f l) = List.length l.
Proof.
  revert i; induction l as [|x l IH]; intros i; destruct i; simpl; auto.
Qed.

Lemma sumZ_updateAt (l : list Z) (i : nat) (old v : Z) :
  nth_error l i = Some old ->
  sumZ (JS.updateAt i (fun _ => v) l) = sumZ l - old + v.
Proof.
  revert i; induction l as [|x l IH]; intros i H.
  - destruct i; discriminate.
  - destruct i; simpl in *.
    + inversion H; subst. lia.
    + rewrite (IH _ H). lia.
Qed.

Lemma inFlight_filter (s : State) :
  inFlight s = List.length (filter isUploading (workers s)).
Proof. reflexivity. Qed.

Lemma count_updateAt (l : list Worker) (w : nat) (old x : Worker) :
  nth_error l w = Some old ->
  (List.length (filter isUploading (JS.updateAt w (fun _ => x) l))
   + (if isUploading old then 1 else 0)
   = List.length (filter isUploading l) + (if isUploading x then 1 else 0))%nat.
Proof.
  revert w; induction l as [|y l IH]; intros w H.
  - destruct w; discriminate.
  - destruct w; simpl in *.
    + inversion H; subst. destruct (isUploading old), (isUploading x); simpl; lia.
    + specialize (IH _ H). destruct (isUploading y); simpl; lia.
Qed.

Lemma count_le_length (l : list Worker) :
  (List.length (filter isUploading l) <= List.length l)%nat.
Proof. induction l as [|y l IH]; simpl; [lia|]. destruct (isUploading y); simpl; lia. Qed.

Lemma count_zero_all_returned (l : list Worker) :
  List.length (filter isUploading l) = 0%nat <-> Forall (fun x => x = Returned) l.
Proof.
  induction l as [|y l IH]; simpl.
  - split; auto.
  - destruct y; simpl.
    + split; [discriminate|]. intros H. inversion H; discriminate.
    + rewrite IH. split; [constructor; auto|]. intros H; now inversion H.
Qed.

Lemma count_full_none_returned (l : list Worker) :
  List.length (filter isUploading l) = List.length l ->
  forall w, nth_error l w <> Some Returned.
Proof.
  induction l as [|y l IH]; intros H w.
  - destruct w; discriminate.
  - simpl in H. destruct y; simpl in H.
    + destruct w; simpl; [discriminate|]. apply IH. lia.
    + pose proof (count_le_length l). lia.
Qed.

Lemma seq_snoc (n : nat) : seq 0 (S n) = seq 0 n ++ [n].
Proof. now rewrite seq_S. Qed.

(** A worker that has a transfer in flight goes round its loop. *)
Lemma workerLoop_invariant (files : list File.t) (w : nat) (s : State)
  (idx : nat) (last : Z) :
  List.length (workers s) = concurrency ->
  (cursor s <= List.length files)%nat ->
  attempts s = seq 0 (cursor s) ->
  List.length (reported s) = List.length files ->
  nth_error (workers s) w = Some (Uploading idx last) ->
  (forall w' idx' last', w' <> w ->
      nth_error (workers s) w' = Some (Uploading idx' last') ->
      (idx' < cursor s)%nat /\ nth_error (reported s) idx' = Some last') ->
  (forall w1 w2 idx' last1 last2, w1 <> w -> w2 <> w ->
      nth_error (workers s) w1 = Some (Uploading idx' last1) ->
      nth_error (workers s) w2 = Some (Uploading idx' last2) -> w1 = w2) ->
  (forall i, (cursor s <= i)%nat -> (i < List.length files)%nat ->
             nth_error (reported s) i = Some 0) ->
  uploadedBytes s = sumZ (reported s) ->
  (forall w', nth_error (workers s) w' = Some Returned -> cursor s = List.length files) ->
  (List.length (outcomes s) + inFlight s = S (cursor s))%nat ->
  Invariant files (workerLoop files w s).
Proof.
  intros Hw Hc Ha Hr Hcur Hcl Hd Hu Hb Hret Hset.
  unfold workerLoop.
  destruct (nth_error files (cursor s)) as [file|] eqn:Efile.
  - assert (Hlt : (cursor s < List.length files)%nat)
      by (apply nth_error_Some; congruence).
    constructor; fields.
    + unfold setWorker. now rewrite length_updateAt.
    + lia.
    + now rewrite seq_snoc, Ha.
    + exact Hr.
    + intros w' idx' last' H. unfold setWorker in H. rewrite nth_error_updateAt in H.
      destruct (Nat.eqb_spec w w') as [E|Hne]; [subst w'|].
      * rewrite Hcur in H. simpl in H. inversion H; subst.
        split; [lia|]. apply Hu; lia.
      * destruct (Hcl w' idx' last' (not_eq_sym Hne) H). split; [lia|assumption].
    + intros w1 w2 idx' last1 last2 H1 H2. unfold setWorker in H1, H2.
      rewrite nth_error_updateAt in H1, H2.
      destruct (Nat.eqb_spec w w1) as [E1|Hne1], (Nat.eqb_spec w w2) as [E2|Hne2];
        try subst w1; try subst w2; auto.
      * rewrite Hcur in H1. simpl in H1. inversion H1; subst.
        destruct (Hcl w2 _ _ (not_eq_sym Hne2) H2). lia.
      * rewrite Hcur in H2. simpl in H2. inversion H2; subst.
        destruct (Hcl w1 _ _ (not_eq_sym Hne1) H1). lia.
      * eapply Hd; eauto.
    + intros i H1 H2. apply Hu; lia.
    + exact Hb.
    + intros w' H. unfold setWorker in H. rewrite nth_error_updateAt in H.
      destruct (Nat.eqb_spec w w') as [E|Hne]; [subst w'|].
      * rewrite Hcur in H. discriminate.
      * specialize (Hret w' H). lia.
    + unfold inFlight in *. fields. unfold setWorker.
      pose proof (count_updateAt (workers s) w _ (Uploading (cursor s) 0) Hcur) as Hn.
      simpl in Hn. fold isUploading in Hset |- *. lia.
  - assert (Hge : (List.length files <= cursor s)%nat) by now apply nth_error_None.
    constructor; fields; auto.
    + unfold setWorker. now rewrite length_updateAt.
    + intros w' idx' last' H. unfold setWorker in H. rewrite nth_error_updateAt in H.
      destruct (Nat.eqb_spec w w') as [E|Hne]; [subst w'|].
      * rewrite Hcur in H. discriminate.
      * apply (Hcl w' idx' last' (not_eq_sym Hne) H).
    + intros w1 w2 idx' last1 last2 H1 H2. unfold setWorker in H1, H2.
      rewrite nth_error_updateAt in H1, H2.
      destruct (Nat.eqb_spec w w1) as [E1|Hne1];
        [subst w1; rewrite Hcur in H1; discriminate|].
      destruct (Nat.eqb_spec w w2) as [E2|Hne2];
        [subst w2; rewrite Hcur in H2; discriminate|].
      eapply Hd; eauto.
    + intros w' H. lia.
    + unfold inFlight in *. fields. unfold setWorker.
      pose proof (count_updateAt (workers s) w _ Returned Hcur) as Hn.
      simpl in Hn. fold isUploading in Hset |- *. lia.
Qed.

Lemma sumZ_repeat_zero (n : nat) : sumZ (repeat 0 n) = 0.
Proof. induction n as [|n IH]; simpl; [reflexivity | now rewrite IH]. Qed.

Lemma nth_error_repeat_zero (n i : nat) :
  (i < n)%nat -> nth_error (repeat 0 n) i = Some 0.
Proof.
  revert i; induction n as [|n IH]; intros i H; [lia|].
  destruct i; simpl; [reflexivity | apply IH; lia].
Qed.

Lemma start_invariant (files : list File.t) : Invariant files (start files).
Proof.
  destruct files as [|a [|b [|c rest]]]; unfold start; cbn -[Z.add];
    constructor; fields; cbn -[Z.add seq sumZ].
  all: try reflexivity.
  all: try lia.
  all: try (intros w idx last H; slot w; inversion H; subst;
            (split; [lia | reflexivity])).
  all: try (intros w1 w2 idx last1 last2 H1 H2; slot w1; slot w2;
            inversion H1; subst; try discriminate; reflexivity).
  all: try (intros w H; slot w; fail).
  all: try (intros i H1 H2; lia).
  - now rewrite repeat_length.
  - intros i H1 H2. destruct i as [|[|[|i]]]; try lia. cbn.
    apply nth_error_repeat_zero. lia.
  - change (0 = sumZ (0 :: 0 :: 0 :: repeat 0 (List.length rest))).
    cbn [sumZ fold_right]. fold (sumZ (repeat 0 (List.length rest))).
    rewrite sumZ_repeat_zero. reflexivity.
Qed.

Lemma step_invariant (files : list File.t) (s s' : State) (e : nat * XhrEvent) :
  Invariant files s -> step files s e = Some s' -> Invariant files s'.
Proof.
  intros Inv Hstep. destruct e as [w ev]. unfold step in Hstep.
  destruct (nth_error (workers s) w) as [[idx last|]|] eqn:Ew; try discriminate.
  destruct (nth_error files idx) as [file|] eqn:Efile; try discriminate.
  destruct (inv_claimed _ _ Inv w idx last Ew) as [Hidx Hrep].
  assert (Hsettle : forall outcome, Invariant files (onSettled files w idx file outcome s)).
  { intros outcome. unfold onSettled.
    apply workerLoop_invariant with (idx := idx) (last := last); fields;
      try apply Inv; auto.
    - intros w' idx' last' _ H. exact (inv_claimed _ _ Inv w' idx' last' H).
    - intros w1 w2 idx' last1 last2 _ _. apply (inv_distinct _ _ Inv).
    - rewrite length_app. pose proof (inv_settled _ _ Inv). unfold inFlight in *. fields.
      simpl List.length. lia. }
  destruct ev as [lengthComputable loaded|status parseError|].
  - inversion Hstep; subst s'; clear Hstep. unfold onProgress.
    destruct lengthComputable; simpl negb; cbv iota; [|exact Inv].
    constructor; fields; try apply Inv.
    + unfold setWorker. rewrite length_updateAt. apply Inv.
    + rewrite length_updateAt. apply Inv.
    + intros w' idx' last' H. unfold setWorker in H. rewrite nth_error_updateAt in H.
      destruct (Nat.eqb_spec w w') as [E|Hne]; [subst w'|].
      * rewrite Ew in H. simpl in H. inversion H; subst. split; [assumption|].
        rewrite nth_error_updateAt, Nat.eqb_refl, Hrep. reflexivity.
      * destruct (inv_claimed _ _ Inv w' idx' last' H) as [H1 H2]. split; [assumption|].
        rewrite nth_error_updateAt.
        destruct (Nat.eqb_spec idx idx') as [E|Hni]; [subst idx'|assumption].
        exfalso. apply Hne. eapply (inv_distinct _ _ Inv); eauto.
    + intros w1 w2 idx' last1 last2 H1 H2. unfold setWorker in H1, H2.
      rewrite nth_error_updateAt in H1, H2.
      destruct (Nat.eqb_spec w w1) as [E1|Hne1], (Nat.eqb_spec w w2) as [E2|Hne2];
        try subst w1; try subst w2; auto.
      * rewrite Ew in H1. simpl in H1. inversion H1; subst.
        eapply (inv_distinct _ _ Inv); eauto.
      * rewrite Ew in H2. simpl in H2. inversion H2; subst.
        eapply (inv_distinct _ _ Inv); eauto.
      * eapply (inv_distinct _ _ Inv); eauto.
    + intros i H1 H2. rewrite nth_error_updateAt.
      destruct (Nat.eqb_spec idx i) as [E|Hni]; [lia|]. now apply (inv_unclaimed _ _ Inv).
    + rewrite (sumZ_updateAt _ _ _ _ Hrep), (inv_bytes _ _ Inv). lia.
    + intros w' H. unfold setWorker in H. rewrite nth_error_updateAt in H.
      destruct (Nat.eqb_spec w w') as [E|Hne]; [subst w'|].
      * rewrite Ew in H. discriminate.
      * exact (inv_returned _ _ Inv w' H).
    + pose proof (count_updateAt (workers s) w _ (Uploading idx loaded) Ew) as Hn.
      pose proof (inv_settled _ _ Inv) as Hs.
      unfold inFlight in *. fields. unfold setWorker.
      simpl in Hn. fold isUploading in Hs |- *. lia.
  - cbv beta iota in Hstep.
    destruct (settles (Load status parseError)) as [outcome|] eqn:Es;
      inversion Hstep; subst. apply Hsettle.
  - cbv beta iota in Hstep.
    destruct (settles NetworkError) as [outcome|] eqn:Es;
      inversion Hstep; subst. apply Hsettle.
Qed.

Lemma run_invariant (files : list File.t) (events : list (nat * XhrEvent)) :
  forall s s', Invariant files s -> run files s events = Some s' -> Invariant files s'.
Proof.
  induction events as [|e events IH]; intros s s' Inv H; simpl in H.
  - now inversion H; subst.
  - destruct (step files s e) as [s1|] eqn:E; [|discriminate].
    eapply IH; [|exact H]. eapply step_invariant; eauto.
Qed.

Lemma reachable_invariant (files : list File.t) (events : list (nat * XhrEvent)) (s : State) :
  run files (start files) events = Some s -> Invariant files s.
Proof. apply run_invariant, start_invariant. Qed.

Lemma run_app (files : list File.t) (events1 events2 : list (nat * XhrEvent)) (s : State) :
  run files s (events1 ++ events2)
  = match run files s events1 with
    | Some s1 => run files s1 events2
    | None => None
    end.
Proof.
  revert s; induction events1 as [|e events1 IH]; intros s; simpl; [reflexivity|].
  destruct (step files s e); auto.
Qed.

Lemma settled_no_transfer (files : list File.t) (s : State) :
  Invariant files s -> (settled s <-> inFlight s = 0%nat).
Proof. intros _. unfold settled, inFlight. symmetry. apply count_zero_all_returned. Qed.

Lemma settled_iff_outcomes (files : list File.t) (s : State) :
  Invariant files s ->
  (settled s <-> List.length (outcomes s) = List.length files).
Proof.
  intros Inv. rewrite (settled_no_transfer files s Inv).
  pose proof (inv_settled _ _ Inv) as Hs. pose proof (inv_cursor _ _ Inv) as Hc.
  split; intros H.
  - assert (Hret : nth_error (workers s) 0 = Some Returned).
    { apply (proj1 (count_zero_all_returned (workers s))) in H.
      pose proof (inv_workers _ _ Inv) as Hw.
      destruct (workers s) as [|x l]; [discriminate|].
      inversion H; subst. reflexivity. }
    pose proof (inv_returned _ _ Inv 0%nat Hret). lia.
  - lia.
Qed.

Lemma settled_cursor (files : list File.t) (s : State) :
  Invariant files s -> settled s -> cursor s = List.length files.
Proof.
  intros Inv H. pose proof (inv_settled _ _ Inv).
  apply (settled_iff_outcomes files s Inv) in H as Ho.
  apply (settled_no_transfer files s Inv) in H. lia.
Qed.

Lemma unsettled_has_transfer (l : list Worker) :
  List.length (filter isUploading l) <> 0%nat ->
  exists w idx last, nth_error l w = Some (Uploading idx last).
Proof.
  induction l as [|x l IH]; simpl; intros H; [congruence|].
  destruct x as [idx last|].
  - exists 0%nat, idx, last. reflexivity.
  - destruct (IH H) as (w & idx & last & Hw). exists (S w), idx, last. exact Hw.
Qed.

(** Answering the transfers in flight, one per remaining file, settles the
    run. *)
Lemma run_settles (files : list File.t) (k : nat) :
  forall s,
    Invariant files s ->
    (List.length files - List.length (outcomes s) = k)%nat ->
    exists events s',
      List.length events = k /\ run files s events = Some s' /\ settled s'.
Proof.
  induction k as [|k IH]; intros s Inv Hk.
  - exists [], s. repeat split.
    apply (settled_iff_outcomes files s Inv).
    pose proof (inv_settled _ _ Inv). pose proof (inv_cursor _ _ Inv). lia.
  - assert (Hfl : inFlight s <> 0%nat).
    { intros H0. apply (settled_no_transfer files s Inv) in H0.
      apply (settled_iff_outcomes files s Inv) in H0. lia. }
    destruct (unsettled_has_transfer (workers s) Hfl) as (w & idx & last & Hw).
    destruct (inv_claimed _ _ Inv w idx last Hw) as [Hidx _].
    pose proof (inv_cursor _ _ Inv) as Hc.
    destruct (nth_error files idx) as [file|] eqn:Efile;
      [|apply nth_error_None in Efile; lia].
    assert (Hstep : step files s (w, Load 200 None)
                    = Some (onSettled files w idx file None s)).
    { unfold step. rewrite Hw, Efile. reflexivity. }
    pose proof (step_invariant _ _ _ _ Inv Hstep) as Inv'.
    destruct (IH (onSettled files w idx file None s) Inv') as (events & s' & Hl & Hr & Hs).
    { unfold onSettled, workerLoop. fields.
      destruct (nth_error files (cursor s)); fields; rewrite length_app;
        simpl List.length; lia. }
    exists ((w, Load 200 None) :: events), s'.
    split; [simpl; now rewrite Hl|]. split; [|exact Hs].
    change (match step files s (w, Load 200 None) with
            | Some s1 => run files s1 events
            | None => None
            end = Some s').
    now rewrite Hstep.
Qed.

Lemma step_errors_grow (files : list File.t) (s s' : State) (e : nat * XhrEvent) :
  step files s e = Some s' -> exists more, uploadErrors s' = uploadErrors s ++ more.
Proof.
  destruct e as [w ev]. unfold step.
  destruct (nth_error (workers s) w) as [[idx last|]|]; try discriminate.
  destruct (nth_error files idx) as [file|]; try discriminate.
  assert (Hsettle : forall outcome,
             exists more, uploadErrors (onSettled files w idx file outcome s)
                          = uploadErrors s ++ more).
  { intros outcome. exists (errorLines file outcome).
    unfold onSettled, workerLoop. fields.
    destruct (nth_error files (cursor s)); reflexivity. }
  destruct ev as [lengthComputable loaded|status parseError|]; cbv beta iota.
  - intros H; inversion H; subst. exists []. rewrite app_nil_r.
    unfold onProgress. destruct lengthComputable; reflexivity.
  - destruct (settles _); intros H; inversion H; subst. apply Hsettle.
  - destruct (settles _); intros H; inversion H; subst. apply Hsettle.
Qed.

Lemma run_errors_grow (files : list File.t) (events : list (nat * XhrEvent)) :
  forall s s', run files s events = Some s' ->
               exists more, uploadErrors s' = uploadErrors s ++ more.
Proof.
  induction events as [|e events IH]; intros s s' H; simpl in H.
  - inversion H; subst. exists []. now rewrite app_nil_r.
  - destruct (step files s e) as [s1|] eqn:E; [|discriminate].
    destruct (step_errors_grow _ _ _ _ E) as [m1 H1].
    destruct (IH _ _ H) as [m2 H2].
    exists (m1 ++ m2). now rewrite H2, H1, app_assoc.
Qed.

(** *** Byte accounting *)

Lemma fold_left_sizes (files : list File.t) (a : Z) :
  fold_left (fun sum file => sum + Z.of_N (File.size file)) files a
  = a + sumZ (sizes files).
Proof.
  revert a; induction files as [|file files IH]; intros a; simpl; [lia|].
  rewrite IH. unfold sizes, sumZ. cbn [map fold_right]. lia.
Qed.

Lemma sizes_nonnegative (files : list File.t) : 0 <= sumZ (sizes files).
Proof.
  induction files as [|file files IH]; unfold sizes, sumZ in *; cbn [map fold_right]; lia.
Qed.

Lemma totalBytes_sizes (files : list File.t) :
  totalBytes files = if sumZ (sizes files) =? 0 then 1 else sumZ (sizes files).
Proof. unfold totalBytes. now rewrite fold_left_sizes. Qed.

Lemma Forall2_updateAt {A B : Type} (R : A -> B -> Prop) (l : list A) (l' : list B)
  (i : nat) (v : A) (y : B) :
  Forall2 R l l' -> nth_error l' i = Some y -> R v y ->
  Forall2 R (JS.updateAt i (fun _ => v) l) l'.
Proof.
  intros H; revert i; induction H as [|x x' l l' Hx Hl IH]; intros i Hi Hv.
  - destruct i; discriminate.
  - destruct i; simpl in *.
    + inversion Hi; subst. now constructor.
    + constructor; auto.
Qed.

Lemma reported_workerLoop (files : list File.t) (w : nat) (s : State) :
  reported (workerLoop files w s) = reported s.
Proof. unfold workerLoop. destruct (nth_error files (cursor s)); reflexivity. Qed.

Lemma uploadedBytes_workerLoop (files : list File.t) (w : nat) (s : State) :
  uploadedBytes (workerLoop files w s) = uploadedBytes s.
Proof. unfold workerLoop. destruct (nth_error files (cursor s)); reflexivity. Qed.

Lemma start_bounded (files : list File.t) : Bounded files (start files).
Proof.
  unfold Bounded, start. simpl fold_left. rewrite !reported_workerLoop. fields.
  induction files as [|file files IH]; simpl; constructor; [lia | exact IH].
Qed.

Lemma step_bounded (files : list File.t) (s s' : State) (e : nat * XhrEvent) :
  Bounded files s -> withinSize files s e -> step files s e = Some s' -> Bounded files s'.
Proof.
  intros HB Hin Hstep. destruct e as [w ev]. unfold step in Hstep. unfold withinSize in Hin.
  destruct (nth_error (workers s) w) as [[idx last|]|]; try discriminate.
  destruct (nth_error files idx) as [file|] eqn:Efile; try discriminate.
  destruct ev as [lengthComputable loaded|status parseError|]; cbv beta iota in Hstep.
  - inversion Hstep; subst s'. unfold onProgress, Bounded.
    destruct lengthComputable; simpl negb; cbv iota; [|exact HB]. fields.
    eapply Forall2_updateAt; eauto.
  - destruct (settles _); inversion Hstep; subst s'.
    unfold Bounded, onSettled. now rewrite reported_workerLoop.
  - destruct (settles _); inversion Hstep; subst s'.
    unfold Bounded, onSettled. now rewrite reported_workerLoop.
Qed.

Lemma run_bounded (files : list File.t) (events : list (nat * XhrEvent)) :
  forall s s', Bounded files s -> withinSizes files s events ->
               run files s events = Some s' -> Bounded files s'.
Proof.
  induction events as [|e events IH]; intros s s' HB Hin H; simpl in H, Hin.
  - now inversion H; subst.
  - destruct Hin as [He Hin].
    destruct (step files s e) as [s1|] eqn:E; [|discriminate].
    apply (IH s1 s'); [eapply step_bounded; eauto | exact Hin | exact H].
Qed.

Lemma bounded_sum (files : list File.t) (l : list Z) :
  Forall2 (fun v file => v <= Z.of_N (File.size file)) l files ->
  sumZ l <= sumZ (sizes files)
  /\ (sumZ l = sumZ (sizes files) ->
      forall i file, nth_error files i = Some file ->
                     nth_error l i = Some (Z.of_N (File.size file))).
Proof.
  induction 1 as [|v file l files Hv _ [IHle IHeq]].
  - split; [reflexivity|]. intros _ i file H. destruct i; discriminate.
  - change (sumZ (v :: l)) with (v + sumZ l).
    change (sumZ (sizes (file :: files))) with (Z.of_N (File.size file) + sumZ (sizes files)).
    split; [lia|].
    intros Heq i file' Hi. destruct i; simpl in *.
    + inversion Hi; subst. f_equal. lia.
    + apply IHeq; [lia|assumption].
Qed.
(** A failing event settles the transfer with its message; the error
    line is appended once for each handler that receives the error. *)
Lemma failsWith_settles (ev : XhrEvent) (message : string) (times : nat) (file : File.t) :
  failsWith ev message times ->
  settles ev = Some (Some (message, Nat.eqb times 2))
  /\ errorLines file (Some (message, Nat.eqb times 2))
     = repeat (File.name file ++ ": " ++ message)%string times.
Proof.
  intros [|status parseError Hstatus|status text Hstatus]; cbn [settles].
  - split; reflexivity.
  - replace ((200 <=? status) && (status <? 300)) with false; [split; reflexivity|].
    symmetry. apply andb_false_iff.
    destruct Hstatus; [left; apply Z.leb_gt | right; apply Z.ltb_ge]; lia.
  - replace ((200 <=? status) && (status <? 300)) with true; [split; reflexivity|].
    symmetry. apply andb_true_iff. split; [apply Z.leb_le | apply Z.ltb_lt]; lia.
Qed.

Lemma step_failsWith (files : list File.t) (s : State) (w idx : nat) (lastLoaded : Z)
  (file : File.t) (ev : XhrEvent) (message : string) (times : nat) :
  nth_error (workers s) w = Some (Uploading idx lastLoaded) ->
  nth_error files idx = Some file ->
  failsWith ev message times ->
  step files s (w, ev)
  = Some (onSettled files w idx file (Some (message, Nat.eqb times 2)) s).
Proof.
  intros Hw Hfile Hev. destruct (failsWith_settles ev message times file Hev) as [Hs _].
  unfold step. rewrite Hw, Hfile.
  destruct ev; cbv beta iota; [discriminate| |]; now rewrite Hs.
Qed.

End UploadFacts.

Section UploadClaims.
Import Upload.

(** C2 as stated fails twice over: nothing keeps a progress event from
    reporting more than the declared size (the request body is larger than
    the file), so [uploadedBytes] can pass [totalBytes]; and a failed file
    adds nothing beyond what it had reported, not its declared size. *)
Lemma uploadedBytes_unbounded_and_failure_adds_nothing :
  (exists s, run [Sample.fileA] (start [Sample.fileA]) [(0%nat, Progress true 150)] = Some s
             /\ totalBytes [Sample.fileA] = 100
             /\ uploadedBytes s = 150)
  /\ (exists s, run [Sample.fileA] (start [Sample.fileA]) [(0%nat, NetworkError)] = Some s
                /\ settled s
                /\ failed s = [0%nat]
                /\ Z.of_N (File.size Sample.fileA) = 100
                /\ uploadedBytes s = 0).
Proof.
  split; eexists; repeat split; try reflexivity.
  repeat constructor.
Qed.

(** C2, amended.  In every state a run reaches, [uploadedBytes] is the
    sum of the last cumulative value each file reported (the [lastLoaded]
    of its transfer, 0 for a file not yet claimed), and a transfer that
    fails changes neither: the file contributes what it had reported
    before failing.  While no progress event reports more than the declared
    size of its file, [uploadedBytes <= totalBytes], and the two are equal
    only when every file has reported its full declared size. *)
Theorem uploadedBytes_bounded_by_totalBytes (files : list File.t)
  (events : list (nat * XhrEvent)) (s : State) :
  run files (start files) events = Some s ->
  uploadedBytes s = sumZ (reported s)
  /\ List.length (reported s) = List.length files
  /\ (forall w idx lastLoaded,
         nth_error (workers s) w = Some (Uploading idx lastLoaded) ->
         nth_error (reported s) idx = Some lastLoaded)
  /\ (forall i,
         (cursor s <= i < List.length files)%nat -> nth_error (reported s) i = Some 0)
  /\ (forall w idx lastLoaded file ev message times,
         nth_error (workers s) w = Some (Uploading idx lastLoaded) ->
         nth_error files idx = Some file ->
         failsWith ev message times ->
         exists s',
           step files s (w, ev) = Some s'
           /\ In idx (failed s')
           /\ reported s' = reported s
           /\ nth_error (reported s') idx = Some lastLoaded
           /\ uploadedBytes s' = uploadedBytes s)
  /\ (withinSizes files (start files) events ->
      uploadedBytes s <= totalBytes files
      /\ (uploadedBytes s = totalBytes files ->
          forall i file, nth_error files i = Some file ->
                         nth_error (reported s) i = Some (Z.of_N (File.size file)))).
Proof.
  intros Hrun.
  pose proof (reachable_invariant files events s Hrun) as Inv.
  pose proof (inv_bytes _ _ Inv) as Hb.
  split; [exact Hb|]. split; [apply (inv_reported _ _ Inv)|].
  split; [intros w idx lastLoaded Hw; exact (proj2 (inv_claimed _ _ Inv w idx lastLoaded Hw))|].
  split; [intros i [Hlo Hhi]; exact (inv_unclaimed _ _ Inv i Hlo Hhi)|].
  split.
  - intros w idx lastLoaded file ev message times Hw Hfile Hev.
    exists (onSettled files w idx file (Some (message, Nat.eqb times 2)) s).
    split; [exact (step_failsWith files s w idx lastLoaded file ev message times
                     Hw Hfile Hev)|].
    unfold onSettled. rewrite reported_workerLoop, uploadedBytes_workerLoop. fields.
    split.
    + unfold failed, workerLoop. fields.
      destruct (nth_error files (cursor s)); fields;
        rewrite filter_app, map_app; apply in_or_app; right; now left.
    + split; [reflexivity|]. split; [|reflexivity].
      exact (proj2 (inv_claimed _ _ Inv w idx lastLoaded Hw)).
  - intros Hin.
    pose proof (run_bounded files events _ _ (start_bounded files) Hin Hrun) as HB.
    destruct (bounded_sum files (reported s) HB) as [Hle Heq].
    pose proof (sizes_nonnegative files) as Hnn.
    rewrite totalBytes_sizes.
    destruct (Z.eqb_spec (sumZ (sizes files)) 0) as [E|E]; split; try lia.
    intros H. apply Heq. lia.
Qed.

Lemma uploadedBytes_bounded_by_totalBytes_witness :
  match run SampleBatch.batch (start SampleBatch.batch) SampleBatch.events with
  | Some s => uploadedBytes s = sumZ (reported s) /\ uploadedBytes s <= 1000
  | None => False
  end
  /\ match run [Sample.fileA] (start [Sample.fileA]) [(0%nat, Progress true 150)] with
     | Some s =>
         uploadedBytes s = sumZ (reported s)
         /\ uploadedBytes s = 150
         /\ exists s',
              step [Sample.fileA] s (0%nat, NetworkError) = Some s'
              /\ In 0%nat (failed s')
              /\ uploadedBytes s' = 150
     | None => False
     end.
Proof.
  split.
  - assert (Hin : withinSizes SampleBatch.batch (start SampleBatch.batch) SampleBatch.events)
      by (vm_compute; intuition discriminate).
    destruct (run SampleBatch.batch (start SampleBatch.batch) SampleBatch.events)
      as [s|] eqn:Hrun; [|vm_compute in Hrun; discriminate].
    destruct (uploadedBytes_bounded_by_totalBytes SampleBatch.batch SampleBatch.events s
                Hrun) as (H1 & _ & _ & _ & _ & H2).
    split; [exact H1 | exact (proj1 (H2 Hin))].
  - destruct (run [Sample.fileA] (start [Sample.fileA]) [(0%nat, Progress true 150)])
      as [s|] eqn:Hrun; [|vm_compute in Hrun; discriminate].
    destruct (uploadedBytes_bounded_by_totalBytes [Sample.fileA]
                [(0%nat, Progress true 150)] s Hrun) as (H1 & _ & _ & _ & Hfail & _).
    assert (Hs : uploadedBytes s = 150
                 /\ nth_error (workers s) 0 = Some (Uploading 0 150)).
    { clear H1 Hfail. vm_compute in Hrun. inversion Hrun. split; reflexivity. }
    destruct Hs as [Hbytes Hworker].
    split; [exact H1|]. split; [exact Hbytes|].
    destruct (Hfail 0%nat 0%nat 150 Sample.fileA NetworkError _ _
                Hworker eq_refl network_error)
      as (s' & Hstep & Hfailed & _ & _ & Hsame).
    exists s'. split; [exact Hstep|]. split; [exact Hfailed|]. now rewrite Hsame.
Defined.

(** C3 as stated fails: the percentage is rounded to nearest and capped at
    100, not floored.  With 2 of 3 bytes sent the code reports 67. *)
Lemma percent_is_rounded_not_floored :
  option_map (fun s => (uploadedBytes s, percent (uploadProgress s)))
    (step SampleBatch.small (start SampleBatch.small) (0%nat, Progress true 2))
  = Some (2, 67)
  /\ totalBytes SampleBatch.small = 3
  /\ 2 * 100 / 3 = 66.
Proof. repeat split. Qed.

(** C3, amended.  A progress event whose length is computable adds the
    difference between its cumulative [loaded] and the file's last reported
    value to [uploadedBytes], remembers [loaded], and sets the percentage to
    [min(100, round(uploadedBytes / totalBytes * 100))]; an event whose
    length is not computable changes nothing. *)
Theorem progress_adds_delta_and_rounds_percent (files : list File.t) (s : State)
  (w idx : nat) (lastLoaded loaded : Z) (file : File.t) :
  nth_error (workers s) w = Some (Uploading idx lastLoaded) ->
  nth_error files idx = Some file ->
  (exists s',
      step files s (w, Progress true loaded) = Some s'
      /\ uploadedBytes s' = uploadedBytes s + (loaded - lastLoaded)
      /\ nth_error (workers s') w = Some (Uploading idx loaded)
      /\ percent (uploadProgress s')
         = Z.min 100
             (JS.Math_round
                (PrimFloat.mul
                   (PrimFloat.div (JS.toNumber (uploadedBytes s'))
                      (JS.toNumber (totalBytes files)))
                   (JS.toNumber 100)))
      /\ percent (uploadProgress s') <= 100)
  /\ step files s (w, Progress false loaded) = Some s.
Proof.
  intros Hw Hfile. unfold step. rewrite Hw, Hfile. split; [|reflexivity].
  eexists. split; [reflexivity|]. unfold onProgress. simpl negb. cbv iota. fields.
  repeat split.
  - unfold setWorker. rewrite nth_error_updateAt, Nat.eqb_refl, Hw. reflexivity.
  - unfold percentOf. apply Z.le_min_l.
Qed.

Lemma progress_adds_delta_and_rounds_percent_witness :
  exists s',
    step SampleBatch.batch (start SampleBatch.batch) (1%nat, Progress true 120) = Some s'
    /\ uploadedBytes s' = 120
    /\ percent (uploadProgress s') = 12.
Proof.
  destruct (progress_adds_delta_and_rounds_percent SampleBatch.batch
              (start SampleBatch.batch) 1 1 0 120 Sample.fileB eq_refl eq_refl)
    as [(s' & Hstep & Hbytes & _ & Hpercent & _) _].
  exists s'. split; [exact Hstep|]. split; [exact Hbytes|].
  rewrite Hpercent, Hbytes. reflexivity.
Defined.

(** C5.  In every state a run reaches at most [concurrency] transfers are
    in flight; the files passed to [uploadOne] so far are exactly those
    below the cursor, in order and once each; the run has settled exactly
    when every file has an outcome, and then the files attempted are all
    the files of the batch; and from any reachable state the run settles
    once each remaining transfer has been answered. *)
Theorem upload_bounded_parallelism_each_file_once (files : list File.t)
  (events : list (nat * XhrEvent)) (s : State) :
  run files (start files) events = Some s ->
  (inFlight s <= concurrency)%nat
  /\ (cursor s <= List.length files)%nat
  /\ attempts s = seq 0 (cursor s)
  /\ NoDup (attempts s)
  /\ (settled s <-> List.length (outcomes s) = List.length files)
  /\ (settled s -> forall i, In i (attempts s) <-> (i < List.length files)%nat)
  /\ (exists rest s',
         List.length rest = (List.length files - List.length (outcomes s))%nat
         /\ run files (start files) (events ++ rest) = Some s'
         /\ settled s'
         /\ attempts s' = seq 0 (List.length files)).
Proof.
  intros Hrun. pose proof (reachable_invariant files events s Hrun) as Inv.
  split.
  { rewrite <- (inv_workers _ _ Inv). unfold inFlight. apply count_le_length. }
  split; [apply Inv|]. split; [apply Inv|].
  split; [rewrite (inv_attempts _ _ Inv); apply seq_NoDup|].
  split; [now apply settled_iff_outcomes|].
  split.
  { intros H i. rewrite (inv_attempts _ _ Inv), (settled_cursor files s Inv H), in_seq. lia. }
  destruct (run_settles files _ s Inv eq_refl) as (rest & s' & Hl & Hr & Hs).
  exists rest, s'. split; [exact Hl|]. rewrite run_app, Hrun.
  split; [exact Hr|]. split; [exact Hs|].
  pose proof (run_invariant files rest s s' Inv Hr) as Inv'.
  rewrite (inv_attempts _ _ Inv'). now rewrite (settled_cursor files s' Inv' Hs).
Qed.

Lemma upload_bounded_parallelism_each_file_once_witness :
  match run SampleBatch.batch (start SampleBatch.batch) SampleBatch.events with
  | Some s => (inFlight s <= 3)%nat /\ attempts s = seq 0 (cursor s)
  | None => False
  end.
Proof.
  destruct (run SampleBatch.batch (start SampleBatch.batch) SampleBatch.events)
    as [s|] eqn:Hrun; [|vm_compute in Hrun; discriminate].
  destruct (upload_bounded_parallelism_each_file_once SampleBatch.batch SampleBatch.events
              s Hrun) as (H1 & _ & H3 & _).
  split; [exact H1 | exact H3].
Defined.

(** C9.  When the transfer of a file fails, the line
    ["<name>: <message>"] is appended to [uploadErrors] once by every
    handler that receives the error, and nothing else is appended: twice
    after a network error or a reply outside 200..299, which go through
    [onError] and through the [catch] of [uploadOne], once after a 2xx
    reply that is not JSON.  The file is recorded as failed; the other
    workers keep their transfers, the worker itself claims the next
    unclaimed file if there is one, every later run keeps the lines and,
    once settled, has attempted every file, and the run can still settle. *)
Theorem upload_failure_is_recorded_and_isolated (files : list File.t)
  (events : list (nat * XhrEvent)) (s : State) (w idx : nat) (lastLoaded : Z)
  (file : File.t) (ev : XhrEvent) (message : string) (times : nat) :
  run files (start files) events = Some s ->
  nth_error (workers s) w = Some (Uploading idx lastLoaded) ->
  nth_error files idx = Some file ->
  failsWith ev message times ->
  exists s',
    step files s (w, ev) = Some s'
    /\ uploadErrors s'
       = uploadErrors s ++ repeat (File.name file ++ ": " ++ message)%string times
    /\ (1 <= times <= 2)%nat
    /\ outcomes s' = outcomes s ++ [(idx, false)]
    /\ (forall w', w' <> w -> nth_error (workers s') w' = nth_error (workers s) w')
    /\ nth_error (workers s') w
       = Some (match nth_error files (cursor s) with
               | Some _ => Uploading (cursor s) 0
               | None => Returned
               end)
    /\ uploadedBytes s' = uploadedBytes s
    /\ (forall later s'',
           run files s' later = Some s'' ->
           (exists more,
               uploadErrors s''
               = uploadErrors s
                 ++ repeat (File.name file ++ ": " ++ message)%string times ++ more)
           /\ (settled s'' -> attempts s'' = seq 0 (List.length files)))
    /\ (exists later s'', run files s' later = Some s'' /\ settled s'').
Proof.
  intros Hrun Hw Hfile Hev.
  pose proof (reachable_invariant files events s Hrun) as Inv.
  pose proof (step_failsWith files s w idx lastLoaded file ev message times Hw Hfile Hev)
    as Hstep.
  destruct (failsWith_settles ev message times file Hev) as [_ Hrepeat].
  exists (onSettled files w idx file (Some (message, Nat.eqb times 2)) s).
  split; [exact Hstep|].
  assert (Hlines : uploadErrors (onSettled files w idx file
                                   (Some (message, Nat.eqb times 2)) s)
                   = uploadErrors s
                     ++ repeat (File.name file ++ ": " ++ message)%string times).
  { rewrite <- Hrepeat. unfold onSettled, workerLoop. fields.
    destruct (nth_error files (cursor s)); reflexivity. }
  split; [exact Hlines|].
  split; [destruct Hev; lia|].
  split.
  { unfold onSettled, workerLoop. fields.
    destruct (nth_error files (cursor s)); reflexivity. }
  split.
  { intros w' Hne. unfold onSettled, workerLoop. fields.
    destruct (nth_error files (cursor s)); fields; unfold setWorker;
      rewrite nth_error_updateAt;
      destruct (Nat.eqb_spec w w'); congruence. }
  split.
  { unfold onSettled, workerLoop. fields.
    destruct (nth_error files (cursor s)); fields; unfold setWorker;
      rewrite nth_error_updateAt, Nat.eqb_refl, Hw; reflexivity. }
  split.
  { unfold onSettled. now rewrite uploadedBytes_workerLoop. }
  pose proof (step_invariant _ _ _ _ Inv Hstep) as Inv'.
  split.
  - intros later s'' Hlater.
    pose proof (run_invariant files later _ s'' Inv' Hlater) as Inv''.
    split.
    + destruct (run_errors_grow files later _ _ Hlater) as [more Hmore].
      exists more. now rewrite Hmore, Hlines, <- app_assoc.
    + intros Hs. rewrite (inv_attempts _ _ Inv'').
      now rewrite (settled_cursor files s'' Inv'' Hs).
  - destruct (run_settles files _ _ Inv' eq_refl) as (later & s'' & _ & Hr & Hs).
    exists later, s''. split; assumption.
Qed.

Lemma upload_failure_is_recorded_and_isolated_witness :
  (exists s',
      run SampleBatch.batch (start SampleBatch.batch)
        [(0%nat, Progress true 50); (0%nat, NetworkError)] = Some s'
      /\ uploadErrors s' = ["a.jpg: 上传失败"; "a.jpg: 上传失败"]
      /\ nth_error (workers s') 0 = Some (Uploading 3 0)
      /\ nth_error (workers s') 1 = Some (Uploading 1 0))
  /\ (exists s',
         run SampleBatch.batch (start SampleBatch.batch) [(2%nat, Load 500 None)] = Some s'
         /\ uploadErrors s' = ["c.gif: 上传失败"; "c.gif: 上传失败"])
  /\ (exists s',
         run SampleBatch.batch (start SampleBatch.batch)
           [(1%nat, Load 200 (Some "Unexpected token"))] = Some s'
         /\ uploadErrors s' = ["b.png: Unexpected token"]).
Proof.
  split; [|split].
  - destruct (upload_failure_is_recorded_and_isolated SampleBatch.batch
                [(0%nat, Progress true 50)] _ 0 0 50 Sample.fileA NetworkError
                _ _ eq_refl eq_refl eq_refl network_error)
      as (s' & Hstep & Hlines & _ & _ & Hothers & Hself & _).
    exists s'. split; [cbn [run]; exact Hstep|].
    split; [exact Hlines|]. split; [exact Hself|].
    rewrite (Hothers 1%nat); [reflexivity | discriminate].
  - assert (Hstatus : 500 < 200 \/ 300 <= 500) by (right; lia).
    destruct (upload_failure_is_recorded_and_isolated SampleBatch.batch
                [] _ 2 2 0 Sample.fileC (Load 500 None)
                _ _ eq_refl eq_refl eq_refl (server_rejection 500 None Hstatus))
      as (s' & Hstep & Hlines & _).
    exists s'. split; [cbn [run]; exact Hstep | exact Hlines].
  - assert (Hstatus : 200 <= 200 < 300) by lia.
    destruct (upload_failure_is_recorded_and_isolated SampleBatch.batch
                [] _ 1 1 0 Sample.fileB (Load 200 (Some "Unexpected token"))
                _ _ eq_refl eq_refl eq_refl (unparsable_reply 200 "Unexpected token" Hstatus))
      as (s' & Hstep & Hlines & _).
    exists s'. split; [cbn [run]; exact Hstep | exact Hlines].
Defined.

End UploadClaims.

(** ** DuplicateResolver *)
Section DuplicateFacts.
Import Duplicates.

Lemma includes_empty (sub : string) : sub <> "" -> JS.includes "" sub = false.
Proof. destruct sub; [congruence | reflexivity]. Qed.

Lemma hasNestedPath_iff (files : list File.t) :
  hasNestedPath files = true <->
  exists file p, In file files /\ File.relativePath file = Some p
                 /\ JS.includes p "/" = true.
Proof.
  unfold hasNestedPath. rewrite existsb_exists. split.
  - intros (file & Hin & H). destruct (File.relativePath file) as [p|] eqn:E; [|discriminate].
    apply andb_true_iff in H. destruct H as [_ H]. eauto.
  - intros (file & p & Hin & E & H). exists file. split; [assumption|].
    rewrite E, H. destruct p; [discriminate H | reflexivity].
Qed.









End DuplicateFacts.

(** ** Sorting *)
Section SortFacts.
Context {A : Type} (compareFn : A -> A -> Z).

Let precedes (a b : A) : Prop := compareFn a b <= 0.

Lemma insertSorted_perm (x : A) (l : list A) :
  Permutation (JS.insertSorted compareFn x l) (x :: l).
Proof.
  induction l as [|y l IH]; simpl; [reflexivity|].
  destruct (compareFn y x <=? 0); [|reflexivity].
  rewrite IH. apply perm_swap.
Qed.

Lemma sort_perm_from (l acc : list A) :
  Permutation (fold_left (fun acc x => JS.insertSorted compareFn x acc) l acc) (l ++ acc).
Proof.
  revert acc; induction l as [|x l IH]; intros acc; simpl; [reflexivity|].
  rewrite IH, insertSorted_perm. symmetry. apply Permutation_middle.
Qed.

Lemma sort_perm (l : list A) : Permutation (JS.sort compareFn l) l.
Proof. unfold JS.sort. rewrite sort_perm_from. now rewrite app_nil_r. Qed.

Hypothesis compareFn_total : forall a b, 0 < compareFn a b -> compareFn b a <= 0.

Lemma insertSorted_HdRel (a x : A) (l : list A) :
  precedes a x -> HdRel precedes a l -> HdRel precedes a (JS.insertSorted compareFn x l).
Proof.
  intros Hax H. destruct l as [|y l]; simpl; [now constructor|].
  inversion H; subst. destruct (compareFn y x <=? 0); now constructor.
Qed.

Lemma insertSorted_sorted (x : A) (l : list A) :
  Sorted precedes l -> Sorted precedes (JS.insertSorted compareFn x l).
Proof.
  induction 1 as [|y l Hs IH Hhd]; simpl; [repeat constructor|].
  destruct (Z.leb_spec (compareFn y x) 0) as [Hle|Hgt].
  - constructor; [exact IH|]. now apply insertSorted_HdRel.
  - constructor; [now constructor|]. constructor. now apply compareFn_total.
Qed.

Lemma sort_sorted_from (l acc : list A) :
  Sorted precedes acc ->
  Sorted precedes (fold_left (fun acc x => JS.insertSorted compareFn x acc) l acc).
Proof.
  revert acc; induction l as [|x l IH]; intros acc H; simpl; [exact H|].
  apply IH. now apply insertSorted_sorted.
Qed.

Hypothesis compareFn_trans :
  forall a b c, compareFn a b <= 0 -> compareFn b c <= 0 -> compareFn a c <= 0.

Lemma sort_sorted (l : list A) :
  StronglySorted (fun a b => compareFn a b <= 0) (JS.sort compareFn l).
Proof.
  apply Sorted_StronglySorted.
  - intros a b c. apply compareFn_trans.
  - apply sort_sorted_from. constructor.
Qed.
End SortFacts.

(** ** FacetFilterEngine: the format dimension *)
Section FormatFacts.
Import Formats.

Lemma existsb_eqb_In (key : string) (l : list string) :
  existsb (String.eqb key) l = true <-> In key l.
Proof.
  rewrite existsb_exists. split.
  - intros (x & Hin & H). apply String.eqb_eq in H. now subst.
  - intros H. exists key. split; [assumption | apply String.eqb_refl].
Qed.











End FormatFacts.

(** ** ColorClusterer *)
Section ColorFacts.
Import Colors.

Lemma findIndex_None {A : Type} (p : A -> bool) (l : list A) :
  JS.findIndex p l = None <-> Forall (fun x => p x = false) l.
Proof.
  induction l as [|x l IH]; simpl.
  - split; auto.
  - destruct (p x) eqn:E.
    + split; [discriminate|]. intros H; inversion H; congruence.
    + destruct (JS.findIndex p l); simpl.
      * split; [discriminate|]. intros H; inversion H; subst.
        apply IH in H3. discriminate.
      * split; [|reflexivity]. intros _. constructor; [assumption | now apply IH].
Qed.

(** [find] stops at the first element that satisfies the predicate, and
    the update touches that element only. *)
Lemma findIndex_Some {A : Type} (p : A -> bool) (f : A -> A) (l : list A) (i : nat) :
  JS.findIndex p l = Some i ->
  exists before found after,
    l = before ++ found :: after
    /\ List.length before = i
    /\ Forall (fun x => p x = false) before
    /\ p found = true
    /\ JS.updateAt i f l = before ++ f found :: after.
Proof.
  revert i; induction l as [|x l IH]; intros i H; simpl in H; [discriminate|].
  destruct (p x) eqn:E.
  - inversion H; subst. exists [], x, l. repeat split; auto.
  - destruct (JS.findIndex p l) as [j|] eqn:Ej; [|discriminate].
    simpl in H. inversion H; subst.
    destruct (IH j eq_refl) as (before & found & after & Hl & Hlen & Hall & Hp & Hup).
    exists (x :: before), found, after. simpl. repeat split; auto.
    + now rewrite Hl.
    + now rewrite Hup.
Qed.

Lemma withinThreshold_iff (rgb : Swatch) (group : Group) :
  withinThreshold rgb group = true <-> distanceSquared group rgb <= 28 * 28.
Proof. unfold withinThreshold, threshold. apply Z.leb_le. Qed.

Lemma withinThreshold_false_iff (rgb : Swatch) (group : Group) :
  withinThreshold rgb group = false <-> 28 * 28 < distanceSquared group rgb.
Proof. unfold withinThreshold, threshold. apply Z.leb_gt. Qed.

(** [roundDiv x n] is the integer nearest to [x / n], the upper one on a
    tie. *)
Lemma roundDiv_nearest (x n : Z) :
  0 < n ->
  2 * n * JS.roundDiv x n <= 2 * x + n < 2 * n * (JS.roundDiv x n + 1).
Proof.
  intros Hn. unfold JS.roundDiv.
  pose proof (Z.div_mod (2 * x + n) (2 * n) ltac:(lia)) as Hdm.
  pose proof (Z.mod_pos_bound (2 * x + n) (2 * n) ltac:(lia)) as Hb.
  lia.
Qed.

Lemma addColor_parsed (groups : list Group) (color : string) (rgb : Swatch) :
  parseHexColor color = Some rgb -> addColor groups color = addSwatch groups rgb.
Proof. intros H. unfold addColor. now rewrite H. Qed.

Lemma sort_singleton {A : Type} (compareFn : A -> A -> Z) (x : A) :
  JS.sort compareFn [x] = [x].
Proof. reflexivity. Qed.

(** C1 as stated fails: the swatch joins the first group within the
    threshold in creation order, not the nearest one.  Here the second
    group is at distance 1 and the first at distance 28; the first absorbs
    the swatch, so the swatches [#1d0000] and [#1c0000], 1 apart, end in
    different groups. *)
Lemma swatch_joins_first_group_not_nearest :
  cluster [SampleColors.asset ["#000000"; "#1d0000"]]
  = [SampleColors.origin; SampleColors.neighbour]
  /\ parseHexColor "#1c0000" = Some SampleColors.between
  /\ distanceSquared SampleColors.origin SampleColors.between = 784
  /\ distanceSquared SampleColors.neighbour SampleColors.between = 1
  /\ buildColorGroups [SampleColors.asset ["#000000"; "#1d0000"; "#1c0000"]]
     = [mkGroup 14 0 0 2 "#0e0000"; SampleColors.neighbour].
Proof. repeat split. Qed.

(** C1, amended.  A swatch is merged into the first group, in creation
    order, whose centroid is within distance 28, and each channel of that
    centroid becomes [round((old * (count - 1) + sample) / count)] for the
    incremented count; a swatch farther than 28 from every centroid starts
    a singleton group at the end; and an input of exactly two swatches
    within 28 of each other yields one group of count 2 whose centroid is
    their rounded per-channel mean. *)
Theorem swatch_joins_first_group_within_threshold :
  (forall groups rgb,
      (exists group, In group groups /\ distanceSquared group rgb <= 28 * 28) ->
      exists before found after,
        groups = before ++ found :: after
        /\ Forall (fun group => 28 * 28 < distanceSquared group rgb) before
        /\ distanceSquared found rgb <= 28 * 28
        /\ addSwatch groups rgb = before ++ merge rgb found :: after
        /\ count (merge rgb found) = count found + 1
        /\ r (merge rgb found)
           = JS.roundDiv (r found * (count (merge rgb found) - 1) + sampleR rgb)
               (count (merge rgb found))
        /\ g (merge rgb found)
           = JS.roundDiv (g found * (count (merge rgb found) - 1) + sampleG rgb)
               (count (merge rgb found))
        /\ b (merge rgb found)
           = JS.roundDiv (b found * (count (merge rgb found) - 1) + sampleB rgb)
               (count (merge rgb found)))
  /\ (forall groups rgb,
         Forall (fun group => 28 * 28 < distanceSquared group rgb) groups ->
         addSwatch groups rgb = groups ++ [singleton rgb]
         /\ count (singleton rgb) = 1)
  /\ (forall asset first second one two,
         Asset.colors asset = Some [first; second] ->
         parseHexColor first = Some one ->
         parseHexColor second = Some two ->
         (sampleR one - sampleR two) ^ 2 + (sampleG one - sampleG two) ^ 2
         + (sampleB one - sampleB two) ^ 2 <= 28 * 28 ->
         buildColorGroups [asset]
         = [mkGroup (JS.roundDiv (sampleR one + sampleR two) 2)
              (JS.roundDiv (sampleG one + sampleG two) 2)
              (JS.roundDiv (sampleB one + sampleB two) 2) 2
              (String "#"
                 (toHex (JS.roundDiv (sampleR one + sampleR two) 2)
                  ++ toHex (JS.roundDiv (sampleG one + sampleG two) 2)
                  ++ toHex (JS.roundDiv (sampleB one + sampleB two) 2)))])
  /\ (forall x n, 0 < n ->
                  2 * n * JS.roundDiv x n <= 2 * x + n < 2 * n * (JS.roundDiv x n + 1)).
Proof.
  split; [|split; [|split]].
  - intros groups rgb (group & Hin & Hd).
    destruct (JS.findIndex (withinThreshold rgb) groups) as [i|] eqn:E.
    + destruct (findIndex_Some _ (merge rgb) _ _ E)
        as (before & found & after & Hl & _ & Hall & Hp & Hup).
      exists before, found, after. split; [exact Hl|]. split.
      { eapply Forall_impl; [|exact Hall]. intros a Ha. now apply withinThreshold_false_iff. }
      split; [now apply withinThreshold_iff|].
      split; [unfold addSwatch; now rewrite E|].
      repeat split.
    + apply findIndex_None in E. rewrite Forall_forall in E.
      specialize (E group Hin). apply withinThreshold_false_iff in E. lia.
  - intros groups rgb Hall. split; [|reflexivity].
    unfold addSwatch.
    assert (E : JS.findIndex (withinThreshold rgb) groups = None).
    { apply findIndex_None. eapply Forall_impl; [|exact Hall].
      intros a Ha. now apply withinThreshold_false_iff. }
    now rewrite E.
  - intros asset first second one two Hcolors Hone Htwo Hd.
    assert (Hnear : withinThreshold two (singleton one) = true).
    { apply withinThreshold_iff. unfold distanceSquared, singleton. cbn [r g b]. exact Hd. }
    assert (Hcluster : cluster [asset] = [merge two (singleton one)]).
    { unfold cluster. cbn [fold_left]. unfold colorsOf. rewrite Hcolors. cbn [fold_left].
      rewrite (addColor_parsed [] first one Hone).
      change (addSwatch [] one) with [singleton one].
      rewrite (addColor_parsed _ second two Htwo).
      unfold addSwatch. cbn [JS.findIndex]. rewrite Hnear. reflexivity. }
    unfold buildColorGroups. rewrite Hcluster, sort_singleton.
    unfold merge, singleton. cbn [r g b count].
    replace (1 + 1 - 1) with 1 by lia. rewrite !Z.mul_1_r.
    reflexivity.
  - exact roundDiv_nearest.
Qed.

Lemma swatch_joins_first_group_within_threshold_witness :
  addSwatch [SampleColors.origin; SampleColors.neighbour] SampleColors.between
  = [mkGroup 14 0 0 2 "#0e0000"; SampleColors.neighbour]
  /\ addSwatch [SampleColors.origin] SampleColors.white
     = [SampleColors.origin; mkGroup 255 255 255 1 "#ffffff"]
  /\ buildColorGroups [SampleColors.asset ["#000000"; "#020202"]]
     = [mkGroup 1 1 1 2 "#010101"].
Proof.
  destruct swatch_joins_first_group_within_threshold as (Hmerge & Hnew & Hpair & _).
  split; [|split].
  - destruct (Hmerge [SampleColors.origin; SampleColors.neighbour] SampleColors.between)
      as (before & found & after & Hl & Hfar & Hnear & Hadd & _).
    + exists SampleColors.origin. split; [now left | vm_compute; discriminate].
    + rewrite Hadd.
      destruct before as [|x before].
      * inversion Hl; subst. reflexivity.
      * inversion Hl; subst. inversion Hfar; subst. vm_compute in H1. discriminate.
  - destruct (Hnew [SampleColors.origin] SampleColors.white) as [Hadd _].
    + repeat constructor.
    + rewrite Hadd. reflexivity.
  - rewrite (Hpair (SampleColors.asset ["#000000"; "#020202"]) "#000000" "#020202"
               SampleColors.black SampleColors.nearBlack eq_refl eq_refl eq_refl).
    + reflexivity.
    + vm_compute. discriminate.
Defined.

(** C10 on a value that is not six hexadecimal digits but that
    [parseHexColor] accepts, because [parseInt] stops at the first
    character that is not a digit: the group is created with channels
    (1, 2, 3) and keeps the text of the value, which is not their
    encoding. *)
Lemma malformed_swatch_keeps_its_text :
  buildColorGroups [SampleColors.asset ["1g2g3g"]] = [mkGroup 1 2 3 1 "#1g2g3g"]
  /\ String "#" (toHex 1 ++ toHex 2 ++ toHex 3) = "#010203".
Proof. split; reflexivity. Qed.

End ColorFacts.

(** *** The text of a group *)
Section HexFacts.
Import Colors.

Lemma in_allAscii (c : ascii) : In c allAscii.
Proof.
  unfold allAscii. apply in_map_iff. exists (nat_of_ascii c).
  split; [apply ascii_nat_embedding|].
  apply in_seq. pose proof (nat_ascii_bounded c). lia.
Qed.

Lemma toHex_twoDigits (n : Z) : 0 <= n <= 255 -> toHex n = twoDigits n.
Proof.
  intros Hn.
  assert (Hall : forallb (fun k => String.eqb (toHex (Z.of_nat k)) (twoDigits (Z.of_nat k)))
                   (seq 0 256) = true) by (vm_compute; reflexivity).
  rewrite forallb_forall in Hall.
  specialize (Hall (Z.to_nat n)). rewrite Z2Nat.id in Hall by lia.
  apply String.eqb_eq, Hall, in_seq. lia.
Qed.

(** Two hexadecimal digits parse to the byte they spell, whose encoding is
    the two digits in lower case. *)
Lemma parseInt16_pair (c1 c2 : ascii) :
  isHexDigit c1 = true -> isHexDigit c2 = true ->
  exists v,
    JS.parseInt16 (String c1 (String c2 EmptyString)) = Some v
    /\ 0 <= v <= 255
    /\ twoDigits v = String (JS.lowerChar c1) (String (JS.lowerChar c2) EmptyString).
Proof.
  intros H1 H2.
  assert (Hall : forallb (fun a => forallb (checkPair a) allAscii) allAscii = true)
    by (vm_compute; reflexivity).
  rewrite forallb_forall in Hall. specialize (Hall c1 (in_allAscii c1)).
  rewrite forallb_forall in Hall. specialize (Hall c2 (in_allAscii c2)).
  unfold checkPair in Hall. rewrite H1, H2 in Hall. simpl andb in Hall.
  destruct (JS.parseInt16 (String c1 (String c2 EmptyString))) as [v|]; [|discriminate].
  apply andb_true_iff in Hall. destruct Hall as [Hr He].
  apply andb_true_iff in Hr. destruct Hr as [Hlo Hhi].
  exists v. split; [reflexivity|]. split; [lia|]. now apply String.eqb_eq.
Qed.

Lemma parseHexColor_sixHexDigits (value : string) :
  sixHexDigits value = true ->
  exists rgb,
    parseHexColor value = Some rgb
    /\ 0 <= sampleR rgb <= 255 /\ 0 <= sampleG rgb <= 255 /\ 0 <= sampleB rgb <= 255
    /\ sampleHex rgb
       = String "#" (twoDigits (sampleR rgb) ++ twoDigits (sampleG rgb)
                     ++ twoDigits (sampleB rgb)).
Proof.
  unfold sixHexDigits, parseHexColor. cbv zeta.
  destruct (JS.removeFirst "#" (JS.trim value))
    as [|c1 [|c2 [|c3 [|c4 [|c5 [|c6 [|c7 rest]]]]]]]; try discriminate.
  cbn [String.length Nat.eqb negb andb allHexDigits]. intros H.
  repeat (apply andb_true_iff in H; let Hc := fresh "Hc" in destruct H as [Hc H]).
  destruct (parseInt16_pair c1 c2 Hc Hc0) as (vr & Hr & Hrr & Her).
  destruct (parseInt16_pair c3 c4 Hc1 Hc2) as (vg & Hg & Hgr & Heg).
  destruct (parseInt16_pair c5 c6 Hc3 Hc4) as (vb & Hb & Hbr & Heb).
  change (JS.slice 0 2 (String c1 (String c2 (String c3 (String c4 (String c5 (String c6 "")))))))
    with (String c1 (String c2 "")).
  change (JS.slice 2 4 (String c1 (String c2 (String c3 (String c4 (String c5 (String c6 "")))))))
    with (String c3 (String c4 "")).
  change (JS.slice 4 6 (String c1 (String c2 (String c3 (String c4 (String c5 (String c6 "")))))))
    with (String c5 (String c6 "")).
  rewrite Hr, Hg, Hb. eexists. split; [reflexivity|]. cbn [sampleR sampleG sampleB sampleHex].
  repeat split; try lia.
  rewrite Her, Heg, Heb. reflexivity.
Qed.

Lemma roundDiv_byte (old sample n : Z) :
  0 <= old <= 255 -> 0 <= sample <= 255 -> 1 <= n ->
  0 <= JS.roundDiv (old * (n + 1 - 1) + sample) (n + 1) <= 255.
Proof.
  intros Ho Hs Hn. unfold JS.roundDiv.
  replace (n + 1 - 1) with n by lia. split.
  - apply Z.div_pos; nia.
  - apply Z.lt_succ_r. apply Z.div_lt_upper_bound; nia.
Qed.

Lemma merge_encoded (rgb : Swatch) (found : Group) :
  0 <= sampleR rgb <= 255 -> 0 <= sampleG rgb <= 255 -> 0 <= sampleB rgb <= 255 ->
  encoded found -> encoded (merge rgb found).
Proof.
  intros Hr Hg Hb (Fr & Fg & Fb & Fc & _). unfold encoded, merge. cbn [r g b count hex].
  pose proof (roundDiv_byte (r found) (sampleR rgb) (count found) Fr Hr Fc) as Br.
  pose proof (roundDiv_byte (g found) (sampleG rgb) (count found) Fg Hg Fc) as Bg.
  pose proof (roundDiv_byte (b found) (sampleB rgb) (count found) Fb Hb Fc) as Bb.
  repeat split; try lia.
  now rewrite !toHex_twoDigits.
Qed.

Lemma addSwatch_encoded (groups : list Group) (rgb : Swatch) :
  0 <= sampleR rgb <= 255 -> 0 <= sampleG rgb <= 255 -> 0 <= sampleB rgb <= 255 ->
  sampleHex rgb
  = String "#" (twoDigits (sampleR rgb) ++ twoDigits (sampleG rgb) ++ twoDigits (sampleB rgb)) ->
  Forall encoded groups -> Forall encoded (addSwatch groups rgb).
Proof.
  intros Hr Hg Hb Hhex Hall. unfold addSwatch.
  destruct (JS.findIndex (withinThreshold rgb) groups) as [i|] eqn:E.
  - destruct (findIndex_Some _ (merge rgb) _ _ E)
      as (before & found & after & Hl & _ & _ & _ & Hup).
    rewrite Hup. subst groups.
    apply Forall_app in Hall. destruct Hall as [Hbefore Hrest].
    inversion Hrest; subst.
    apply Forall_app. split; [assumption|].
    constructor; [now apply merge_encoded | assumption].
  - apply Forall_app. split; [assumption|].
    constructor; [|constructor].
    unfold encoded, singleton. cbn [r g b count hex]. repeat split; try lia. exact Hhex.
Qed.

Lemma addColor_encoded (groups : list Group) (color : string) :
  sixHexDigits color = true \/ parseHexColor color = None ->
  Forall encoded groups -> Forall encoded (addColor groups color).
Proof.
  intros [H|H] Hall; unfold addColor.
  - destruct (parseHexColor_sixHexDigits color H) as (rgb & Hp & Hr & Hg & Hb & Hhex).
    rewrite Hp. now apply addSwatch_encoded.
  - now rewrite H.
Qed.

Lemma fold_addColor_encoded (colors : list string) (groups : list Group) :
  (forall color, In color colors ->
                 sixHexDigits color = true \/ parseHexColor color = None) ->
  Forall encoded groups -> Forall encoded (fold_left addColor colors groups).
Proof.
  revert groups; induction colors as [|color colors IH]; intros groups Hok Hall; simpl.
  - exact Hall.
  - apply IH.
    + intros c Hc. apply Hok. now right.
    + apply addColor_encoded; [apply Hok; now left | exact Hall].
Qed.

Lemma cluster_encoded_from (data : list Asset.t) (groups : list Group) :
  (forall asset color, In asset data -> In color (colorsOf asset) ->
                       sixHexDigits color = true \/ parseHexColor color = None) ->
  Forall encoded groups ->
  Forall encoded
    (fold_left (fun groups asset => fold_left addColor (colorsOf asset) groups) data groups).
Proof.
  revert groups; induction data as [|asset data IH]; intros groups Hok Hall; simpl.
  - exact Hall.
  - apply IH.
    + intros a c Ha Hc. apply (Hok a c); [now right | exact Hc].
    + apply fold_addColor_encoded; [|exact Hall].
      intros c Hc. apply (Hok asset c); [now left | exact Hc].
Qed.

(** X1.  On swatches that are six hexadecimal digits (or that
    [parseHexColor] rejects), every channel of every group is a byte and [hex] is ["#"]
    followed by the two-digit lower-case encodings of the channels, both
    after each swatch and in the sorted result. *)
Theorem hex_encodes_centroid_on_hex_swatches (data : list Asset.t) :
  (forall asset color, In asset data -> In color (colorsOf asset) ->
                       sixHexDigits color = true \/ parseHexColor color = None) ->
  Forall encoded (cluster data) /\ Forall encoded (buildColorGroups data).
Proof.
  intros Hok.
  assert (Hc : Forall encoded (cluster data))
    by (apply cluster_encoded_from; [exact Hok | constructor]).
  split; [exact Hc|].
  unfold buildColorGroups. rewrite Forall_forall in *. intros x Hx.
  apply Hc. eapply Permutation_in; [apply sort_perm | exact Hx].
Qed.

Lemma hex_encodes_centroid_on_hex_swatches_witness :
  Forall encoded
    (buildColorGroups [SampleColors.asset [" #000000"; "#020202"; "nope"; "#FFFFFF"]]).
Proof.
  apply hex_encodes_centroid_on_hex_swatches.
  intros asset color [Ha|[]] Hc. subst asset.
  destruct Hc as [Hc|[Hc|[Hc|[Hc|[]]]]]; subst color;
    (left; reflexivity) || (right; reflexivity).
Defined.

End HexFacts.

(** ** Recently used values *)
Section RecentFacts.
Import Recent.

Lemma NoDup_firstn {A : Type} (n : nat) (l : list A) : NoDup l -> NoDup (firstn n l).
Proof.
  intros H. rewrite <- (firstn_skipn n l) in H. now apply NoDup_app_remove_r in H.
Qed.

Lemma In_firstn {A : Type} (n : nat) (l : list A) (x : A) : In x (firstn n l) -> In x l.
Proof. intros H. rewrite <- (firstn_skipn n l). apply in_or_app. now left. Qed.

Lemma filter_firstn_id {A : Type} (p : A -> bool) (n : nat) (l : list A) :
  forallb p l = true -> filter p (firstn n l) = firstn n l.
Proof.
  intros H. apply forallb_filter_id. rewrite forallb_forall in *.
  intros x Hx. apply H. eapply In_firstn; eauto.
Qed.

Lemma filter_other_forallb (value : string) (l : list string) :
  forallb (fun item => negb (String.eqb item value))
    (filter (fun item => negb (String.eqb item value)) l) = true.
Proof. apply forallb_forall. intros x Hx. now apply filter_In in Hx. Qed.

(** The generic update behind the three recent lists. *)
Lemma touch_spec (limit : nat) (value : string) (prev : list string) :
  (0 < limit)%nat ->
  hd_error (touch limit value prev) = Some value
  /\ (List.length (touch limit value prev) <= limit)%nat
  /\ (NoDup prev -> NoDup (touch limit value prev))
  /\ (forall x, In x (touch limit value prev) -> x = value \/ In x prev)
  /\ touch limit value (touch limit value prev) = touch limit value prev.
Proof.
  intros Hl. destruct limit as [|k]; [lia|]. unfold touch.
  set (others := filter (fun item => negb (String.eqb item value)) prev).
  cbn [firstn]. split; [reflexivity|]. split.
  { cbn [List.length]. pose proof (firstn_le_length k others). lia. }
  split.
  { intros Hnd. constructor.
    - intros Hin. apply In_firstn in Hin. apply filter_In in Hin.
      destruct Hin as [_ Hin]. now rewrite String.eqb_refl in Hin.
    - apply NoDup_firstn. now apply NoDup_filter. }
  split.
  { intros x [Hx|Hx]; [now left|]. right.
    apply In_firstn in Hx. now apply filter_In in Hx. }
  cbn [filter]. rewrite String.eqb_refl. cbn [negb].
  rewrite (filter_firstn_id _ k others (filter_other_forallb value prev)).
  cbn [firstn]. f_equal.
  apply firstn_all2. apply firstn_le_length.
Qed.

Lemma toLowerCase_idempotent (s : string) :
  JS.toLowerCase (JS.toLowerCase s) = JS.toLowerCase s.
Proof.
  induction s as [|c s IH]; simpl; [reflexivity|].
  rewrite IH. f_equal.
  assert (Hall : forallb (fun a => Ascii.eqb (JS.lowerChar (JS.lowerChar a))
                                     (JS.lowerChar a)) allAscii = true)
    by (vm_compute; reflexivity).
  rewrite forallb_forall in Hall. apply Ascii.eqb_eq, Hall, in_allAscii.
Qed.

Lemma trimStart_head (s : string) :
  match JS.trimStart s with
  | String c _ => JS.isWhiteSpace c = false
  | EmptyString => True
  end.
Proof.
  induction s as [|c s IH]; [exact I|]. cbn [JS.trimStart].
  destruct (JS.isWhiteSpace c) eqn:E; [exact IH | exact E].
Qed.

Lemma trimEnd_idempotent (s : string) : JS.trimEnd (JS.trimEnd s) = JS.trimEnd s.
Proof.
  induction s as [|c s IH]; [reflexivity|]. cbn [JS.trimEnd].
  destruct (JS.trimEnd s) as [|d r] eqn:E.
  - destruct (JS.isWhiteSpace c) eqn:Ec; [reflexivity|].
    cbn [JS.trimEnd]. now rewrite Ec.
  - cbn [JS.trimEnd] in IH |- *. now rewrite IH.
Qed.

Lemma trim_idempotent (s : string) : JS.trim (JS.trim s) = JS.trim s.
Proof.
  unfold JS.trim. pose proof (trimStart_head s) as Hhead.
  destruct (JS.trimStart s) as [|c t]; [reflexivity|].
  assert (Hend : JS.trimEnd (String c t) = String c (JS.trimEnd t)).
  { cbn [JS.trimEnd]. destruct (JS.trimEnd t); [now rewrite Hhead | reflexivity]. }
  rewrite Hend. cbn [JS.trimStart]. rewrite Hhead, <- Hend.
  apply trimEnd_idempotent.
Qed.

(** X2.  Touching a recent list puts the value first, keeps at most 12
    entries (5 for colours), keeps the list duplicate-free, adds nothing
    but the value, and touching again, with the same text or with the value
    it was stored as, changes nothing; a colour that is empty and an
    annotation that is blank leave the list as it is. *)
Theorem recent_lists_are_bounded_distinct_most_recent_first :
  (forall tagName prev,
      let next := touchRecentTags tagName prev in
      hd_error next = Some tagName
      /\ (List.length next <= 12)%nat
      /\ (NoDup prev -> NoDup next)
      /\ (forall x, In x next -> x = tagName \/ In x prev)
      /\ touchRecentTags tagName next = next)
  /\ (forall color prev,
         let value := JS.toLowerCase color in
         let next := touchRecentColor color prev in
         (value = "" -> next = prev)
         /\ (value <> "" ->
             hd_error next = Some value
             /\ (List.length next <= 5)%nat
             /\ (NoDup prev -> NoDup next)
             /\ (forall x, In x next -> x = value \/ In x prev)
             /\ touchRecentColor color next = next
             /\ touchRecentColor value next = next))
  /\ (forall text prev,
         let value := JS.trim text in
         let next := touchRecentAnnotation text prev in
         (value = "" -> next = prev)
         /\ (value <> "" ->
             hd_error next = Some value
             /\ (List.length next <= 12)%nat
             /\ (NoDup prev -> NoDup next)
             /\ (forall x, In x next -> x = value \/ In x prev)
             /\ touchRecentAnnotation text next = next
             /\ touchRecentAnnotation value next = next)).
Proof.
  split; [|split].
  - intros tagName prev. cbv zeta. unfold touchRecentTags. apply touch_spec. lia.
  - intros color prev. cbv zeta. unfold touchRecentColor. cbv zeta. split.
    + intros E. now rewrite E.
    + intros Hne. apply String.eqb_neq in Hne as Hb. rewrite Hb.
      destruct (touch_spec 5 (JS.toLowerCase color) prev ltac:(lia))
        as (H1 & H2 & H3 & H4 & H5).
      rewrite toLowerCase_idempotent, Hb. repeat split; auto.
  - intros text prev. cbv zeta. unfold touchRecentAnnotation. cbv zeta. split.
    + intros E. now rewrite E.
    + intros Hne. apply String.eqb_neq in Hne as Hb. rewrite Hb.
      destruct (touch_spec 12 (JS.trim text) prev ltac:(lia))
        as (H1 & H2 & H3 & H4 & H5).
      rewrite trim_idempotent, Hb. repeat split; auto.
Qed.

Lemma recent_lists_are_bounded_distinct_most_recent_first_witness :
  NoDup (touchRecentColor "#FF0000" ["#00ff00"; "#ff0000"; "a"; "b"; "c"; "d"])
  /\ hd_error (touchRecentColor "#FF0000" ["#00ff00"; "#ff0000"; "a"; "b"; "c"; "d"])
     = Some "#ff0000"
  /\ hd_error (touchRecentAnnotation " sky " ["sea"; "sky"]) = Some "sky"
  /\ touchRecentAnnotation "sky" (touchRecentAnnotation " sky " ["sea"; "sky"])
     = touchRecentAnnotation " sky " ["sea"; "sky"].
Proof.
  destruct (proj2 (proj1 (proj2 recent_lists_are_bounded_distinct_most_recent_first)
                     "#FF0000" ["#00ff00"; "#ff0000"; "a"; "b"; "c"; "d"])
              ltac:(discriminate)) as (H1 & _ & H3 & _).
  destruct (proj2 (proj2 (proj2 recent_lists_are_bounded_distinct_most_recent_first)
                     " sky " ["sea"; "sky"])
              ltac:(discriminate)) as (A1 & _ & _ & _ & _ & A6).
  split; [|split; [exact H1|split; [exact A1 | exact A6]]].
  apply H3. repeat constructor; simpl; intuition discriminate.
Defined.

End RecentFacts.

(** ** Filter selections *)
Section SelectionFacts.
Import Selection Formats.

Lemma toggle_In (value : string) (prev : list string) (x : string) :
  In x (toggle value prev) <-> (x <> value /\ In x prev) \/ (x = value /\ ~ In value prev).
Proof.
  unfold toggle. destruct (existsb (String.eqb value) prev) eqn:E.
  - apply existsb_eqb_In in E. rewrite filter_In, negb_true_iff, String.eqb_neq.
    split; [tauto|]. intros [[H1 H2]|[H1 H2]]; [tauto | contradiction].
  - assert (Hn : ~ In value prev).
    { intros H. apply existsb_eqb_In in H. congruence. }
    rewrite in_app_iff. simpl. split.
    + intros [H|[H|[]]]; [left | right; auto].
      split; [|assumption]. intros ->. contradiction.
    + intros [[H1 H2]|[H1 H2]]; auto.
Qed.

Lemma toggle_NoDup (value : string) (prev : list string) :
  NoDup prev -> NoDup (toggle value prev).
Proof.
  intros H. unfold toggle. destruct (existsb (String.eqb value) prev) eqn:E.
  - now apply NoDup_filter.
  - apply NoDup_app; [assumption | repeat constructor; intros [] |].
    intros x Hx [Hv|[]]. subst x. apply existsb_eqb_In in Hx. congruence.
Qed.

Lemma lookup_app_absent (key : string) (filters extra : Filters) :
  existsb (fun kv => String.eqb (fst kv) key) filters = false ->
  lookup key (filters ++ extra) = lookup key extra.
Proof.
  unfold lookup. induction filters as [|[k v] filters IH]; simpl; [reflexivity|].
  intros H. apply orb_false_iff in H. destruct H as [Hk H].
  rewrite Hk. now apply IH.
Qed.

Lemma lookup_app_other (key other value : string) (filters : Filters) :
  key <> other -> lookup key (filters ++ [(other, value)]) = lookup key filters.
Proof.
  intros Hne. unfold lookup. induction filters as [|[k v] filters IH]; simpl.
  - destruct (String.eqb_spec other key); [congruence | reflexivity].
  - destruct (String.eqb k key); [reflexivity | exact IH].
Qed.

Lemma lookup_replace_same (key value : string) (current : Filters) :
  existsb (fun kv => String.eqb (fst kv) key) current = true ->
  lookup key
    (map (fun kv => if String.eqb (fst kv) key then (fst kv, value) else kv) current)
  = Some value.
Proof.
  unfold lookup. induction current as [|[k v] current IH]; [discriminate|].
  cbn [map find existsb fst]. destruct (String.eqb k key) eqn:Ek; cbn [fst orb].
  - rewrite Ek. reflexivity.
  - rewrite Ek. exact IH.
Qed.

Lemma lookup_replace_other (key value other : string) (current : Filters) :
  other <> key ->
  lookup other
    (map (fun kv => if String.eqb (fst kv) key then (fst kv, value) else kv) current)
  = lookup other current.
Proof.
  intros Hne. unfold lookup. induction current as [|[k v] current IH]; [reflexivity|].
  cbn [map find fst]. destruct (String.eqb_spec k key) as [Ek|Ek]; cbn [fst].
  - subst k. destruct (String.eqb_spec key other); [congruence | exact IH].
  - destruct (String.eqb k other); [reflexivity | exact IH].
Qed.

(** Reading back what [{ ...current, [key]: value }] wrote. *)
Lemma lookup_assign (key value other : string) (current : Filters) :
  lookup other (assign key value current)
  = if String.eqb other key then Some value else lookup other current.
Proof.
  unfold assign. destruct (String.eqb_spec other key) as [Eo|Eo].
  - subst other.
    destruct (existsb (fun kv => String.eqb (fst kv) key) current) eqn:E.
    + now apply lookup_replace_same.
    + rewrite lookup_app_absent by assumption.
      unfold lookup. cbn [find fst]. now rewrite String.eqb_refl.
  - destruct (existsb (fun kv => String.eqb (fst kv) key) current).
    + now apply lookup_replace_other.
    + now apply lookup_app_other.
Qed.

Lemma delete_assign (key value : string) (current : Filters) :
  delete key (assign key value current) = delete key current.
Proof.
  unfold assign, delete.
  destruct (existsb (fun kv => String.eqb (fst kv) key) current) eqn:E.
  - clear E. induction current as [|[k v] current IH]; [reflexivity|].
    cbn [map filter fst].
    destruct (String.eqb_spec k key) as [Ek|Ek]; cbn [fst].
    + subst k. rewrite String.eqb_refl. exact IH.
    + apply String.eqb_neq in Ek. rewrite Ek. cbn [negb]. now rewrite IH.
  - rewrite filter_app. cbn [filter fst]. rewrite String.eqb_refl. cbn [negb].
    now rewrite app_nil_r.
Qed.

Lemma isActive_assign (key value : string) (current : Filters) :
  isActive key (assign key value current) = negb (String.eqb value "").
Proof. unfold isActive. now rewrite lookup_assign, String.eqb_refl. Qed.

(** X3.  Toggling a format flips its membership in the selection and
    leaves the other formats and the absence of duplicates as they were;
    the [format] filter becomes the selection joined by commas, and every
    other filter keeps its value. *)
Theorem toggleFormat_flips_one_membership (format : string) (selected : list string)
  (filters : Filters) :
  let next := fst (toggleFormat format (selected, filters)) in
  let filters' := snd (toggleFormat format (selected, filters)) in
  (forall x, In x next <->
             (x <> format /\ In x selected) \/ (x = format /\ ~ In format selected))
  /\ (NoDup selected -> NoDup next)
  /\ lookup "format" filters' = Some (JS.join "," next)
  /\ (forall key, key <> "format" -> lookup key filters' = lookup key filters).
Proof.
  cbv zeta. unfold toggleFormat. cbn [fst snd]. repeat split.
  - apply toggle_In.
  - apply toggle_In.
  - apply toggle_NoDup.
  - now rewrite lookup_assign.
  - intros key Hne. rewrite lookup_assign.
    destruct (String.eqb_spec key "format"); [contradiction | reflexivity].
Qed.

Lemma toggleFormat_flips_one_membership_witness :
  NoDup (fst (toggleFormat "png" (["jpg"], [("q", "x"); ("format", "jpg")]))).
Proof.
  apply (proj1 (proj2 (toggleFormat_flips_one_membership "png" ["jpg"]
                         [("q", "x"); ("format", "jpg")]))).
  repeat constructor. simpl. tauto.
Defined.

(** X4.  While the format filter stays active, the format options do not
    depend on which formats are selected: toggling a format re-queries with
    the same filters minus [format], so the options are the same list.
    Toggling the last selected format off deactivates the filter, and the
    options are built from the visible assets. *)
Theorem format_options_ignore_the_selection (localeCompare : string -> string -> Z)
  (fetchAssets : Filters -> Promise (list Asset.t))
  (format : string) (selected : list string) (filters : Filters)
  (assets assets' : list Asset.t) (active : bool) :
  let filters' := snd (toggleFormat format (selected, filters)) in
  (isActive "format" filters = true ->
   JS.join "," (toggle format selected) <> "" ->
   loadFormats localeCompare fetchAssets filters' assets' active
   = loadFormats localeCompare fetchAssets filters assets active)
  /\ (selected = [format] ->
      loadFormats localeCompare fetchAssets filters' assets' active
      = Some (buildFormats localeCompare assets')).
Proof.
  cbv zeta. unfold toggleFormat. cbn [fst snd]. split.
  - intros Hon Hjoin. unfold loadFormats.
    rewrite isActive_assign, delete_assign, Hon.
    apply String.eqb_neq in Hjoin. now rewrite Hjoin.
  - intros ->. unfold loadFormats. rewrite isActive_assign.
    unfold toggle. cbn [existsb]. rewrite String.eqb_refl. cbn [orb filter].
    rewrite String.eqb_refl. reflexivity.
Qed.

Lemma format_options_ignore_the_selection_witness :
  loadFormats SampleCollation.compare SampleCollation.backend
    (snd (toggleFormat "gif" (["jpg"], SampleCollation.filters))) [] true
  = loadFormats SampleCollation.compare SampleCollation.backend SampleCollation.filters
      [SampleAssets.unnamed] true.
Proof.
  apply (proj1 (format_options_ignore_the_selection SampleCollation.compare
                  SampleCollation.backend "gif" ["jpg"] SampleCollation.filters
                  [SampleAssets.unnamed] [] true)).
  - reflexivity.
  - discriminate.
Defined.

End SelectionFacts.

(** ** The query of [fetchAssets] *)
Section QueryFacts.
Import Query Formats Selection.

Lemma set_fresh (key value : string) (qs : list (string * string)) :
  ~ In key (map fst qs) -> set key value qs = qs ++ [(key, value)].
Proof.
  induction qs as [|[k v] qs IH]; simpl; intros H; [reflexivity|].
  destruct (String.eqb_spec k key) as [E|E]; [tauto|].
  rewrite IH; tauto.
Qed.

Lemma queryEntries_from (params qs : list (string * string)) :
  NoDup (map fst qs ++ map fst params) ->
  fold_left
    (fun qs kv => if String.eqb (snd kv) "" then qs else set (fst kv) (snd kv) qs)
    params qs
  = qs ++ filter nonEmptyValue params.
Proof.
  revert qs; induction params as [|[k v] params IH]; intros qs H; simpl.
  - now rewrite app_nil_r.
  - unfold nonEmptyValue at 1. cbn [snd fst].
    assert (Hk : ~ In k (map fst qs)).
    { intros Hin. apply NoDup_remove_2 in H. apply H. apply in_or_app. now left. }
    apply NoDup_remove_1 in H as Hrest.
    destruct (String.eqb v "") eqn:Ev; cbn [negb].
    + apply IH. exact Hrest.
    + rewrite (set_fresh k v qs Hk), IH.
      * now rewrite <- app_assoc.
      * rewrite map_app. cbn [map fst]. rewrite <- app_assoc. exact H.
Qed.

Lemma filter_nonEmpty_assign_empty (key : string) (params : Filters) :
  filter nonEmptyValue (assign key "" params) = filter nonEmptyValue (delete key params).
Proof.
  unfold assign, delete.
  destruct (existsb (fun kv => String.eqb (fst kv) key) params) eqn:E.
  - clear E. induction params as [|[k v] params IH]; [reflexivity|].
    cbn [map filter fst]. destruct (String.eqb k key); cbn [negb fst filter].
    + unfold nonEmptyValue at 1. cbn [snd]. cbn. exact IH.
    + now rewrite IH.
  - rewrite filter_app. cbn. rewrite app_nil_r. f_equal.
    symmetry. apply forallb_filter_id. apply forallb_forall. intros [k v] Hin.
    cbn [fst]. destruct (String.eqb k key) eqn:Ek; [|reflexivity].
    assert (Hex : existsb (fun kv => String.eqb (fst kv) key) params = true)
      by (apply existsb_exists; exists (k, v); auto).
    congruence.
Qed.

Lemma keys_assign_NoDup (key value : string) (params : Filters) :
  NoDup (map fst params) -> NoDup (map fst (assign key value params)).
Proof.
  intros H. unfold assign.
  destruct (existsb (fun kv => String.eqb (fst kv) key) params) eqn:E.
  - rewrite map_map.
    replace (map (fun x => fst (if String.eqb (fst x) key then (fst x, value) else x)) params)
      with (map fst params); [exact H|].
    apply map_ext. intros [k v]. cbn [fst]. now destruct (String.eqb k key).
  - rewrite map_app. cbn [map fst]. apply NoDup_app; [exact H | repeat constructor; intros [] |].
    intros k Hk [E'|[]]. subst k. apply in_map_iff in Hk. destruct Hk as ([k v] & Hf & Hin).
    cbn [fst] in Hf. subst k.
    assert (Hex : existsb (fun kv => String.eqb (fst kv) key) params = true).
    { apply existsb_exists. exists (key, v). split; [assumption | apply String.eqb_refl]. }
    congruence.
Qed.

Lemma keys_delete_NoDup (key : string) (params : Filters) :
  NoDup (map fst params) -> NoDup (map fst (delete key params)).
Proof.
  unfold delete. induction params as [|[k v] params IH]; intros H; [constructor|].
  cbn [filter fst map] in *. inversion H; subst.
  destruct (String.eqb k key); cbn [negb map fst]; [auto|].
  constructor; [|auto]. intros Hin. apply H2.
  apply in_map_iff in Hin. destruct Hin as (kv & Hf & Hin). apply filter_In in Hin.
  apply in_map_iff. exists kv. tauto.
Qed.

(** X5.  The query sent to the backend holds the filters with a non-empty
    value, in order, and nothing else; so a filter set to the empty string
    is sent exactly like a filter that is absent. *)
Theorem empty_filters_are_not_sent (params : Filters) (key : string) :
  NoDup (map fst params) ->
  queryEntries params = filter (fun kv => negb (String.eqb (snd kv) "")) params
  /\ queryEntries (assign key "" params) = queryEntries (delete key params)
  /\ (isActive key params = false -> forall value, ~ In (key, value) (queryEntries params)).
Proof.
  intros H.
  assert (Hq : forall p, NoDup (map fst p) -> queryEntries p = filter nonEmptyValue p).
  { intros p Hp. unfold queryEntries. now rewrite queryEntries_from. }
  split; [now apply Hq|]. split.
  - rewrite (Hq _ (keys_assign_NoDup key "" params H)),
      (Hq _ (keys_delete_NoDup key params H)).
    apply filter_nonEmpty_assign_empty.
  - intros Hoff value Hin. rewrite (Hq _ H) in Hin. apply filter_In in Hin.
    destruct Hin as [Hin Hne]. unfold nonEmptyValue in Hne. cbn [snd] in Hne.
    unfold isActive, lookup in Hoff.
    destruct (find (fun kv => String.eqb (fst kv) key) params) as [[k v]|] eqn:Ef.
    + apply find_some in Ef as [Hin' Hk]. cbn [fst] in Hk. apply String.eqb_eq in Hk. subst k.
      cbn [option_map snd] in Hoff.
      assert (v = value).
      { clear - H Hin Hin'. induction params as [|[k' v'] params IH]; [destruct Hin|].
        cbn [map fst] in H. inversion H; subst.
        destruct Hin as [E|Hin], Hin' as [E'|Hin'].
        - congruence.
        - inversion E; subst. exfalso. apply H2. apply in_map_iff. exists (key, v). auto.
        - inversion E'; subst. exfalso. apply H2. apply in_map_iff. exists (key, value). auto.
        - auto. }
      subst v. rewrite Hoff in Hne. discriminate.
    + apply (find_none _ _ Ef) in Hin. cbn [fst] in Hin. rewrite String.eqb_refl in Hin.
      discriminate.
Qed.

Lemma empty_filters_are_not_sent_witness :
  queryEntries SampleCollation.filters = [("q", "cat"); ("format", "jpg")]
  /\ queryEntries (assign "format" "" SampleCollation.filters)
     = queryEntries (delete "format" SampleCollation.filters).
Proof.
  assert (H : NoDup (map fst SampleCollation.filters)).
  { repeat constructor; simpl; intuition discriminate. }
  destruct (empty_filters_are_not_sent SampleCollation.filters "format" H) as (H1 & H2 & _).
  split; [rewrite H1; reflexivity | exact H2].
Defined.

End QueryFacts.

(** ** Smart folders *)
Section SmartFolderFacts.
Import SmartFolder.

Lemma includes_char_cons (sep c : ascii) (s : string) :
  JS.includes (String c s) (String sep EmptyString)
  = Ascii.eqb c sep || JS.includes s (String sep EmptyString).
Proof.
  cbn [JS.includes prefix]. f_equal.
  destruct (ascii_dec sep c) as [E|E].
  - subst c. rewrite Ascii.eqb_refl. now destruct s.
  - destruct (Ascii.eqb_spec c sep); [congruence | reflexivity].
Qed.

Lemma split_without_separator (piece : string) :
  JS.includes piece "," = false -> split "," piece = [piece].
Proof.
  induction piece as [|c s IH]; [reflexivity|].
  rewrite includes_char_cons. intros H.
  apply orb_false_iff in H. destruct H as [Hc H].
  cbn [split]. now rewrite Hc, (IH H).
Qed.

Lemma split_piece (piece rest : string) :
  JS.includes piece "," = false ->
  split "," (piece ++ String "," rest) = piece :: split "," rest.
Proof.
  induction piece as [|c s IH]; [reflexivity|].
  rewrite includes_char_cons. intros H.
  apply orb_false_iff in H. destruct H as [Hc H].
  change ((String c s ++ String "," rest)%string) with (String c (s ++ String "," rest)).
  cbn [split]. now rewrite Hc, (IH H).
Qed.

(** Splitting undoes joining when no piece holds the separator. *)
Lemma split_join (pieces : list string) :
  pieces <> [] ->
  Forall (fun piece => JS.includes piece "," = false) pieces ->
  split "," (JS.join "," pieces) = pieces.
Proof.
  intros Hne H. induction H as [|piece pieces Hp Hrest IH]; [congruence|].
  destruct pieces as [|next pieces].
  - cbn [JS.join]. now apply split_without_separator.
  - change (JS.join "," (piece :: next :: pieces))
      with ((piece ++ String "," (JS.join "," (next :: pieces)))%string).
    rewrite (split_piece _ _ Hp). f_equal. apply IH. discriminate.
Qed.

Lemma join_nonempty (pieces : list string) (piece : string) :
  In piece pieces -> piece <> "" -> JS.join "," pieces <> "".
Proof.
  destruct pieces as [|first [|next rest]]; cbn [JS.join]; intros Hin Hne.
  - destruct Hin.
  - destruct Hin as [->|[]]. exact Hne.
  - destruct first; discriminate.
Qed.

(** X6.  A smart folder saved from a selection of tags gives the same
    selection back when it is clicked, provided the selection is not empty
    and each tag is non-empty, has no white space around it and holds no
    comma; the filters installed are the stored query. *)
Theorem smart_folder_restores_its_tags (selected : list string) (name : string) :
  selected <> [] ->
  name <> "" ->
  Forall (fun tag => tag <> "" /\ JS.trim tag = tag /\ JS.includes tag "," = false)
    selected ->
  exists query,
    handleSaveSmart selected name = Some query
    /\ selectedTags (handleSmartClick query) = selected
    /\ filters (handleSmartClick query) = query
    /\ activeFolder (handleSmartClick query) = None.
Proof.
  intros Hsel Hname Hall.
  exists [("tags", JS.join "," selected)].
  split.
  { unfold handleSaveSmart. destruct selected; [congruence|].
    apply String.eqb_neq in Hname. now rewrite Hname. }
  split; [|split; reflexivity].
  unfold handleSmartClick. cbn [SmartFolder.selectedTags]. unfold smartTags.
  change (Formats.lookup "tags" [("tags", JS.join "," selected)])
    with (Some (JS.join "," selected)).
  cbv beta iota.
  assert (Hj : JS.join "," selected <> "").
  { destruct selected as [|tag rest]; [congruence|]. inversion Hall; subst.
    apply (join_nonempty _ tag); [now left | tauto]. }
  apply String.eqb_neq in Hj. rewrite Hj.
  rewrite split_join; [|assumption|].
  - clear Hsel Hj. induction Hall as [|tag rest (Hne & Htrim & _) _ IH]; [reflexivity|].
    cbn [map filter]. rewrite Htrim. apply String.eqb_neq in Hne. rewrite Hne.
    cbn [negb]. now rewrite IH.
  - eapply Forall_impl; [|exact Hall]. intros tag (_ & _ & H). exact H.
Qed.

Lemma smart_folder_restores_its_tags_witness :
  exists query,
    handleSaveSmart ["cat"; "black & white"] "pets" = Some query
    /\ selectedTags (handleSmartClick query) = ["cat"; "black & white"].
Proof.
  destruct (smart_folder_restores_its_tags ["cat"; "black & white"] "pets")
    as (query & H1 & H2 & _).
  - discriminate.
  - discriminate.
  - repeat constructor; discriminate.
  - exists query. split; assumption.
Defined.

End SmartFolderFacts.

(** ** URLs *)
Section UrlFacts.
Import Urls.

Lemma endsWithSlash_app (base : string) : endsWithSlash (base ++ "/") = true.
Proof.
  induction base as [|c s IH]; [reflexivity|].
  change ((String c s ++ "/")%string) with (String c (s ++ "/")).
  cbn [endsWithSlash]. destruct ((s ++ "/")%string) eqn:E; [|exact IH].
  destruct s; discriminate.
Qed.

Lemma dropLast_app (base : string) : dropLast (base ++ "/") = base.
Proof.
  induction base as [|c s IH]; [reflexivity|].
  change ((String c s ++ "/")%string) with (String c (s ++ "/")).
  cbn [dropLast]. destruct ((s ++ "/")%string) eqn:E.
  - destruct s; discriminate.
  - now rewrite IH.
Qed.

Lemma trimBase_app (base : string) :
  endsWithSlash base = false -> trimBase (base ++ "/") = trimBase base.
Proof.
  intros H. unfold trimBase. now rewrite endsWithSlash_app, dropLast_app, H.
Qed.

(** X7.  One trailing slash on the configured base makes no difference to
    the media and download URLs; an empty path gives the empty URL and an
    absolute [http] URL is returned as it is, whatever the base. *)
Theorem urls_ignore_a_trailing_slash_of_the_base (base : string) :
  endsWithSlash base = false ->
  (forall path, mediaUrl (base ++ "/") path = mediaUrl base path)
  /\ (forall assetId, downloadUrl (base ++ "/") assetId = downloadUrl base assetId)
  /\ mediaUrl base "" = ""
  /\ (forall path, prefix "http" path = true -> mediaUrl base path = path).
Proof.
  intros H. repeat split.
  - intros path. unfold mediaUrl. now rewrite trimBase_app.
  - intros assetId. unfold downloadUrl. now rewrite trimBase_app.
  - intros path Hp. unfold mediaUrl. rewrite Hp.
    destruct path; [discriminate | reflexivity].
Qed.

Lemma urls_ignore_a_trailing_slash_of_the_base_witness :
  mediaUrl "/api/" "/media/a.jpg" = mediaUrl "/api" "/media/a.jpg"
  /\ downloadUrl "/api/" 42 = "/api/assets/42/download".
Proof.
  destruct (urls_ignore_a_trailing_slash_of_the_base "/api" eq_refl) as (H1 & H2 & _).
  split; [apply H1 | exact (eq_trans (H2 42) eq_refl)].
Defined.

End UrlFacts.

(** ** The colour groups as a whole *)
Section ClusterTotals.
Import Colors.

Lemma totalCount_app (l1 l2 : list Group) :
  totalCount (l1 ++ l2) = totalCount l1 + totalCount l2.
Proof. induction l1 as [|x l1 IH]; simpl; [reflexivity | rewrite IH; lia]. Qed.

Lemma totalCount_perm (l1 l2 : list Group) :
  Permutation l1 l2 -> totalCount l1 = totalCount l2.
Proof. induction 1; simpl; lia. Qed.

Lemma fold_addColor_accepted (colors : list string) (groups : list Group) :
  fold_left addColor colors groups = fold_left addSwatch (acceptedOf colors) groups.
Proof.
  revert groups; induction colors as [|color colors IH]; intros groups; [reflexivity|].
  cbn [fold_left acceptedOf flat_map]. fold (acceptedOf colors).
  rewrite fold_left_app, IH. unfold addColor.
  now destruct (parseHexColor color).
Qed.

Lemma cluster_accepted_from (data : list Asset.t) (groups : list Group) :
  fold_left (fun groups asset => fold_left addColor (colorsOf asset) groups) data groups
  = fold_left addSwatch (accepted data) groups.
Proof.
  revert groups; induction data as [|asset data IH]; intros groups; [reflexivity|].
  cbn [fold_left accepted flat_map]. fold (accepted data).
  now rewrite fold_left_app, IH, fold_addColor_accepted.
Qed.

(** One accepted swatch adds one to the total, whichever branch it takes,
    and at most one group. *)
Lemma addSwatch_totals (groups : list Group) (rgb : Swatch) :
  totalCount (addSwatch groups rgb) = totalCount groups + 1
  /\ (Forall (fun group => 1 <= count group) groups ->
      Forall (fun group => 1 <= count group) (addSwatch groups rgb))
  /\ (List.length groups <= List.length (addSwatch groups rgb) <= S (List.length groups))%nat.
Proof.
  unfold addSwatch.
  destruct (JS.findIndex (withinThreshold rgb) groups) as [i|] eqn:E.
  - destruct (findIndex_Some _ (merge rgb) _ _ E)
      as (before & found & after & Hl & _ & _ & _ & Hup).
    rewrite Hup. subst groups. rewrite !totalCount_app.
    change (totalCount (merge rgb found :: after))
      with (count found + 1 + totalCount after).
    change (totalCount (found :: after)) with (count found + totalCount after).
    split; [lia|]. split.
    + intros H. apply Forall_app in H. destruct H as [Hb Hr]. inversion Hr; subst.
      apply Forall_app. split; [assumption|]. constructor; [cbn [merge count]; lia | assumption].
    + rewrite !length_app. cbn [List.length]. lia.
  - rewrite totalCount_app. cbn. split; [lia|]. split.
    + intros H. apply Forall_app. split; [assumption|]. repeat constructor. cbn. lia.
    + rewrite length_app. cbn [List.length]. lia.
Qed.

Lemma fold_addSwatch_totals (swatches : list Swatch) (groups : list Group) :
  totalCount (fold_left addSwatch swatches groups)
  = totalCount groups + Z.of_nat (List.length swatches)
  /\ (Forall (fun group => 1 <= count group) groups ->
      Forall (fun group => 1 <= count group) (fold_left addSwatch swatches groups))
  /\ (List.length groups <= List.length (fold_left addSwatch swatches groups)
      <= List.length groups + List.length swatches)%nat.
Proof.
  revert groups; induction swatches as [|rgb swatches IH]; intros groups.
  - cbn [fold_left List.length]. split; [lia|]. split; [auto | lia].
  - cbn [fold_left List.length].
    destruct (addSwatch_totals groups rgb) as (H1 & H2 & H3).
    destruct (IH (addSwatch groups rgb)) as (I1 & I2 & I3).
    split; [lia|]. split; [auto | lia].
Qed.

Lemma StronglySorted_impl {A : Type} (R S : A -> A -> Prop) (l : list A) :
  (forall a b, R a b -> S a b) -> StronglySorted R l -> StronglySorted S l.
Proof.
  intros H. induction 1 as [|a l Hs IH Hall]; constructor; [assumption|].
  eapply Forall_impl; [|exact Hall]. intros b. apply H.
Qed.

Lemma buildColorGroups_sorted (data : list Asset.t) :
  StronglySorted (fun a b => count b <= count a) (buildColorGroups data).
Proof.
  apply StronglySorted_impl with (R := fun a b => count b - count a <= 0); [intros; lia|].
  unfold buildColorGroups. apply sort_sorted; intros; lia.
Qed.

(** X8.  The groups come out most frequent first; their counts add up to
    the number of swatches [parseHexColor] accepted, so values it rejects
    count for nothing; every group has a positive count; and there are
    groups exactly when a swatch was accepted, never more groups than
    accepted swatches. *)
Theorem color_groups_are_ranked_and_account_for_every_swatch (data : list Asset.t) :
  StronglySorted (fun a b => count b <= count a) (buildColorGroups data)
  /\ totalCount (buildColorGroups data) = Z.of_nat (List.length (accepted data))
  /\ Forall (fun group => 1 <= count group) (buildColorGroups data)
  /\ (List.length (buildColorGroups data) <= List.length (accepted data))%nat
  /\ (buildColorGroups data = [] <-> accepted data = []).
Proof.
  pose proof (sort_perm (fun a b => count b - count a) (cluster data)) as Hperm.
  fold (buildColorGroups data) in Hperm.
  assert (Hc : cluster data = fold_left addSwatch (accepted data) [])
    by apply cluster_accepted_from.
  destruct (fold_addSwatch_totals (accepted data) []) as (H1 & H2 & H3).
  rewrite <- Hc in H1, H2, H3. cbn in H1, H3.
  split; [apply buildColorGroups_sorted|].
  split; [rewrite (totalCount_perm _ _ Hperm); exact H1|].
  split.
  { rewrite Forall_forall. intros x Hx.
    specialize (H2 (Forall_nil _)). rewrite Forall_forall in H2.
    apply H2. eapply Permutation_in; eauto. }
  apply Permutation_length in Hperm as Hlen.
  split; [lia|]. split.
  - intros E. rewrite E in Hperm. apply Permutation_nil in Hperm.
    rewrite Hperm in H1. cbn in H1. destruct (accepted data); [reflexivity | discriminate].
  - intros E. rewrite E in H3. cbn in H3.
    destruct (buildColorGroups data); [reflexivity | cbn in Hlen; lia].
Qed.

End ClusterTotals.

(** ** The colour facet *)
Section ColorFacetFacts.
Import Colors ColorFacet Formats Selection.

Lemma StronglySorted_filter {A : Type} (R : A -> A -> Prop) (p : A -> bool) (l : list A) :
  StronglySorted R l -> StronglySorted R (filter p l).
Proof.
  induction 1 as [|a l Hs IH Hall]; simpl; [constructor|].
  destruct (p a); [|exact IH]. constructor; [exact IH|].
  rewrite Forall_forall in *. intros x Hx. apply Hall. now apply filter_In in Hx.
Qed.

Lemma StronglySorted_split {A : Type} (R : A -> A -> Prop) (l1 l2 : list A) :
  StronglySorted R (l1 ++ l2) -> forall a b, In a l1 -> In b l2 -> R a b.
Proof.
  induction l1 as [|x l1 IH]; intros H a b Ha Hb; [destruct Ha|].
  cbn in H. inversion H; subst. destruct Ha as [->|Ha].
  - rewrite Forall_forall in H3. apply H3. apply in_or_app. now right.
  - now apply IH.
Qed.

(** X9.  Of the groups that match the colour query, the panel shows the
    first fifteen and counts the rest: shown plus counted is the number of
    matches, no hidden group is more frequent than a shown one, and an
    empty query matches every group. *)
Theorem top_colors_are_the_most_frequent_matches (data : list Asset.t) (colorQuery : string) :
  let filtered := filteredAllColors (buildColorGroups data) colorQuery in
  Z.of_nat (List.length (topColors filtered)) + extraColors filtered
  = Z.of_nat (List.length filtered)
  /\ (List.length (topColors filtered) <= 15)%nat
  /\ filtered = topColors filtered ++ skipn 15 filtered
  /\ (forall shown hidden,
         In shown (topColors filtered) -> In hidden (skipn 15 filtered) ->
         count hidden <= count shown)
  /\ (forall group, In group filtered -> In group (buildColorGroups data))
  /\ (colorQuery = "" -> filtered = buildColorGroups data).
Proof.
  cbv zeta. set (filtered := filteredAllColors (buildColorGroups data) colorQuery).
  assert (Hsorted : StronglySorted (fun a b => count b <= count a) filtered).
  { pose proof (buildColorGroups_sorted data) as Hs.
    unfold filtered, filteredAllColors.
    destruct (String.eqb colorQuery ""); [exact Hs | now apply StronglySorted_filter]. }
  unfold topColors, extraColors. split.
  { rewrite length_firstn. lia. }
  split; [apply firstn_le_length|].
  split; [symmetry; apply firstn_skipn|].
  split.
  { intros shown hidden Hs Hh.
    rewrite <- (firstn_skipn 15 filtered) in Hsorted.
    exact (StronglySorted_split _ _ _ Hsorted shown hidden Hs Hh). }
  split.
  - intros group. unfold filtered, filteredAllColors.
    destruct (String.eqb colorQuery ""); [auto|]. intros H. now apply filter_In in H.
  - intros ->. reflexivity.
Qed.

(** X10.  While the colour filter stays active, the colour groups offered
    do not depend on which colours are selected: toggling a colour
    re-queries with the same filters minus [color].  A colour that is empty
    changes neither the selection nor the filters. *)
Theorem color_options_ignore_the_selection
  (fetchAssets : Filters -> Promise (list Asset.t))
  (color : string) (selected recent : list string) (filters : Filters)
  (assets assets' : list Asset.t) (active : bool) :
  let '(selected', filters', _) := toggleColor color (selected, filters, recent) in
  (JS.toLowerCase color = "" -> selected' = selected /\ filters' = filters)
  /\ (isActive "color" filters = true ->
      JS.join "," selected' <> "" ->
      loadColors fetchAssets filters' assets' active
      = loadColors fetchAssets filters assets active).
Proof.
  unfold toggleColor.
  destruct (String.eqb_spec (JS.toLowerCase color) "") as [E|E].
  - split; [auto|]. intros Hon _. unfold loadColors. rewrite Hon. reflexivity.
  - split; [intros H; contradiction|].
    intros Hon Hjoin. unfold loadColors.
    rewrite isActive_assign, delete_assign, Hon.
    apply String.eqb_neq in Hjoin. now rewrite Hjoin.
Qed.

Lemma color_options_ignore_the_selection_witness :
  loadColors SampleCollation.backend
    (snd (fst (toggleColor "#FF0000" (["#00ff00"], [("color", "#00ff00")], []))))
    [] true
  = loadColors SampleCollation.backend [("color", "#00ff00")] [SampleAssets.unnamed] true.
Proof.
  pose proof (color_options_ignore_the_selection SampleCollation.backend "#FF0000"
                ["#00ff00"] [] [("color", "#00ff00")] [SampleAssets.unnamed] [] true) as H.
  destruct H as [_ H]. apply H; [reflexivity|].
  intros E. vm_compute in E. discriminate.
Defined.

End ColorFacetFacts.

(** ** What the replace branch deletes *)
Section ReplaceFacts.
Import Duplicates.







End ReplaceFacts.

(** ** The handler up to the start of the upload *)

Section HandlerFacts.
Import Handler.





End HandlerFacts.

(** ** A dropped directory *)
Section DirectoryDropFacts.
Import Collector Handler.

Lemma flatRead_In {A B : Type} (each : A -> list B) (reader : list (option (list A))) (y : B) :
  In y (flatRead each reader) ->
  exists batch x, In (Some batch) reader /\ In x batch /\ In y (each x).
Proof.
  induction reader as [|reply reader IH]; [intros []|].
  destruct reply as [[|x batch]|]; try (intros []).
  change (In y (flat_map each (x :: batch) ++ flatRead each reader) ->
          exists batch0 x0, In (Some batch0) (Some (x :: batch) :: reader)
                            /\ In x0 batch0 /\ In y (each x0)).
  intros H. apply in_app_or in H. destruct H as [H|H].
  - apply in_flat_map in H. destruct H as (x0 & Hx0 & Hy).
    exists (x :: batch), x0. split; [now left|]. auto.
  - destruct (IH H) as (batch0 & x0 & Hb & Hx0 & Hy).
    exists batch0, x0. split; [now right|]. auto.
Qed.

(** Below at least one directory, every leaf gets a path that starts with
    the directories above it. *)
Lemma flatten_paths (entry : Entry) :
  forall path file,
    path <> [] -> In file (flatten path entry) ->
    exists rest, File.relativePath file = Some (segments path ++ rest)%string.
Proof.
  induction entry as [name content|name|name reader IH] using Entry_nested_ind;
    intros path file Hpath Hin.
  - destruct content as [leaf|reason]; [|destruct Hin].
    destruct Hin as [<-|[]]. destruct path as [|dir path]; [contradiction|].
    exists (File.name leaf). reflexivity.
  - destruct Hin.
  - cbn [flatten] in Hin. apply flatRead_In in Hin.
    destruct Hin as (batch & child & Hbatch & Hchild & Hfile).
    rewrite Forall_forall in IH. specialize (IH _ Hbatch). cbv beta iota in IH.
    rewrite Forall_forall in IH.
    destruct (IH child Hchild (path ++ [name]) file) as [rest Hrest];
      [now destruct path | assumption |].
    rewrite segments_app, append_assoc in Hrest. eauto.
Qed.

Lemma includes_slash (a b : string) : JS.includes (a ++ "/" ++ b)%string "/" = true.
Proof.
  induction a as [|c a IH].
  { change (("" ++ "/" ++ b)%string) with (String "/" b).
    now rewrite includes_char_cons. }
  change ((String c a ++ "/" ++ b)%string) with (String c (a ++ "/" ++ b)%string).
  rewrite includes_char_cons, IH. apply orb_true_r.
Qed.

(** X13.  Dropping one directory: when every read below it succeeds and
    it holds a file, the upload starts at once with the depth-first leaves,
    without the duplicate check; each of them carries a path that starts
    with the directory's name and is sent as [relative_path].  An empty
    directory uploads nothing, and the handler reaches neither outcome
    exactly when something below the directory cannot be read. *)
Theorem dropped_directory_uploads_with_paths_and_no_duplicate_check
  (host : Host) (item : Item) (name : string) (reader : Reader) :
  activeFolder host <> None ->
  kindIsFile item = true ->
  webkitGetAsEntry item = Some (DirectoryEntry name reader) ->
  let directory := DirectoryEntry name reader in
  match handleDropUpload host {| files := []; items := [item] |} with
  | Uploads deleted alert s =>
      readable directory = true
      /\ deleted = [] /\ alert = None
      /\ s = Upload.start (flatten [] directory)
      /\ forall file,
           In file (flatten [] directory) ->
           exists rest,
             File.relativePath file = Some (name ++ "/" ++ rest)%string
             /\ forall meta,
                  In (Request.Text "relative_path" (name ++ "/" ++ rest)%string)
                    (Request.formFields file meta)
  | NothingToUpload => readable directory = true /\ flatten [] directory = []
  | DropFailed _ | Waiting _ => readable directory = false
  | FolderMissing => False
  end.
Proof.
  intros Hfolder Hkind Hentry directory. unfold handleDropUpload.
  destruct (activeFolder host) as [folder|] eqn:Hactive; [|contradiction].
  unfold getFilesFromDataTransfer. cbn [files items forEach].
  unfold collectItem. rewrite Hkind, Hentry. cbn [negb]. fold directory.
  assert (Hpaths : forall file,
             In file (flatten [] directory) ->
             exists rest, File.relativePath file = Some (name ++ "/" ++ rest)%string).
  { intros file Hin. unfold directory in Hin. cbn [flatten app] in Hin.
    apply flatRead_In in Hin. destruct Hin as (batch & child & _ & _ & Hfile).
    destruct (flatten_paths child [name] file) as [rest Hrest];
      [discriminate | assumption |].
    cbn [segments] in Hrest. rewrite append_assoc, append_empty_r in Hrest.
    eauto. }
  destruct (readable directory) eqn:Hreadable.
  - pose proof (traverseEntry_readable directory [] [] Hreadable) as Hrun.
    cbn [segments app] in Hrun. rewrite Hrun. cbn [andThen].
    unfold handleUploadFiles. rewrite Hactive.
    destruct (flatten [] directory) as [|file out] eqn:Hout; [auto|].
    assert (Hnested : Duplicates.hasNestedPath (file :: out) = true).
    { apply hasNestedPath_iff. destruct (Hpaths file) as [rest Hrest]; [now left|].
      exists file, (name ++ "/" ++ rest)%string.
      split; [now left|]. split; [assumption | apply includes_slash]. }
    unfold Duplicates.checkDuplicates. rewrite Hnested.
    split; [reflexivity|]. split; [reflexivity|]. split; [reflexivity|].
    split; [reflexivity|].
    intros leaf Hleaf. destruct (Hpaths leaf Hleaf) as [rest Hrest].
    exists rest. split; [assumption|]. intros meta.
    unfold Request.formFields. rewrite Hrest, includes_slash.
    apply in_or_app. right. apply in_or_app. left.
    destruct name; now left.
  - pose proof (traverseEntry_unreadable directory Hreadable [] "") as Hrun.
    destruct (traverseEntry directory [] "") as [out|reason|];
      [now contradiction (Hrun out) | reflexivity | reflexivity].
Qed.

Lemma dropped_directory_uploads_with_paths_and_no_duplicate_check_witness :
  match handleDropUpload SampleHost.replacing
          {| files := [];
             items := [ {| kindIsFile := true;
                           webkitGetAsEntry := Some Sample.photos;
                           getAsFile := None |} ] |} with
  | Uploads deleted alert s => deleted = [] /\ alert = None
  | _ => False
  end.
Proof.
  assert (H1 : activeFolder SampleHost.replacing <> None) by discriminate.
  pose proof (dropped_directory_uploads_with_paths_and_no_duplicate_check
                SampleHost.replacing
                {| kindIsFile := true; webkitGetAsEntry := Some Sample.photos;
                   getAsFile := None |}
                "photos"
                [Some [Sample.entryA; DirectoryEntry "raw" [Some [Sample.entryB]; Some []]];
                 Some [Sample.entryC];
                 Some []]
                H1 eq_refl eq_refl) as H.
  cbv zeta in H.
  match goal with
  | |- match ?run with _ => _ end =>
      destruct run as [| | |deleted|deleted alert s] eqn:E;
        try (vm_compute in E; discriminate)
  end.
  destruct H as (_ & Hd & Ha & _). auto.
Defined.

End DirectoryDropFacts.

(** ** Batch delete *)
Section BatchDeleteFacts.
Import BatchDelete.

Lemma deleteLoop_app (deleteAsset : Z -> Promise unit) (ids done rest : list Z) (s : State) :
  Forall (fun id => deleteAsset id = Fulfilled tt) done ->
  deleteLoop deleteAsset ids (done ++ rest) s
  = deleteLoop deleteAsset ids rest (announced ids done s).
Proof.
  intros H. revert s. induction H as [|id done Hid _ IH]; intros s; [reflexivity|].
  cbn [app deleteLoop]. rewrite Hid. apply IH.
Qed.

Lemma announced_keeps (ids done : list Z) (s : State) :
  selectedIds (announced ids done s) = selectedIds s
  /\ selectionMode (announced ids done s) = selectionMode s
  /\ selected (announced ids done s) = selected s
  /\ active (deleteProgress (announced ids done s)) = active (deleteProgress s)
  /\ total (deleteProgress (announced ids done s)) = total (deleteProgress s)
  /\ requested (announced ids done s) = requested s ++ done.
Proof.
  revert s; induction done as [|id done IH]; intros s.
  - cbn. now rewrite app_nil_r.
  - change (announced ids (id :: done) s) with (announced ids done (announce ids id s)).
    destruct (IH (announce ids id s)) as (H1 & H2 & H3 & H4 & H5 & H6).
    rewrite H1, H2, H3, H4, H5, H6. cbn [announce selectedIds selectionMode selected
      deleteProgress active total requested]. now rewrite <- app_assoc.
Qed.

Lemma indexOf_app (id : Z) (before after : list Z) :
  ~ In id before -> indexOf id (before ++ id :: after) = Some (List.length before).
Proof.
  induction before as [|x before IH]; intros Hnot; cbn [app indexOf List.length].
  - now rewrite Z.eqb_refl.
  - destruct (Z.eqb_spec x id) as [E|E]; [exfalso; apply Hnot; now left|].
    rewrite IH; [reflexivity|]. intros H. apply Hnot. now right.
Qed.

(** X14.  The batch stops at the first deletion that fails: the ids
    after it are never requested, the handler's promise is rejected with
    that reason, and what the user sees stays as it was at the failure: the
    selection is kept and the progress overlay stays active at that item. *)
Theorem failed_deletion_stops_the_batch_and_leaves_the_overlay
  (deleteAsset : Z -> Promise unit) (fetched : Promise (list Asset.t))
  (loadMeta : Promise unit) (s : State)
  (before after : list Z) (bad : Z) (reason : string) :
  selectedIds s = before ++ bad :: after ->
  NoDup (selectedIds s) ->
  Forall (fun id => deleteAsset id = Fulfilled tt) before ->
  deleteAsset bad = Rejected reason ->
  let '(s', settled) := handleBatchDelete deleteAsset fetched loadMeta true s in
  settled = Rejected reason
  /\ requested s' = requested s ++ before ++ [bad]
  /\ selectedIds s' = selectedIds s
  /\ selectionMode s' = selectionMode s
  /\ selected s' = selected s
  /\ active (deleteProgress s') = true
  /\ index (deleteProgress s') = Z.of_nat (List.length before) + 1
  /\ current (deleteProgress s') = Urls.toStringZ bad
  /\ total (deleteProgress s') = List.length (selectedIds s).
Proof.
  intros Hids Hdistinct Hbefore Hbad. unfold handleBatchDelete.
  destruct (selectedIds s) as [|id0 ids0] eqn:Hsel; [now destruct before|].
  cbn [negb].
  match goal with
  | |- context [deleteLoop ?f ?ids ?ids ?begun] =>
      replace (deleteLoop f ids ids begun)
        with (deleteLoop f ids (before ++ bad :: after) begun) by (now rewrite <- Hids)
  end.
  rewrite (deleteLoop_app _ _ _ _ _ Hbefore). cbn [deleteLoop]. rewrite Hbad.
  match goal with
  | |- context [announced ?ids before ?begun] =>
      destruct (announced_keeps ids before begun) as (H1 & H2 & H3 & H4 & H5 & H6);
      set (mid := announced ids before begun) in *
  end.
  cbn [selectedIds selectionMode selected deleteProgress active total requested] in *.
  split; [reflexivity|].
  cbn [announce selectedIds selectionMode selected deleteProgress active total requested
         index current].
  rewrite H1, H2, H3, H4, H5, H6.
  split; [now rewrite app_assoc|].
  split; [reflexivity|]. split; [reflexivity|]. split; [reflexivity|].
  split; [reflexivity|].
  split; [|split; reflexivity].
  rewrite Hids, indexOf_app; [reflexivity|].
  rewrite Hids in Hdistinct. apply NoDup_remove_2 in Hdistinct.
  intros H. apply Hdistinct. apply in_or_app. now left.
Qed.

Lemma failed_deletion_stops_the_batch_and_leaves_the_overlay_witness :
  let s := {| selectedIds := [4; 9; 2]; selectionMode := true; selected := Some 4;
              deleteProgress := {| active := false; percent := 0; current := "";
                                   index := 0; total := 0 |};
              requested := [] |} in
  let deleteAsset := fun id => if id =? 9 then Rejected "gone" else Fulfilled tt in
  let '(s', settled) := handleBatchDelete deleteAsset (Fulfilled []) (Fulfilled tt) true s in
  settled = Rejected "gone" /\ requested s' = [4; 9] /\ selectedIds s' = [4; 9; 2]
  /\ active (deleteProgress s') = true.
Proof.
  cbv zeta.
  pose proof (failed_deletion_stops_the_batch_and_leaves_the_overlay
                (fun id => if id =? 9 then Rejected "gone" else Fulfilled tt)
                (Fulfilled []) (Fulfilled tt)
                {| selectedIds := [4; 9; 2]; selectionMode := true; selected := Some 4;
                   deleteProgress := {| active := false; percent := 0; current := "";
                                        index := 0; total := 0 |};
                   requested := [] |}
                [4] [2] 9 "gone" eq_refl) as H.
  cbn [selectedIds] in H.
  assert (Hd : NoDup [4; 9; 2]).
  { repeat constructor; cbn; intuition discriminate. }
  specialize (H Hd (Forall_cons 4 eq_refl (Forall_nil _)) eq_refl).
  match goal with
  | |- let '(_, _) := ?run in _ => destruct run as [s' settled]
  end.
  destruct H as (H1 & H2 & H3 & _ & _ & H4 & _).
  repeat split; assumption.
Defined.

(** X15.  When every deletion succeeds, each selected id is requested
    once, in the order of the selection, and the selection and the
    selection mode are cleared.  The open asset is deselected, but the
    reload of the assets then selects it again when the reloaded list still
    holds an asset of its id, because [loadAssets] still sees the asset
    that was open when the handler started; it stays deselected when the
    list no longer holds it or the reload fails.  The progress overlay is
    closed only if both reloads succeed, and otherwise stays active while
    the handler's promise takes the outcome of the reload that failed.
    Without confirmation nothing is requested and nothing changes. *)
Theorem batch_delete_requests_every_selected_id_once
  (deleteAsset : Z -> Promise unit) (fetched : Promise (list Asset.t))
  (loadMeta : Promise unit) (s : State) :
  selectedIds s <> [] ->
  Forall (fun id => deleteAsset id = Fulfilled tt) (selectedIds s) ->
  handleBatchDelete deleteAsset fetched loadMeta false s = (s, Fulfilled tt)
  /\ let '(s', settled) := handleBatchDelete deleteAsset fetched loadMeta true s in
     requested s' = requested s ++ selectedIds s
     /\ selectedIds s' = [] /\ selectionMode s' = false
     /\ selected s'
        = match fetched, selected s with
          | Fulfilled data, Some id =>
              if existsb (fun item => Asset.id item =? id) data then Some id else None
          | _, _ => None
          end
     /\ settled = andThen fetched (fun _ => loadMeta)
     /\ match settled with
        | Fulfilled _ =>
            deleteProgress s'
            = {| active := false; percent := 0; current := ""; index := 0; total := 0 |}
        | _ =>
            active (deleteProgress s') = true
            /\ total (deleteProgress s') = List.length (selectedIds s)
        end.
Proof.
  intros Hsome Hall. unfold handleBatchDelete.
  destruct (selectedIds s) as [|id0 ids0] eqn:Hsel; [contradiction|].
  cbn [negb]. split; [reflexivity|].
  match goal with
  | |- context [deleteLoop ?f ?ids ?ids ?begun] =>
      replace (deleteLoop f ids ids begun)
        with (deleteLoop f ids (ids ++ []) begun) by (now rewrite app_nil_r)
  end.
  rewrite (deleteLoop_app _ _ _ _ _ Hall). cbn [deleteLoop].
  match goal with
  | |- context [announced ?ids ?done ?begun] =>
      destruct (announced_keeps ids done begun) as (H1 & H2 & H3 & H4 & H5 & H6);
      set (final := announced ids done begun) in *
  end.
  cbn [selectedIds selectionMode selected deleteProgress active total requested] in *.
  unfold reselect.
  destruct fetched as [data|reason|]; cbn [andThen];
    [destruct loadMeta as [[]|reason|]|..];
    cbn [selectedIds selectionMode selected deleteProgress requested];
    rewrite H6; destruct (selected s); auto 10.
Qed.

Lemma batch_delete_requests_every_selected_id_once_witness :
  let s := {| selectedIds := [4; 9; 2]; selectionMode := true; selected := Some 7;
              deleteProgress := {| active := false; percent := 0; current := "";
                                   index := 0; total := 0 |};
              requested := [] |} in
  let '(s', settled) :=
    handleBatchDelete (fun _ => Fulfilled tt) (Fulfilled SampleAssets.folder)
      (Rejected "offline") true s in
  requested s' = [4; 9; 2] /\ selectedIds s' = [] /\ selected s' = Some 7
  /\ settled = Rejected "offline" /\ active (deleteProgress s') = true.
Proof.
  cbv zeta.
  assert (H1 : [4; 9; 2] <> @nil Z) by discriminate.
  assert (H2 : Forall (fun id : Z => (fun _ : Z => Fulfilled tt) id = Fulfilled tt) [4; 9; 2])
    by (repeat constructor).
  destruct (batch_delete_requests_every_selected_id_once
                (fun _ => Fulfilled tt) (Fulfilled SampleAssets.folder) (Rejected "offline")
                {| selectedIds := [4; 9; 2]; selectionMode := true; selected := Some 7;
                   deleteProgress := {| active := false; percent := 0; current := "";
                                        index := 0; total := 0 |};
                   requested := [] |} H1 H2) as [_ H].
  match goal with
  | |- let '(_, _) := ?run in _ => destruct run as [s' settled]
  end.
  destruct H as (Hr & Hs & _ & Hsel & Hp & Hm).
  cbn [andThen] in Hp. subst settled. destruct Hm as [Ha _].
  repeat split; assumption.
Defined.

End BatchDeleteFacts.

(** ** Highlighting *)
Section HighlightFacts.
Import Highlight.

Lemma startsWith_firstn (sub s : Text) :
  startsWith sub s = true <-> firstn (List.length sub) s = sub.
Proof.
  revert s; induction sub as [|c sub IH]; intros s; [split; reflexivity|].
  destruct s as [|d s]; cbn [startsWith List.length firstn]; [split; discriminate|].
  rewrite andb_true_iff, N.eqb_eq, IH. split.
  - intros [-> ->]. reflexivity.
  - intros H. injection H as Hd Hs. split; [congruence | exact Hs].
Qed.

Lemma slice_at (k n : nat) (s : Text) : slice k (k + n) s = firstn n (skipn k s).
Proof. unfold slice. now replace (k + n - k)%nat with n by lia. Qed.

(** [indexOf] finds the first position where [sub] occurs. *)
Lemma indexOf_Some (s sub : Text) :
  forall m,
    indexOf s sub = Some m ->
    slice m (m + List.length sub) s = sub
    /\ forall k, (k < m)%nat -> slice k (k + List.length sub) s <> sub.
Proof.
  induction s as [|c s IH]; intros m H; cbn [indexOf] in H.
  - destruct (startsWith sub []) eqn:E; [|discriminate].
    inversion H; subst m. rewrite slice_at. cbn [skipn].
    split; [now apply startsWith_firstn | intros k Hk; lia].
  - destruct (startsWith sub (c :: s)) eqn:E.
    + inversion H; subst m. rewrite slice_at. cbn [skipn].
      split; [now apply startsWith_firstn | intros k Hk; lia].
    + destruct (indexOf s sub) as [m'|]; [|discriminate].
      inversion H; subst m. destruct (IH m' eq_refl) as [H1 H2].
      rewrite slice_at in *. split; [exact H1|].
      intros [|k] Hk; rewrite slice_at.
      * cbn [skipn]. intros Hsub. apply startsWith_firstn in Hsub. congruence.
      * specialize (H2 k ltac:(lia)). now rewrite slice_at in H2.
Qed.

Lemma indexOf_None (s sub : Text) :
  indexOf s sub = None -> forall k, slice k (k + List.length sub) s <> sub.
Proof.
  induction s as [|c s IH]; intros H k; cbn [indexOf] in H; rewrite slice_at.
  - destruct (startsWith sub []) eqn:E; [discriminate|].
    intros Hsub. rewrite skipn_nil in Hsub.
    apply startsWith_firstn in Hsub. congruence.
  - destruct (startsWith sub (c :: s)) eqn:E; [discriminate|].
    destruct (indexOf s sub) as [m'|]; [discriminate|].
    destruct k as [|k].
    + cbn [skipn]. intros Hsub. apply startsWith_firstn in Hsub. congruence.
    + specialize (IH eq_refl k). now rewrite slice_at in IH.
Qed.

(** The three slices of [highlightMatch] put together. *)
Lemma slices_app (m n : nat) (s : Text) :
  slice 0 m s ++ slice m (m + n) s ++ sliceFrom (m + n) s = s.
Proof.
  rewrite slice_at. unfold slice, sliceFrom. rewrite Nat.sub_0_r. cbn [skipn].
  rewrite (Nat.add_comm m n), <- skipn_skipn, firstn_skipn. apply firstn_skipn.
Qed.

Lemma slice_map (f : N -> N) (i j : nat) (s : Text) :
  slice i j (map f s) = map f (slice i j s).
Proof. unfold slice. now rewrite skipn_map, firstn_map. Qed.

(** X16.  [highlightMatch] never alters the text: the three pieces put
    together give it back.  The text is cut at the first position where
    the lower-cased query occurs in the lower-cased text, and is shown
    unmarked exactly when the query is empty or does not occur there.
    When lower-casing works code unit by code unit on the text and on the
    query, the marked piece has the length of the query, equals it up to
    case, and no earlier position of the text matches. *)
Theorem highlight_marks_the_first_match_and_keeps_the_text
  (toLowerCase : Text -> Text) (text query : Text) :
  let lower := toLowerCase text in
  let needle := toLowerCase query in
  match highlightMatch toLowerCase text query with
  | Plain shown =>
      shown = text
      /\ (query = [] \/ forall k, slice k (k + List.length needle) lower <> needle)
  | Marked before hit after =>
      before ++ hit ++ after = text
      /\ query <> []
      /\ exists m,
           slice m (m + List.length needle) lower = needle
           /\ (forall k, (k < m)%nat -> slice k (k + List.length needle) lower <> needle)
           /\ before = slice 0 m text
           /\ hit = slice m (m + List.length query) text
           /\ after = sliceFrom (m + List.length query) text
           /\ forall unit : N -> N,
                lower = map unit text -> needle = map unit query ->
                List.length before = m
                /\ List.length hit = List.length query
                /\ map unit hit = map unit query
                /\ forall k, (k < m)%nat ->
                             map unit (slice k (k + List.length query) text)
                             <> map unit query
  end.
Proof.
  cbv zeta. unfold highlightMatch.
  destruct query as [|q query]; [auto|]. set (asked := q :: query).
  destruct (indexOf (toLowerCase text) (toLowerCase asked)) as [m|] eqn:Hm.
  - apply indexOf_Some in Hm. destruct Hm as [Hhit Hfirst].
    split; [apply slices_app|]. split; [discriminate|].
    exists m. repeat (split; [assumption || reflexivity|]).
    intros unit Htext Hquery. rewrite Htext, Hquery in Hhit, Hfirst.
    rewrite length_map, slice_map in Hhit.
    assert (Hlen : List.length (slice m (m + List.length asked) text)
                   = List.length asked).
    { rewrite <- (length_map unit (slice _ _ _)), Hhit. apply length_map. }
    split.
    { unfold slice in *. rewrite Nat.sub_0_r. cbn [skipn]. apply firstn_length_le.
      rewrite length_firstn, length_skipn in Hlen. cbn [asked List.length] in Hlen. lia. }
    split; [exact Hlen|]. split; [exact Hhit|].
    intros k Hk. specialize (Hfirst k Hk).
    now rewrite length_map, slice_map in Hfirst.
  - split; [reflexivity|]. right. now apply indexOf_None.
Qed.

Lemma highlight_marks_the_first_match_and_keeps_the_text_witness :
  match highlightMatch SampleText.lower SampleText.catPhotos SampleText.pho with
  | Marked before hit after =>
      before ++ hit ++ after = SampleText.catPhotos
      /\ List.length before = 4%nat
      /\ map SampleText.lowerUnit hit = SampleText.units "pho"
  | Plain _ => False
  end.
Proof.
  pose proof (highlight_marks_the_first_match_and_keeps_the_text
                SampleText.lower SampleText.catPhotos SampleText.pho) as H.
  cbv zeta in H.
  destruct (highlightMatch SampleText.lower SampleText.catPhotos SampleText.pho)
    as [shown|before hit after] eqn:E; [vm_compute in E; discriminate|].
  destruct H as (Hsame & _ & m & _ & _ & Hbefore & _ & _ & Hunits).
  destruct (Hunits SampleText.lowerUnit eq_refl eq_refl) as (Hm & _ & Hhit & _).
  split; [exact Hsame|]. split.
  - vm_compute in E. inversion E. reflexivity.
  - rewrite Hhit. reflexivity.
Defined.

(** Where lower-casing lengthens the text the cut is shifted: after
    U+0130 the marked piece of a match on [s] is empty. *)
Lemma highlight_is_shifted_by_a_longer_lowering :
  highlightMatch SampleText.lower SampleText.dotted [115%N]
  = Marked SampleText.dotted [] [].
Proof. reflexivity. Qed.

End HighlightFacts.
